(** * lattigo: generic containers, secret keys and RGSW ciphertexts

    A shallow embedding of
      - [structs.Matrix]   (utils/structs/matrix.go),
      - [rlwe.SecretKey]   (rlwe/secretkey.go),
      - [rgsw.Ciphertext]  (core/rgsw/elements.go),
    together with the byte streams they are encoded to and decoded from.

    Conventions.
      - Go's [int] and [int64] are 64-bit two's complement integers: they are
        values of [Z] kept in range by [wrap64] at every addition.
      - A Go function returning [(n, err)] returns a tuple whose last
        component is an [option error]; [None] is Go's [nil] error.
      - A Go function that can panic returns an [outcome].
      - A slice is its visible elements together with the spare elements of
        its backing array ([cap = len + spare]). *)

From Stdlib Require Import ZArith List String Lia Bool.
From Stdlib Require Import Strings.Byte.
From coqutil Require Import Word.LittleEndianList.
From coqutil Require Byte.
From stdpp Require Import base option list gmap.

Local Open Scope Z_scope.

(** ** Go runtime: errors, panics, machine integers *)

Inductive error : Type :=
| errors_New (msg : string)                      (* errors.New(msg) *)
| fmt_Errorf_w (context : string) (cause : error). (* fmt.Errorf("context: %w", cause) *)

Definition io_EOF : error := errors_New "EOF".
Definition io_ErrUnexpectedEOF : error := errors_New "unexpected EOF".
Definition io_ErrShortWrite : error := errors_New "short write".

Inductive panic : Type :=
| panic_not_comply (type_name interface_name : string) (* panic(fmt.Errorf("... does not comply to ...")) *)
| panic_index_out_of_range (index length : nat)        (* runtime error: index out of range *)
| panic_slice_bounds (bound : Z)                       (* runtime error: slice bounds out of range *)
| panic_nil_dereference.                               (* runtime error: nil pointer dereference *)

Inductive outcome (A : Type) : Type :=
| Ret (a : A)
| Panic (p : panic).
Arguments Ret {A} a.
Arguments Panic {A} p.

#[global] Instance outcome_ret : MRet outcome := fun A a => Ret a.
#[global] Instance outcome_bind : MBind outcome := fun A B k o =>
  match o with
  | Ret a => k a
  | Panic p => Panic p
  end.

(** Two's complement wrap-around of a 64-bit signed integer. *)
Definition wrap64 (z : Z) : Z := (z + 2 ^ 63) mod 2 ^ 64 - 2 ^ 63.

(** [a + b] on [int] / [int64]. *)
Definition add64 (a b : Z) : Z := wrap64 (a + b).

(** [int(u)] for a [uint64] [u]. *)
Definition int_of_uint64 (u : Z) : Z := wrap64 u.

(** [uint64(i)] for an [int] [i]. *)
Definition uint64_of_int (i : Z) : Z := i mod 2 ^ 64.

(** [len(s)] as an [int]. *)
Definition len_int {A : Type} (l : list A) : Z := Z.of_nat (length l).

(** The dynamic types a type switch on [any(t)] distinguishes. *)
Inductive go_type : Type :=
| Tuint | Tuint64 | Tuint32 | Tuint16 | Tuint8
| Tint | Tint64 | Tint32 | Tint16 | Tint8
| Tfloat64 | Tfloat32
| Tother (name : string).

(** [%T] *)
Definition type_name (t : go_type) : string :=
  match t with
  | Tuint => "uint" | Tuint64 => "uint64" | Tuint32 => "uint32"
  | Tuint16 => "uint16" | Tuint8 => "uint8"
  | Tint => "int" | Tint64 => "int64" | Tint32 => "int32"
  | Tint16 => "int16" | Tint8 => "int8"
  | Tfloat64 => "float64" | Tfloat32 => "float32"
  | Tother name => name
  end.

(** ** Slices *)

Record slice (A : Type) : Type := mkSlice {
  elems : list A;   (* s[0], ..., s[len(s)-1] *)
  spare : list A    (* the rest of the backing array, up to cap(s) *)
}.
Arguments mkSlice {A} elems spare.
Arguments elems {A} s.
Arguments spare {A} s.

Section Slices.
Context {A : Type}.

Definition len (s : slice A) : Z := len_int (elems s).
Definition cap (s : slice A) : Z := len_int (elems s ++ spare s).

(** The nil slice. *)
Definition nil_slice : slice A := mkSlice [] [].

(** [make([]A, n)]: a fresh backing array of [n] zero values. *)
Definition make (zero : A) (n : nat) : slice A := mkSlice (replicate n zero) [].

(** [s[:n]] for [0 <= n <= cap(s)]. *)
Definition reslice (s : slice A) (n : nat) : slice A :=
  mkSlice (take n (elems s ++ spare s)) (drop n (elems s ++ spare s)).

(** A slice whose backing array holds its visible elements only. *)
Definition of_list (l : list A) : slice A := mkSlice l [].
End Slices.

(** ** Memory: backing arrays and slice headers

    [CopyNew] is about storage, so it is modelled on slice headers that point
    into a memory of backing arrays: the arrays of row headers of a
    [[][]T] and the arrays of elements of its rows. *)

Definition addr : Type := positive.

Record header : Type := mkHeader {
  base : option addr;   (* the backing array; None for the nil slice *)
  hoff : nat;           (* where the slice starts in it *)
  hlen : nat;           (* len *)
  hcap : nat            (* cap *)
}.

Definition nil_header : header := mkHeader None 0 0 0.

Record mem (T : Type) : Type := mkMem {
  outer : gmap addr (list header);   (* backing arrays of [][]T *)
  inner : gmap addr (list T)         (* backing arrays of []T *)
}.
Arguments mkMem {T} outer inner.
Arguments outer {T} m.
Arguments inner {T} m.

Section Memory.
Context {T : Type}.

Definition mem_dom (mm : mem T) : gset addr := dom (outer mm) ∪ dom (inner mm).

(** [make([][]T, n)] and [make([]T, n)]: a fresh array of zero values. *)
Definition make_outer (mm : mem T) (n : nat) : mem T * header :=
  let a := fresh (mem_dom mm) in
  (mkMem (<[a := replicate n nil_header]> (outer mm)) (inner mm),
   mkHeader (Some a) 0 n n).

Definition make_inner (zero : T) (mm : mem T) (n : nat) : mem T * header :=
  let a := fresh (mem_dom mm) in
  (mkMem (outer mm) (<[a := replicate n zero]> (inner mm)),
   mkHeader (Some a) 0 n n).

(** [s[i]] as a value, for a slice of rows and for a slice of elements. *)
Definition index_outer (mm : mem T) (s : header) (i : nat) : outcome header :=
  if (i <? hlen s)%nat then
    match base s with
    | Some a =>
      match outer mm !! a with
      | Some arr =>
        match arr !! (hoff s + i)%nat with
        | Some v => Ret v
        | None => Panic (panic_index_out_of_range i (hlen s))
        end
      | None => Panic panic_nil_dereference
      end
    | None => Panic panic_nil_dereference
    end
  else Panic (panic_index_out_of_range i (hlen s)).

Definition index_inner (mm : mem T) (s : header) (i : nat) : outcome T :=
  if (i <? hlen s)%nat then
    match base s with
    | Some a =>
      match inner mm !! a with
      | Some arr =>
        match arr !! (hoff s + i)%nat with
        | Some v => Ret v
        | None => Panic (panic_index_out_of_range i (hlen s))
        end
      | None => Panic panic_nil_dereference
      end
    | None => Panic panic_nil_dereference
    end
  else Panic (panic_index_out_of_range i (hlen s)).

(** [s[i] = v] *)
Definition assign_outer (mm : mem T) (s : header) (i : nat) (v : header) : outcome (mem T) :=
  if (i <? hlen s)%nat then
    match base s with
    | Some a =>
      match outer mm !! a with
      | Some arr => Ret (mkMem (<[a := <[(hoff s + i)%nat := v]> arr]> (outer mm)) (inner mm))
      | None => Panic panic_nil_dereference
      end
    | None => Panic panic_nil_dereference
    end
  else Panic (panic_index_out_of_range i (hlen s)).

Definition assign_inner (mm : mem T) (s : header) (i : nat) (v : T) : outcome (mem T) :=
  if (i <? hlen s)%nat then
    match base s with
    | Some a =>
      match inner mm !! a with
      | Some arr => Ret (mkMem (outer mm) (<[a := <[(hoff s + i)%nat := v]> arr]> (inner mm)))
      | None => Panic panic_nil_dereference
      end
    | None => Panic panic_nil_dereference
    end
  else Panic (panic_index_out_of_range i (hlen s)).

(** The visible elements of a slice of elements, and of a slice of rows. *)
Definition cells_of (mm : mem T) (s : header) : option (list T) :=
  match base s with
  | None => if (hlen s =? 0)%nat then Some [] else None
  | Some a =>
    match inner mm !! a with
    | Some arr =>
      if (hoff s + hlen s <=? length arr)%nat
      then Some (take (hlen s) (drop (hoff s) arr))
      else None
    | None => None
    end
  end.

Definition rows_of (mm : mem T) (s : header) : option (list header) :=
  match base s with
  | None => if (hlen s =? 0)%nat then Some [] else None
  | Some a =>
    match outer mm !! a with
    | Some arr =>
      if (hoff s + hlen s <=? length arr)%nat
      then Some (take (hlen s) (drop (hoff s) arr))
      else None
    | None => None
    end
  end.

(** The matrix a header denotes in a memory. *)
Definition load (mm : mem T) (m : header) : option (list (list T)) :=
  match rows_of mm m with
  | Some rows => mapM (cells_of mm) rows
  | None => None
  end.

(** [copy(dst, src)]: [min(len(dst), len(src))] elements, as by [memmove]. *)
Definition copy_inner (mm : mem T) (dst src : header) : outcome (mem T) :=
  let n := Nat.min (hlen dst) (hlen src) in
  if (n =? 0)%nat then Ret mm
  else
    match cells_of mm src, base dst with
    | Some l, Some a =>
      match inner mm !! a with
      | Some arr =>
        Ret (mkMem (outer mm)
               (<[a := take (hoff dst) arr ++ take n l ++ drop (hoff dst + n) arr]> (inner mm)))
      | None => Panic panic_nil_dereference
      end
    | _, _ => Panic panic_nil_dereference
    end.

(** [for i := range s { body }] over the indices [0 .. n-1]. *)
Fixpoint for_range (body : mem T → nat → outcome (mem T)) (indices : list nat) (mm : mem T)
    : outcome (mem T) :=
  match indices with
  | [] => Ret mm
  | i :: rest => mm' ← body mm i; for_range body rest mm'
  end.

(** The addresses a matrix header owns: its array of rows and the arrays
    of its rows. *)
Definition footprint (mm : mem T) (m : header) : gset addr :=
  match rows_of mm m with
  | Some rows =>
    list_to_set (omap base rows) ∪ match base m with Some a => {[a]} | None => ∅ end
  | None => match base m with Some a => {[a]} | None => ∅ end
  end.

End Memory.

(** ** Byte sinks and sources (package [io]) *)

(** An [io.Writer] that is not a [buffer.Writer]: a destination that takes
    bytes until its room, when it is bounded, is used up (a closed channel, a
    quota), and reports an error from then on. *)
Record Sink : Type := mkSink {
  accepted : list byte;
  room : option nat
}.

Definition Sink_Write (s : Sink) (p : list byte) : Sink * nat * option error :=
  match room s with
  | None => (mkSink (accepted s ++ p) None, length p, None)
  | Some k =>
    if (length p <=? k)%nat
    then (mkSink (accepted s ++ p) (Some (k - length p)%nat), length p, None)
    else (mkSink (accepted s ++ take k p) (Some 0%nat), k, Some (errors_New "sink closed"))
  end.

(** An [io.Reader] that is not a [buffer.Reader] is the list of the bytes it
    still holds; its [Read(p)] hands out [min(len(p), remaining)] bytes. *)
Definition Source : Type := list byte.

(** ** Package [bufio] (Go standard library) *)
Module bufio.

Definition defaultBufSize : nat := 4096.

Record Writer : Type := mkWriter {
  wr : Sink;               (* the wrapped io.Writer *)
  buf : list byte;         (* b.buf[0:b.n] *)
  err : option error       (* sticky error *)
}.

Definition NewWriter (w : Sink) : Writer := mkWriter w [] None.

Definition Available (b : Writer) : nat := (defaultBufSize - length (buf b))%nat.
Definition Buffered (b : Writer) : nat := length (buf b).

Definition Flush (b : Writer) : Writer * option error :=
  match err b with
  | Some e => (b, Some e)
  | None =>
    if (Buffered b =? 0)%nat then (b, None)
    else
      let '(s', n, e) := Sink_Write (wr b) (buf b) in
      let e := match e with
               | None => if (n <? Buffered b)%nat then Some io_ErrShortWrite else None
               | Some _ => e
               end in
      match e with
      | Some e' => (mkWriter s' (drop n (buf b)) (Some e'), Some e')
      | None => (mkWriter s' [] None, None)
      end
  end.

(** One turn of the loop [for len(p) > b.Available() && b.err == nil] of
    [Write]; the state is [(b, p, nn)]. *)
Definition Write_cond (st : Writer * list byte * nat) : bool :=
  let '(b, p, _) := st in
  (Available b <? length p)%nat && match err b with None => true | Some _ => false end.

Definition Write_turn (st : Writer * list byte * nat) : Writer * list byte * nat :=
  let '(b, p, nn) := st in
  if (Buffered b =? 0)%nat then
    (* large write, empty buffer: write directly from p *)
    let '(s', n, e) := Sink_Write (wr b) p in
    (mkWriter s' (buf b) e, drop n p, (nn + n)%nat)
  else
    let n := Nat.min (Available b) (length p) in
    let '(b', _) := Flush (mkWriter (wr b) (buf b ++ take n p) (err b)) in
    (b', drop n p, (nn + n)%nat).

(** [Write]: the loop runs at most twice, since a flush empties the buffer
    and a write larger than the empty buffer goes to the sink directly. *)
Definition Write (b : Writer) (p : list byte) : Writer * nat * option error :=
  let st0 := (b, p, 0%nat) in
  let st1 := if Write_cond st0 then Write_turn st0 else st0 in
  let st2 := if Write_cond st1 then Write_turn st1 else st1 in
  let '(b2, p2, nn) := st2 in
  match err b2 with
  | Some e => (b2, nn, Some e)
  | None => (mkWriter (wr b2) (buf b2 ++ p2) None, (nn + length p2)%nat, None)
  end.

Record Reader : Type := mkReader {
  rd : Source;             (* the wrapped io.Reader *)
  rbuf : list byte         (* b.buf[b.r:b.w], read ahead and not yet consumed *)
}.

Definition NewReader (r : Source) : Reader := mkReader r [].

(** [fill]: one [Read] of the wrapped reader into the free part of the buffer. *)
Definition fill (b : Reader) : Reader :=
  let free := (defaultBufSize - length (rbuf b))%nat in
  mkReader (drop free (rd b)) (rbuf b ++ take free (rd b)).

(** [io.ReadFull(b, p)] with [len(p) = k]: the bytes obtained, and
    [io.EOF] / [io.ErrUnexpectedEOF] when the source ends early. *)
Definition ReadFull (b : Reader) (k : nat) : Reader * list byte * option error :=
  let b1 := if (length (rbuf b) <? k)%nat then fill b else b in
  if (k <=? length (rbuf b1))%nat then
    (mkReader (rd b1) (drop k (rbuf b1)), take k (rbuf b1), None)
  else
    let all := rbuf b1 ++ rd b1 in
    if (k <=? length all)%nat then
      (mkReader (drop k all) [], take k all, None)
    else
      (mkReader [] [], all,
       Some (if (length all =? 0)%nat then io_EOF else io_ErrUnexpectedEOF)).

End bufio.

(** ** Package [buffer] (utils/buffer) *)
Module buffer.

(** Modelled from the spec: utils/buffer/buffer.go is not among the sources.
    [Buffer] is the owned byte buffer of [MarshalBinary] (§6: "allocates
    exactly BinarySize() bytes, then writes") and the source that
    [UnmarshalBinary] reads from. It never grows: a write that does not fit
    fails. [off] is the read position. *)
Record Buffer : Type := mkBuffer {
  bytes : list byte;
  size : nat;
  off : nat
}.

(** Modelled from the spec: [NewBufferSize(size)] allocates [size] bytes
    ([make([]byte, 0, size)] panics on a negative size). *)
Definition NewBufferSize (n : Z) : outcome Buffer :=
  if n <? 0 then Panic (panic_slice_bounds n) else Ret (mkBuffer [] (Z.to_nat n) 0).

(** Modelled from the spec: [NewBuffer(p)] is a buffer over the bytes [p]. *)
Definition NewBuffer (p : list byte) : Buffer := mkBuffer p (length p) 0.

Definition Bytes (b : Buffer) : list byte := bytes b.

(** Modelled from the spec: utils/buffer/writer.go is not among the sources.
    §4.2 asks of a sink [write(bytes)] and [flush()]; the two implementers
    are [Buffer] and [bufio.Writer]. The ghost field [wraps] counts the
    [bufio.Writer]s that were created to obtain this writer. *)
Inductive device : Type :=
| dev_Buffer (b : Buffer)
| dev_bufio (b : bufio.Writer).

Record Writer : Type := mkW {
  dev : device;
  wraps : nat
}.

Definition Write (w : Writer) (p : list byte) : Writer * nat * option error :=
  match dev w with
  | dev_Buffer b =>
    if (length (bytes b) + length p <=? size b)%nat
    then (mkW (dev_Buffer (mkBuffer (bytes b ++ p) (size b) (off b))) (wraps w), length p, None)
    else (w, 0%nat, Some (errors_New "buffer too small"))
  | dev_bufio b =>
    let '(b', n, e) := bufio.Write b p in (mkW (dev_bufio b') (wraps w), n, e)
  end.

Definition Flush (w : Writer) : Writer * option error :=
  match dev w with
  | dev_Buffer _ => (w, None)
  | dev_bufio b => let '(b', e) := bufio.Flush b in (mkW (dev_bufio b') (wraps w), e)
  end.

(** Modelled from the spec: utils/buffer/reader.go is not among the sources.
    §4.2 asks of a source [read(buffer) count, ok]; the two implementers
    are [Buffer] and [bufio.Reader]. *)
Inductive Reader : Type :=
| rd_Buffer (b : Buffer)
| rd_bufio (b : bufio.Reader).

(** Reads exactly [k] bytes, or what is left together with an end-of-file error. *)
Definition ReadFull (r : Reader) (k : nat) : Reader * list byte * option error :=
  match r with
  | rd_Buffer b =>
    let rest := drop (off b) (bytes b) in
    if (k <=? length rest)%nat
    then (rd_Buffer (mkBuffer (bytes b) (size b) (off b + k)), take k rest, None)
    else (rd_Buffer (mkBuffer (bytes b) (size b) (off b + length rest)), rest,
          Some (if (length rest =? 0)%nat then io_EOF else io_ErrUnexpectedEOF))
  | rd_bufio b =>
    let '(b', bs, e) := bufio.ReadFull b k in (rd_bufio b', bs, e)
  end.

(** Modelled from the spec: utils/buffer/utils.go is not among the sources.
    §6: "all integers fixed-width"; §4.3: an 8-byte length prefix, here
    little-endian. [WriteAsUint64[int](w, c)] writes [uint64(c)]. *)
Definition WriteAsUint64 (w : Writer) (c : Z) : Writer * Z * option error :=
  let '(w', n, e) := Write w (le_split 8 (uint64_of_int c)) in
  (w', Z.of_nat n, e).

(** Modelled from the spec: [ReadAsUint64[int](r, &c)] reads 8 bytes and
    stores [int(u)] in [c]; on a short read [c] keeps its value. The result
    is [(r', c, n, err)]. *)
Definition ReadAsUint64 (r : Reader) (c : Z) : Reader * Z * Z * option error :=
  let '(r', bs, e) := ReadFull r 8 in
  match e with
  | Some _ => (r', c, Z.of_nat (length bs), e)
  | None => (r', int_of_uint64 (le_combine bs), 8, None)
  end.

(** What has reached the destination, what is still buffered, and both. *)
Definition delivered (w : Writer) : list byte :=
  match dev w with
  | dev_Buffer b => bytes b
  | dev_bufio b => accepted (bufio.wr b)
  end.

Definition pending (w : Writer) : list byte :=
  match dev w with
  | dev_Buffer _ => []
  | dev_bufio b => bufio.buf b
  end.

Definition content (w : Writer) : list byte := delivered w ++ pending w.

(** What a reader has not handed out yet, and what is left in the source
    underneath. *)
Definition remaining (r : Reader) : list byte :=
  match r with
  | rd_Buffer b => drop (off b) (bytes b)
  | rd_bufio b => bufio.rbuf b ++ bufio.rd b
  end.

Definition source_left (r : Reader) : list byte :=
  match r with
  | rd_Buffer b => drop (off b) (bytes b)
  | rd_bufio b => bufio.rd b
  end.

(** An object writes itself: it hands [bs] to the writer and then reports
    the error of its own [e], if the writer did not fail first. *)
Definition emit (w : Writer) (out : list byte * option error) : Writer * Z * option error :=
  let '(w', n, e) := Write w out.1 in
  match e with
  | Some e => (w', Z.of_nat n, Some e)
  | None => (w', Z.of_nat n, out.2)
  end.

(** An object reads itself: [f] parses the bytes the reader holds and tells
    how many of them it took. *)
Definition parse {A : Type} (r : Reader) (f : list byte → A * nat * option error)
    : A * Reader * Z * option error :=
  let '(a, n, e) := f (remaining r) in
  ((a, (ReadFull r n).1.1), Z.of_nat n, e).

End buffer.

(** The type switches [switch w := w.(type) { case buffer.Writer: ... default: ... }]
    distinguish these two cases of an [io.Writer], and likewise of an
    [io.Reader]. *)
Inductive io_Writer : Type :=
| is_buffer_Writer (w : buffer.Writer)
| other_Writer (s : Sink).

Inductive io_Reader : Type :=
| is_buffer_Reader (r : buffer.Reader)
| other_Reader (s : Source).

(** [bufio.NewWriter(w)] and [bufio.NewReader(r)] as [buffer.Writer] / [buffer.Reader]. *)
Definition bufio_NewWriter (s : Sink) : buffer.Writer :=
  buffer.mkW (buffer.dev_bufio (bufio.NewWriter s)) 1.

Definition bufio_NewReader (s : Source) : buffer.Reader :=
  buffer.rd_bufio (bufio.NewReader s).

(** ** Element types of the containers *)

(** The method set of [T] (and of its pointer type); [None] where the
    interface assertion fails. The element types live outside this
    package: an [io.WriterTo] is given by the bytes it hands to the writer
    and the error of its own it stops with, an [io.ReaderFrom] by a parser
    of the bytes the reader holds, which returns the new receiver, the
    number of bytes taken and an error. *)
Record methods (T : Type) : Type := mkMethods {
  CopyNewer : option (T → T);                  (* CopyNew() *)
  Equatable : option (T → T → bool);           (* Equal(other) bool *)
  BinarySizer : option (T → Z);                (* BinarySize() int *)
  WriterTo : option (T → list byte * option error);
  ReaderFrom : option (T → list byte → T * nat * option error)
}.
Arguments mkMethods {T}.
Arguments CopyNewer {T} m.
Arguments Equatable {T} m.
Arguments BinarySizer {T} m.
Arguments WriterTo {T} m.
Arguments ReaderFrom {T} m.

(** An element type: its dynamic type, its zero value, its native
    fixed-width representation (read only when the type is a built-in
    numeric kind) and its method set. *)
Class Element (T : Type) : Type := {
  type_of : go_type;
  zero : T;
  native_width : nat;
  native_put : T → list byte;
  native_get : list byte → T;
  native_eq : T → T → bool;       (* Go's == *)
  method_set : methods T
}.

(** [case uint, uint64, uint32, uint16, uint8, int, int64, int32, int16, int8, float64, float32] *)
Definition is_primitive (t : go_type) : bool :=
  match t with
  | Tother _ => false
  | _ => true
  end.

(** ** [structs.Vector] (utils/structs/vector.go) *)
Module Vector.
Section Vector.
Context {T : Type} `{Element T}.

(** How one element is written, read, compared and sized: natively for a
    built-in numeric kind, through the capability interface otherwise. A
    built-in kind is read with a full read of its width. *)
Definition native_decode (t : T) (avail : list byte) : T * nat * option error :=
  if (native_width <=? length avail)%nat
  then (native_get (take native_width avail), native_width, None)
  else (t, length avail,
        Some (if (length avail =? 0)%nat then io_EOF else io_ErrUnexpectedEOF)).

Definition encoder : outcome (T → list byte * option error) :=
  if is_primitive type_of then Ret (fun t => (native_put t, None))
  else match WriterTo method_set with
       | Some f => Ret f
       | None => Panic (panic_not_comply (type_name type_of) "io.WriterTo")
       end.

Definition decoder : outcome (T → list byte → T * nat * option error) :=
  if is_primitive type_of then Ret native_decode
  else match ReaderFrom method_set with
       | Some f => Ret f
       | None => Panic (panic_not_comply (type_name type_of) "io.ReaderFrom")
       end.

Definition element_equal : outcome (T → T → bool) :=
  if is_primitive type_of then Ret native_eq
  else match Equatable method_set with
       | Some f => Ret f
       | None => Panic (panic_not_comply (type_name type_of) "Equatable")
       end.

Definition element_size : outcome (T → Z) :=
  if is_primitive type_of then Ret (fun _ => Z.of_nat native_width)
  else match BinarySizer method_set with
       | Some f => Ret f
       | None => Panic (panic_not_comply (type_name type_of) "BinarySizer")
       end.

(** Modelled from the spec: [Vector.BinarySize] is missing. §6:
    [[count: u64][element_0]...[element_{count-1}]]; §4.3: header only for
    the empty vector; §4.1: any other [T] is rejected at first use. *)
Definition BinarySize (v : slice T) : outcome Z :=
  size ← element_size;
  Ret (fold_left (fun acc t => add64 acc (size t)) (elems v) 8).

Fixpoint write_elements (put : T → list byte * option error)
    (l : list T) (w : buffer.Writer) (n : Z) : buffer.Writer * Z * option error :=
  match l with
  | [] => (w, n, None)
  | t :: l' =>
    let '(w', inc, e) := buffer.emit w (put t) in
    match e with
    | Some e => (w', add64 n inc, Some e)
    | None => write_elements put l' w' (add64 n inc)
    end
  end.

(** Modelled from the spec: [Vector.WriteTo] is missing. §4.3: "writes an
    8-byte ... length prefix (element count), then each element in order via
    its primitive encoding or its StreamCodec.write; returns total bytes
    written". A [Matrix] hands its rows a [buffer.Writer], which is "used
    directly" (§4.2). *)
Definition WriteTo (v : slice T) (w : buffer.Writer) : outcome (buffer.Writer * Z * option error) :=
  put ← encoder;
  let '(w1, inc, e) := buffer.WriteAsUint64 w (len v) in
  match e with
  | Some e => Ret (w1, inc, Some e)
  | None => Ret (write_elements put (elems v) w1 inc)
  end.

Fixpoint read_elements (get : T → list byte → T * nat * option error)
    (l : list T) (r : buffer.Reader) (n : Z) : list T * buffer.Reader * Z * option error :=
  match l with
  | [] => ([], r, n, None)
  | t :: l' =>
    let '(t', r', inc, e) := buffer.parse r (get t) in
    match e with
    | Some e => (t' :: l', r', add64 n inc, Some e)
    | None =>
      let '(l'', r'', n', e') := read_elements get l' r' (add64 n inc) in
      (t' :: l'', r'', n', e')
    end
  end.

(** Modelled from the spec: [Vector.ReadFrom] is missing. §4.3: "reads the
    length prefix, resizes the receiver to that length (reusing existing
    backing storage when capacity already suffices ...), then reads each
    element in order"; §7: a length prefix that cannot be a length is a
    format failure. *)
Definition ReadFrom (v : slice T) (r : buffer.Reader)
    : outcome (slice T * buffer.Reader * Z * option error) :=
  get ← decoder;
  let '(r1, size, n, e) := buffer.ReadAsUint64 r 0 in
  match e with
  | Some e => Ret (v, r1, n, Some e)
  | None =>
    if size <? 0 then Ret (v, r1, n, Some (errors_New "invalid length prefix"))
    else
      let v1 := if cap v <? size then make zero (Z.to_nat size) else v in
      let v2 := reslice v1 (Z.to_nat size) in
      let '(l, r2, n', e') := read_elements get (elems v2) r1 n in
      Ret (mkSlice l (spare v2), r2, n', e')
  end.

(** Modelled from the spec: [Vector.Equal] is missing. §4.1: "structural
    (not reference) equality"; §4.3: "primitive kinds copy/compare by value;
    structured kinds recurse through each element's own ... Equatable". *)
Definition Equal (v other : slice T) : outcome bool :=
  eq ← element_equal;
  Ret (bool_decide (length (elems v) = length (elems other))
       && forallb (fun p => eq p.1 p.2) (zip (elems v) (elems other))).

End Vector.
End Vector.

(** ** [structs.Matrix] (utils/structs/matrix.go) *)
Module Matrix.
Section Matrix.
Context {T : Type} `{Element T}.

(** [type Matrix[T any] [][]T] *)
Definition Matrix : Type := slice (slice T).

(** The matrix with the given rows, each row in an array of its own. *)
Definition of_rows (rows : list (list T)) : Matrix := of_list (map of_list rows).

(** [CopyNew], on a header [m] that points into a memory. The built-in
    numeric kinds: [mcpy[i] = make([]T, len(m[i]))], then
    [copy(mcpy[i], m[i])]. *)
Definition CopyNew_row_native (m mcpy : header) (mm : mem T) (i : nat) : outcome (mem T) :=
  mi ← index_outer mm m i;
  let '(mm1, row) := make_inner zero mm (hlen mi) in
  mm2 ← assign_outer mm1 mcpy i row;
  dst ← index_outer mm2 mcpy i;
  src ← index_outer mm2 m i;
  copy_inner mm2 dst src.

(** The other kinds: [mcpy[i][j]] is assigned the value that the
    [CopyNew] of [m[i][j]] points to. *)
Definition CopyNew_cell (cp : T → T) (m mcpy : header) (i : nat) (mm : mem T) (j : nat)
    : outcome (mem T) :=
  mi ← index_outer mm m i;
  x ← index_inner mm mi j;
  dst ← index_outer mm mcpy i;
  assign_inner mm dst j (cp x).

Definition CopyNew_row_struct (cp : T → T) (m mcpy : header) (mm : mem T) (i : nat)
    : outcome (mem T) :=
  mi ← index_outer mm m i;
  let '(mm1, row) := make_inner zero mm (hlen mi) in
  mm2 ← assign_outer mm1 mcpy i row;
  mi' ← index_outer mm2 m i;
  for_range (CopyNew_cell cp m mcpy i) (seq 0 (hlen mi')) mm2.

Definition CopyNew (mm : mem T) (m : header) : outcome (mem T * header) :=
  if is_primitive type_of then
    let '(mm1, mcpy) := make_outer mm (hlen m) in
    mm2 ← for_range (CopyNew_row_native m mcpy) (seq 0 (hlen m)) mm1;
    Ret (mm2, mcpy)
  else
    match CopyNewer method_set with
    | None => Panic (panic_not_comply (type_name type_of) "CopyNewer")
    | Some cp =>
      let '(mm1, mcpy) := make_outer mm (hlen m) in
      mm2 ← for_range (CopyNew_row_struct cp m mcpy) (seq 0 (hlen m)) mm1;
      Ret (mm2, mcpy)
    end.

(** [BinarySize]: [size += 8], then the [BinarySize] of each row, taken as a
    [Vector], is added. *)
Fixpoint BinarySize_rows (rows : list (slice T)) (size : Z) : outcome Z :=
  match rows with
  | [] => Ret size
  | v :: rest => s ← Vector.BinarySize v; BinarySize_rows rest (add64 size s)
  end.

Definition BinarySize (m : Matrix) : outcome Z :=
  BinarySize_rows (elems m) (add64 0 8).

(** [WriteTo], the [case buffer.Writer] branch: the loop over the rows and
    the final [return n, w.Flush()]. *)
Fixpoint WriteTo_rows (rows : list (slice T)) (w : buffer.Writer) (n : Z)
    : outcome (buffer.Writer * Z * option error) :=
  match rows with
  | [] => let '(w', e) := buffer.Flush w in Ret (w', n, e)
  | v :: rest =>
    '(w', inc, e) ← Vector.WriteTo v w;
    match e with
    | Some e =>
      Ret (w', add64 n inc,
           Some (fmt_Errorf_w ("structs.Vector[" ++ type_name type_of ++ "].WriteTo") e))
    | None => WriteTo_rows rest w' (add64 n inc)
    end
  end.

Definition WriteTo_buffer (m : Matrix) (w : buffer.Writer)
    : outcome (buffer.Writer * Z * option error) :=
  let '(w1, inc, e) := buffer.WriteAsUint64 w (len m) in
  match e with
  | Some e => Ret (w1, inc, Some (fmt_Errorf_w "buffer.WriteAsUint64[int]" e))
  | None => WriteTo_rows (elems m) w1 (add64 0 inc)
  end.

(** [WriteTo]: the type switch; [default: return m.WriteTo(bufio.NewWriter(w))].
    The result carries the final state of the [buffer.Writer] that was
    written to. *)
Definition WriteTo (m : Matrix) (w : io_Writer) : outcome (buffer.Writer * Z * option error) :=
  match w with
  | is_buffer_Writer w => WriteTo_buffer m w
  | other_Writer s => WriteTo_buffer m (bufio_NewWriter s)
  end.

(** [ReadFrom], the [case buffer.Reader] branch. The loop hands each slot of
    the receiver to [Vector.ReadFrom]; on an error the rows read so far stay
    in the receiver. *)
Fixpoint ReadFrom_rows (rows : list (slice T)) (r : buffer.Reader) (n : Z)
    : outcome (list (slice T) * buffer.Reader * Z * option error) :=
  match rows with
  | [] => Ret ([], r, n, None)
  | v :: rest =>
    '(v', r', inc, e) ← Vector.ReadFrom v r;
    match e with
    | Some e =>
      Ret (v' :: rest, r', add64 n inc,
           Some (fmt_Errorf_w ("structs.Vector[" ++ type_name type_of ++ "].ReadFrom") e))
    | None =>
      '(rest', r'', n', e') ← ReadFrom_rows rest r' (add64 n inc);
      Ret (v' :: rest', r'', n', e')
    end
  end.

Definition ReadFrom_buffer (m : Matrix) (r : buffer.Reader)
    : outcome (Matrix * buffer.Reader * Z * option error) :=
  let '(r1, size, n, e) := buffer.ReadAsUint64 r 0 in
  match e with
  | Some e => Ret (m, r1, n, Some (fmt_Errorf_w "buffer.ReadAsUint64[int]" e))
  | None =>
    (* if cap( *m ) < size: the receiver gets a fresh array of nil rows *)
    let m1 := if cap m <? size then make nil_slice (Z.to_nat size) else m in
    (* the receiver is resliced to [:size], which panics on a negative size *)
    if size <? 0 then Panic (panic_slice_bounds size)
    else
      let m2 := reslice m1 (Z.to_nat size) in
      '(rows, r2, n', e') ← ReadFrom_rows (elems m2) r1 n;
      Ret (mkSlice rows (spare m2), r2, n', e')
  end.

(** [ReadFrom]: the type switch; [default: return m.ReadFrom(bufio.NewReader(r))]. *)
Definition ReadFrom (m : Matrix) (r : io_Reader)
    : outcome (Matrix * buffer.Reader * Z * option error) :=
  match r with
  | is_buffer_Reader r => ReadFrom_buffer m r
  | other_Reader s => ReadFrom_buffer m (bufio_NewReader s)
  end.

(** [MarshalBinary]: [buf := buffer.NewBufferSize(m.BinarySize())], then
    [m.WriteTo(buf)], then [return buf.Bytes(), err]. *)
Definition MarshalBinary (m : Matrix) : outcome (list byte * option error) :=
  size ← BinarySize m;
  buf ← buffer.NewBufferSize size;
  '(w, _, e) ← WriteTo m (is_buffer_Writer (buffer.mkW (buffer.dev_Buffer buf) 0));
  Ret (buffer.delivered w, e).

(** [UnmarshalBinary]: [_, err = m.ReadFrom(buffer.NewBuffer(p))]. *)
Definition UnmarshalBinary (m : Matrix) (p : list byte) : outcome (Matrix * option error) :=
  '(m', _, _, e) ← ReadFrom m (is_buffer_Reader (buffer.rd_Buffer (buffer.NewBuffer p)));
  Ret (m', e).

(** [Equal]: the type switch that rejects a [T] that is neither a built-in
    numeric kind nor [Equatable], then the loop
    [isEqual = isEqual && Vector[T](m[i]).Equal(Vector[T](other[i]))] over
    [i := range m]. [&&] does not evaluate [other[i]] once [isEqual] is
    false. *)
Definition Equal_check : outcome unit :=
  if is_primitive type_of then Ret tt
  else match Equatable method_set with
       | Some _ => Ret tt
       | None => Panic (panic_not_comply (type_name type_of) "Equatable")
       end.

Fixpoint Equal_loop (rows : list (slice T)) (i : nat) (other : Matrix) (isEqual : bool)
    : outcome bool :=
  match rows with
  | [] => Ret isEqual
  | v :: rest =>
    if isEqual then
      match elems other !! i with
      | None => Panic (panic_index_out_of_range i (length (elems other)))
      | Some o => b ← Vector.Equal v o; Equal_loop rest (S i) other b
      end
    else Equal_loop rest (S i) other false
  end.

Definition Equal (m other : Matrix) : outcome bool :=
  _ ← Equal_check;
  Equal_loop (elems m) 0 other true.

End Matrix.
End Matrix.

(** ** The ring engine (package [ringqp]) *)

(** The operations of [ringqp.Poly] that [SecretKey] delegates to. The ring
    engine is not among the sources: its operations are parameters. The
    stream codec is given as for the elements of a container; [Poly_Read]
    encodes into a preallocated slice and returns its new content,
    [Poly_Write] decodes from a slice. *)
Class RingQP (Poly : Type) : Type := {
  Poly_Equal : Poly → Poly → bool;                (* cmp.Equal *)
  Poly_LevelQ : Poly → Z;                         (* p.Q.Level() *)
  Poly_LevelP : Poly → option Z;                  (* p.P.Level(); None when p.P == nil *)
  Poly_CopyNew : Poly → Poly;
  Poly_BinarySize : Poly → Z;
  Poly_encode : Poly → list byte * option error;
  Poly_decode : Poly → list byte → Poly * nat * option error;
  Poly_Read : Poly → list byte → list byte * Z * option error;
  Poly_Write : Poly → list byte → Poly * Z * option error
}.

Section RingQP.
Context {Poly : Type} `{RingQP Poly}.

(** Modelled from the spec: [ringqp.Poly.WriteTo] is missing. §4.2: a
    [buffer.Writer] "is used directly", any other sink "is wrapped once in
    a buffering decorator ... with a guaranteed flush before that call
    returns (success or error)". *)
Definition Poly_WriteTo (p : Poly) (w : io_Writer) : buffer.Writer * Z * option error :=
  let w0 := match w with
            | is_buffer_Writer w => w
            | other_Writer s => bufio_NewWriter s
            end in
  let '(w1, n, e) := buffer.emit w0 (Poly_encode p) in
  let '(w2, e2) := buffer.Flush w1 in
  (w2, n, match e with Some e => Some e | None => e2 end).

(** Modelled from the spec: [ringqp.Poly.ReadFrom] is missing; §4.2 as above. *)
Definition Poly_ReadFrom (p : Poly) (r : io_Reader) : Poly * buffer.Reader * Z * option error :=
  let r0 := match r with
            | is_buffer_Reader r => r
            | other_Reader s => bufio_NewReader s
            end in
  buffer.parse r0 (Poly_decode p).
End RingQP.

(** ** [rlwe.SecretKey] (rlwe/secretkey.go) *)
Module SecretKey.
Section SecretKey.
Context {Poly : Type} `{RingQP Poly}.

Record SecretKey : Type := mkSecretKey { Value : Poly }.

(** Every method has a pointer receiver: a pointer is [None] (nil) or the
    address of a [SecretKey] in the heap. *)
Definition deref (h : gmap addr SecretKey) (sk : option addr) : outcome SecretKey :=
  match sk with
  | None => Panic panic_nil_dereference
  | Some a =>
    match h !! a with
    | Some v => Ret v
    | None => Panic panic_nil_dereference
    end
  end.

Definition Equal (h : gmap addr SecretKey) (sk other : option addr) : outcome bool :=
  a ← deref h sk; b ← deref h other; Ret (Poly_Equal (Value a) (Value b)).

Definition LevelQ (h : gmap addr SecretKey) (sk : option addr) : outcome Z :=
  a ← deref h sk; Ret (Poly_LevelQ (Value a)).

Definition LevelP (h : gmap addr SecretKey) (sk : option addr) : outcome Z :=
  a ← deref h sk;
  Ret (match Poly_LevelP (Value a) with
       | Some l => l
       | None => -1
       end).

(** [if sk == nil { return nil }; return &SecretKey{ the value CopyNew points to }] *)
Definition CopyNew (h : gmap addr SecretKey) (sk : option addr)
    : outcome (gmap addr SecretKey * option addr) :=
  match sk with
  | None => Ret (h, None)
  | Some _ =>
    v ← deref h sk;
    let a := fresh (dom h) in
    Ret (<[a := mkSecretKey (Poly_CopyNew (Value v))]> h, Some a)
  end.

Definition BinarySize (h : gmap addr SecretKey) (sk : option addr) : outcome Z :=
  a ← deref h sk; Ret (Poly_BinarySize (Value a)).

(** [Read] encodes into a preallocated slice. *)
Definition Read (h : gmap addr SecretKey) (sk : option addr) (data : list byte)
    : outcome (list byte * Z * option error) :=
  a ← deref h sk; Ret (Poly_Read (Value a) data).

(** [data = make([]byte, sk.BinarySize())], then [sk.Read(data)];
    [return nil, err] on an error. *)
Definition MarshalBinary (h : gmap addr SecretKey) (sk : option addr)
    : outcome (list byte * option error) :=
  size ← BinarySize h sk;
  if size <? 0 then Panic (panic_slice_bounds size)
  else
    '(data, _, e) ← Read h sk (replicate (Z.to_nat size) x00);
    match e with
    | Some e => Ret ([], Some e)
    | None => Ret (data, None)
    end.

Definition WriteTo (h : gmap addr SecretKey) (sk : option addr) (w : io_Writer)
    : outcome (buffer.Writer * Z * option error) :=
  a ← deref h sk; Ret (Poly_WriteTo (Value a) w).

(** [Write] decodes a slice into the receiver. *)
Definition Write (h : gmap addr SecretKey) (sk : option addr) (data : list byte)
    : outcome (gmap addr SecretKey * Z * option error) :=
  match sk with
  | None => Panic panic_nil_dereference
  | Some a =>
    v ← deref h sk;
    let '(p, ptr, e) := Poly_Write (Value v) data in
    Ret (<[a := mkSecretKey p]> h, ptr, e)
  end.

Definition UnmarshalBinary (h : gmap addr SecretKey) (sk : option addr) (data : list byte)
    : outcome (gmap addr SecretKey * option error) :=
  '(h', _, e) ← Write h sk data; Ret (h', e).

Definition ReadFrom (h : gmap addr SecretKey) (sk : option addr) (r : io_Reader)
    : outcome (gmap addr SecretKey * buffer.Reader * Z * option error) :=
  match sk with
  | None => Panic panic_nil_dereference
  | Some a =>
    v ← deref h sk;
    let '(p, r', n, e) := Poly_ReadFrom (Value v) r in
    Ret (<[a := mkSecretKey p]> h, r', n, e)
  end.

End SecretKey.
End SecretKey.

(** ** [rlwe.GadgetCiphertext] (rlwe/gadgetciphertext.go) *)
Module GadgetCiphertext.

(** Modelled from the spec: rlwe.Parameters and the ring-element pairs of a
    gadget ciphertext are missing. §3: "a Matrix whose rows are digits and
    whose entries are ring-element pairs, one pair per (digit, modulus-chain
    level) combination"; the levels of a pair, the zero pair at given levels
    and the row lengths that the parameters imply are parameters. *)
Class Gadget (E : Type) (Parameters : Type) : Type := {
  pair_LevelQ : E → Z;
  pair_LevelP : E → Z;
  NewPair : Parameters → Z → Z → Z → E;             (* degree, levelQ, levelP *)
  digits : Parameters → Z → Z → Z → list nat        (* levelQ, levelP, base: the length of each row *)
}.

Section GadgetCiphertext.
Context {E : Type} `{Element E} {Parameters : Type} `{Gadget E Parameters}.

(** Modelled from the spec: §3, a gadget ciphertext is its [Matrix]. *)
Record GadgetCiphertext : Type := mkGadgetCiphertext {
  Value : Matrix.Matrix (T := E)
}.

(** Modelled from the spec: §4.4, "Construction always produces a
    zero-valued, level-consistent ... instance"; §3, "row count equals the
    digit count implied by the level of Q and the base". *)
Definition NewGadgetCiphertext (params : Parameters) (degree levelQ levelP base : Z)
    : GadgetCiphertext :=
  mkGadgetCiphertext
    (Matrix.of_rows (map (fun k => replicate k (NewPair params degree levelQ levelP))
                         (digits params levelQ levelP base))).

(** Modelled from the spec: §4.4, "LevelQ/LevelP are pure derived queries
    (read from the first owned ring element ...)". *)
Definition first_pair (ct : GadgetCiphertext) : outcome E :=
  match elems (Value ct) with
  | [] => Panic (panic_index_out_of_range 0 0)
  | row :: _ =>
    match elems row with
    | [] => Panic (panic_index_out_of_range 0 0)
    | e :: _ => Ret e
    end
  end.

Definition LevelQ (ct : GadgetCiphertext) : outcome Z :=
  e ← first_pair ct; Ret (pair_LevelQ e).

Definition LevelP (ct : GadgetCiphertext) : outcome Z :=
  e ← first_pair ct; Ret (pair_LevelP e).

(** The digit count: the number of rows. *)
Definition digit_count (ct : GadgetCiphertext) : Z := len (Value ct).

(** Modelled from the spec: §4.4, the codec, the size and the equality are
    "defined purely by delegating ... to the corresponding operation on each
    owned sub-object ..., with no additional framing"; §6, "the encoded
    Matrix of ring-element pairs". *)
Definition BinarySize (ct : GadgetCiphertext) : outcome Z :=
  Matrix.BinarySize (Value ct).

Definition WriteTo (ct : GadgetCiphertext) (w : io_Writer)
    : outcome (buffer.Writer * Z * option error) :=
  Matrix.WriteTo (Value ct) w.

Definition ReadFrom (ct : GadgetCiphertext) (r : io_Reader)
    : outcome (GadgetCiphertext * buffer.Reader * Z * option error) :=
  '(m, r', n, e) ← Matrix.ReadFrom (Value ct) r;
  Ret (mkGadgetCiphertext m, r', n, e).

Definition Equal (ct other : GadgetCiphertext) : outcome bool :=
  Matrix.Equal (Value ct) (Value other).

End GadgetCiphertext.
End GadgetCiphertext.

(** ** [rgsw.Ciphertext] (core/rgsw/elements.go) *)
Module rgsw.
Section rgsw.
Context {E : Type} `{Element E} {Parameters : Type} `{GadgetCiphertext.Gadget E Parameters}.

(** [Value [2]rlwe.GadgetCiphertext] *)
Record Ciphertext : Type := mkCiphertext {
  Value : GadgetCiphertext.GadgetCiphertext (E := E) * GadgetCiphertext.GadgetCiphertext (E := E)
}.

Definition LevelQ (ct : Ciphertext) : outcome Z :=
  GadgetCiphertext.LevelQ (Value ct).1.

Definition LevelP (ct : Ciphertext) : outcome Z :=
  GadgetCiphertext.LevelP (Value ct).1.

Definition NewCiphertext (params : Parameters) (levelQ levelP BaseTwoDecomposition : Z)
    : Ciphertext :=
  mkCiphertext
    (GadgetCiphertext.NewGadgetCiphertext params 1 levelQ levelP BaseTwoDecomposition,
     GadgetCiphertext.NewGadgetCiphertext params 1 levelQ levelP BaseTwoDecomposition).

Definition BinarySize (ct : Ciphertext) : outcome Z :=
  a ← GadgetCiphertext.BinarySize (Value ct).1;
  b ← GadgetCiphertext.BinarySize (Value ct).2;
  Ret (add64 a b).

(** [WriteTo], the [case buffer.Writer] branch. *)
Definition WriteTo_buffer (ct : Ciphertext) (w : buffer.Writer)
    : outcome (buffer.Writer * Z * option error) :=
  '(w1, n, e) ← GadgetCiphertext.WriteTo (Value ct).1 (is_buffer_Writer w);
  match e with
  | Some e => Ret (w1, n, Some e)
  | None =>
    '(w2, inc, e2) ← GadgetCiphertext.WriteTo (Value ct).2 (is_buffer_Writer w1);
    Ret (w2, add64 n inc, e2)
  end.

(** [WriteTo]: [default: return ct.WriteTo(bufio.NewWriter(w))]. *)
Definition WriteTo (ct : Ciphertext) (w : io_Writer) : outcome (buffer.Writer * Z * option error) :=
  match w with
  | is_buffer_Writer w => WriteTo_buffer ct w
  | other_Writer s => WriteTo_buffer ct (bufio_NewWriter s)
  end.

(** [ReadFrom], the [case buffer.Reader] branch. *)
Definition ReadFrom_buffer (ct : Ciphertext) (r : buffer.Reader)
    : outcome (Ciphertext * buffer.Reader * Z * option error) :=
  '(v0, r1, n, e) ← GadgetCiphertext.ReadFrom (Value ct).1 (is_buffer_Reader r);
  match e with
  | Some e => Ret (mkCiphertext (v0, (Value ct).2), r1, n, Some e)
  | None =>
    '(v1, r2, inc, e2) ← GadgetCiphertext.ReadFrom (Value ct).2 (is_buffer_Reader r1);
    Ret (mkCiphertext (v0, v1), r2, add64 n inc, e2)
  end.

(** [ReadFrom]: [default: return ct.ReadFrom(bufio.NewReader(r))]. *)
Definition ReadFrom (ct : Ciphertext) (r : io_Reader)
    : outcome (Ciphertext * buffer.Reader * Z * option error) :=
  match r with
  | is_buffer_Reader r => ReadFrom_buffer ct r
  | other_Reader s => ReadFrom_buffer ct (bufio_NewReader s)
  end.

Definition MarshalBinary (ct : Ciphertext) : outcome (list byte * option error) :=
  size ← BinarySize ct;
  buf ← buffer.NewBufferSize size;
  '(w, _, e) ← WriteTo ct (is_buffer_Writer (buffer.mkW (buffer.dev_Buffer buf) 0));
  Ret (buffer.delivered w, e).

Definition UnmarshalBinary (ct : Ciphertext) (p : list byte) : outcome (Ciphertext * option error) :=
  '(ct', _, _, e) ← ReadFrom ct (is_buffer_Reader (buffer.rd_Buffer (buffer.NewBuffer p)));
  Ret (ct', e).

End rgsw.
End rgsw.

(** ** The wire format and the contract of an element type *)

(** The wire format as §6 of the specification words it:
    [[count: u64][element_0]...[element_{count-1}]] for a vector and
    [[rowCount: u64][Vector row_0]...[Vector row_{rowCount-1}]] for a
    matrix, given the encoding [enc] of an element. *)
Definition wire_Vector {T : Type} (enc : T → list byte) (v : slice T) : list byte :=
  le_split 8 (len v) ++ concat (map enc (elems v)).

Definition wire_Matrix {T : Type} (enc : T → list byte) (m : slice (slice T)) : list byte :=
  le_split 8 (len m) ++ concat (map (wire_Vector enc) (elems m)).

(** A slice is valid when its capacity is an [int], a matrix when it and
    its rows are. *)
Definition valid_slice {A : Type} (s : slice A) : Prop := cap s < 2 ^ 63.

Definition valid_Matrix {T : Type} (m : slice (slice T)) : Prop :=
  valid_slice m ∧ Forall valid_slice (elems m).

(** What §4.1 asks of an element type whose encoding is [enc]: it is
    supported; it writes [enc t] and fails only when the writer does; it
    reads [enc t] back to an equal element whatever the receiver held and
    whatever follows in the stream; it reports an error on a truncated
    encoding; [BinarySize] is the length of the encoding. *)
Class Lawful {T : Type} `{Element T} (enc : T → list byte) : Prop := {
  lawful_encoder :
    ∃ put, Vector.encoder = Ret put ∧ ∀ t, put t = (enc t, None);
  lawful_equal :
    ∃ eq, Vector.element_equal = Ret eq;
  lawful_decoder :
    ∃ get, Vector.decoder = Ret get ∧
      (∀ old t rest, ∃ t',
          get old (enc t ++ rest) = (t', length (enc t), None) ∧
          ∀ eq, Vector.element_equal = Ret eq → eq t' t = true ∧ eq t t' = true) ∧
      (∀ old t k, (k < length (enc t))%nat →
          ∃ t' n e, get old (take k (enc t)) = (t', n, Some e));
  lawful_size :
    ∃ size, Vector.element_size = Ret size ∧ ∀ t, size t = Z.of_nat (length (enc t))
}.

(** ** Notions used in the statements *)

(** The bytes an [io.Writer] holds before a call, the bytes an [io.Reader]
    holds, and the wrappers an [io.Writer] starts with. *)
Definition io_content (w : io_Writer) : list byte :=
  match w with
  | is_buffer_Writer w => buffer.content w
  | other_Writer s => accepted s
  end.

Definition io_remaining (r : io_Reader) : list byte :=
  match r with
  | is_buffer_Reader r => buffer.remaining r
  | other_Reader s => s
  end.

Definition io_wraps (w : io_Writer) : nat :=
  match w with
  | is_buffer_Writer w => buffer.wraps w
  | other_Writer _ => 0%nat
  end.

(** The writer [buffer.NewBufferSize(k)] is: an empty [Buffer] of [k] bytes. *)
Definition Buffer_of_size (k : nat) : io_Writer :=
  is_buffer_Writer (buffer.mkW (buffer.dev_Buffer (buffer.mkBuffer [] k 0)) 0).

(** A [Buffer] with room for [k] more bytes. *)
Definition has_room (w : buffer.Writer) (k : nat) : Prop :=
  match buffer.dev w with
  | buffer.dev_Buffer b => (length (buffer.bytes b) + k ≤ buffer.size b)%nat
  | buffer.dev_bufio _ => False
  end.

(** What a bounded sink can hold at most: what it took already plus the
    room it has left; and the same for a [bufio.Writer] over it. *)
Definition sink_budget (s : Sink) : option nat :=
  match room s with
  | Some k => Some (length (accepted s) + k)%nat
  | None => None
  end.

Definition budget (w : buffer.Writer) : option nat :=
  match buffer.dev w with
  | buffer.dev_Buffer _ => None
  | buffer.dev_bufio b => sink_budget (bufio.wr b)
  end.

(** Two memories that hold the same arrays at the addresses in [D]. *)
Definition agree_on {T : Type} (D : gset addr) (mm mm' : mem T) : Prop :=
  ∀ a, a ∈ D → outer mm' !! a = outer mm !! a ∧ inner mm' !! a = inner mm !! a.

(** What one turn of the loop of [CopyNew] leaves behind: row [i] of the
    copy is a fresh array that holds the copies of the elements [l]. *)
Definition row_copied {T : Type} (cp : T → T) (mm : mem T) (a0 : addr) (arr : list header)
    (i : nat) (mi : header) (l : list T) : mem T :=
  let b := fresh (mem_dom mm) in
  mkMem (<[a0 := <[i := mkHeader (Some b) 0 (hlen mi) (hlen mi)]> arr]> (outer mm))
        (<[b := map cp l]> (inner mm)).

(** The invariant of the loop of [CopyNew] over the rows: the memory still
    holds what it held at the addresses it had, and the first [i] rows of
    the copy are arrays of their own with the copies of the elements. *)
Definition copy_invariant {T : Type} (cp : T → T) (mm0 : mem T) (n : nat)
    (xs : list (list T)) (i : nat) (mm : mem T) : Prop :=
  agree_on (mem_dom mm0) mm0 mm ∧
  ∃ ys, length ys = i ∧
        outer mm !! fresh (mem_dom mm0) = Some (ys ++ replicate (n - i) nil_header) ∧
        Forall2 (fun h l => cells_of mm h = Some (map cp l) ∧
                            ∃ b, base h = Some b ∧ b ∉ mem_dom mm0) ys (take i xs).

(** How [CopyNew] copies one element of a supported type: by value for a
    built-in numeric kind, with its [CopyNew] otherwise. *)
Definition element_copier {T : Type} `{Element T} : option (T → T) :=
  if is_primitive type_of then Some (fun x => x) else CopyNewer method_set.

(** An element type that [CopyNew], and one that [Equal], accepts: a
    built-in numeric kind, or a type with the capability. *)
Definition supported_by_CopyNew (T : Type) `{Element T} : Prop :=
  is_primitive type_of = true ∨ is_Some (CopyNewer method_set).

Definition supported_by_Equal (T : Type) `{Element T} : Prop :=
  is_primitive type_of = true ∨ is_Some (Equatable method_set).

(** The panic with which a container rejects an element type. *)
Definition is_rejection (p : panic) : bool :=
  match p with
  | panic_not_comply _ _ => true
  | _ => false
  end.

(** The length of the encodings of some elements, and of some rows. *)
Definition total_length {T : Type} (enc : T → list byte) (l : list T) : nat :=
  length (concat (map enc l)).

Definition rows_length {T : Type} (enc : T → list byte) (rows : list (slice T)) : nat :=
  length (concat (map (wire_Vector enc) rows)).

(** Two elements, and two rows, that [Equal] finds equal in both directions. *)
Definition equal_elements {T : Type} `{Element T} (a b : T) : Prop :=
  ∀ eq, Vector.element_equal = Ret eq → eq a b = true ∧ eq b a = true.

Definition equal_rows {T : Type} `{Element T} (v o : slice T) : Prop :=
  Forall2 equal_elements (elems v) (elems o).

(** The contract of the ring engine whose polynomials are encoded as
    [penc]: the stream codec writes and reads [penc p]; the slice codec
    ([Read], [Write]) agrees with it on well-formed data; [BinarySize] is
    the length of the encoding; a copy is equal to its source. *)
Class LawfulRing {Poly : Type} `{RingQP Poly} (penc : Poly → list byte) : Prop := {
  ring_encode : ∀ p, Poly_encode p = (penc p, None);
  ring_decode : ∀ old p rest, ∃ p',
      Poly_decode old (penc p ++ rest) = (p', length (penc p), None) ∧
      Poly_Equal p' p = true ∧ Poly_Equal p p' = true;
  ring_size : ∀ p, Poly_BinarySize p = Z.of_nat (length (penc p));
  ring_Read : ∀ p data,
      length data = length (penc p) →
      Poly_Read p data = (penc p, Z.of_nat (length (penc p)), None);
  ring_Write : ∀ old p,
      Poly_Write old (penc p) =
        ((Poly_decode old (penc p)).1.1, Z.of_nat (Poly_decode old (penc p)).1.2,
         (Poly_decode old (penc p)).2);
  ring_CopyNew : ∀ p, Poly_Equal (Poly_CopyNew p) p = true
}.

(** §6: an RGSW ciphertext is [[GadgetCiphertext half_0][GadgetCiphertext half_1]],
    "concatenated with no intervening header", and a gadget ciphertext is
    its encoded matrix. *)
Definition wire_Ciphertext {E : Type} (enc : E → list byte) (ct : rgsw.Ciphertext (E := E))
    : list byte :=
  wire_Matrix enc (GadgetCiphertext.Value (rgsw.Value ct).1) ++
  wire_Matrix enc (GadgetCiphertext.Value (rgsw.Value ct).2).

(** The row at which [Matrix.ReadFrom] fails: the index of the first row
    whose [Vector.ReadFrom] returns an error. *)
Fixpoint failing_row {T : Type} `{Element T} (rows : list (slice T)) (r : buffer.Reader)
    (i : nat) : option nat :=
  match rows with
  | [] => None
  | v :: rest =>
    match Vector.ReadFrom v r with
    | Ret (_, r', _, None) => failing_row rest r' (S i)
    | Ret (_, _, _, Some _) => Some i
    | Panic _ => None
    end
  end.

Definition first_failing_row {T : Type} `{Element T} (m : slice (slice T)) (r : buffer.Reader)
    : option nat :=
  let '(r1, size, _, e) := buffer.ReadAsUint64 r 0 in
  match e with
  | Some _ => None
  | None =>
    failing_row
      (elems (reslice (if cap m <? size then make nil_slice (Z.to_nat size) else m)
                      (Z.to_nat size)))
      r1 0
  end.

(** The encoding of the matrix a header denotes in a memory. *)
Definition encoding {T : Type} `{Element T} (mm : mem T) (x : header)
    : option (outcome (list byte * option error)) :=
  match load mm x with
  | Some xs => Some (Matrix.MarshalBinary (Matrix.of_rows xs))
  | None => None
  end.

(** ** The properties the claims state *)

Section MatrixProperties.
Context {T : Type} `{Element T}.

(** Round trip: there are bytes [bs] such that [WriteTo] succeeds on a
    buffer of that size, every successful [WriteTo] has delivered [bs], and
    [ReadFrom] reads [bs] back, into any receiver and from any reader that
    holds exactly these bytes, to a matrix that [Equal] finds equal. *)
Definition Matrix_roundtrip (m : slice (slice T)) : Prop :=
  ∃ bs,
    (∃ w' n, Matrix.WriteTo m (Buffer_of_size (length bs)) = Ret (w', n, None)) ∧
    (∀ (w : io_Writer) w' n,
        Matrix.WriteTo m w = Ret (w', n, None) →
        buffer.delivered w' = io_content w ++ bs) ∧
    (∀ (r : io_Reader) (m0 : slice (slice T)),
        io_remaining r = bs →
        ∃ m' r' n',
          Matrix.ReadFrom m0 r = Ret (m', r', n', None) ∧
          Matrix.Equal m' m = Ret true ∧ Matrix.Equal m m' = Ret true).

(** Size exactness: [BinarySize] is the header plus the sizes of the rows;
    a successful [WriteTo] reports [BinarySize] and has delivered that many
    bytes; a successful [ReadFrom] of an encoding of [m] reports
    [BinarySize] and leaves in its reader exactly what followed the
    encoding. *)
Definition Matrix_size_exact (enc : T → list byte) (m : slice (slice T)) : Prop :=
  (∃ sizes, Forall2 (fun v s => Vector.BinarySize v = Ret s) (elems m) sizes ∧
            Matrix.BinarySize m = Ret (fold_left add64 sizes (add64 0 8))) ∧
  (∀ (w : io_Writer) w' n,
      Matrix.WriteTo m w = Ret (w', n, None) →
      Matrix.BinarySize m = Ret n ∧
      ∃ bs, buffer.delivered w' = io_content w ++ bs ∧ buffer.pending w' = [] ∧
            n = wrap64 (Z.of_nat (length bs))) ∧
  (∀ (r : io_Reader) (m0 : slice (slice T)) rest,
      io_remaining r = wire_Matrix enc m ++ rest →
      ∃ m' r' n,
        Matrix.ReadFrom m0 r = Ret (m', r', n, None) ∧
        Matrix.BinarySize m = Ret n ∧
        n = wrap64 (Z.of_nat (length (wire_Matrix enc m))) ∧
        buffer.remaining r' = rest).

(** A writer that is not a [buffer.Writer] is wrapped once, a
    [buffer.Writer] is not wrapped; after a success nothing is left in the
    buffer: everything the writer held and the bytes [bs] of the object
    have been delivered. *)
Definition wrapped_once_flushed_on_success
    (write : io_Writer → outcome (buffer.Writer * Z * option error)) (bs : list byte) : Prop :=
  ∀ w, ∃ w' n e,
    write w = Ret (w', n, e) ∧
    buffer.wraps w' = match w with
                      | is_buffer_Writer w0 => buffer.wraps w0
                      | other_Writer _ => 1%nat
                      end ∧
    (e = None → buffer.pending w' = [] ∧ buffer.delivered w' = io_content w ++ bs).

(** Errors are returned, wrapped with the name of the component that
    failed: a truncated encoding makes [ReadFrom] return the wrapped error
    of the header or of a row; a sink with less room than the encoding
    makes [WriteTo] return the wrapped error of the header or of a row, or
    the error of the final [Flush]. *)
Definition Matrix_errors_propagate (enc : T → list byte) (m : slice (slice T)) : Prop :=
  (∀ (r : io_Reader) (m0 : slice (slice T)) k,
      io_remaining r = take k (wire_Matrix enc m) →
      (k < length (wire_Matrix enc m))%nat →
      ∃ m' r' n e cause,
        Matrix.ReadFrom m0 r = Ret (m', r', n, Some e) ∧
        (e = fmt_Errorf_w "buffer.ReadAsUint64[int]" cause ∨
         e = fmt_Errorf_w ("structs.Vector[" ++ type_name type_of ++ "].ReadFrom") cause)) ∧
  (∀ acc k,
      (k < length (wire_Matrix enc m))%nat →
      ∃ w' n e,
        Matrix.WriteTo m (other_Writer (mkSink acc (Some k))) = Ret (w', n, Some e) ∧
        ((∃ cause, e = fmt_Errorf_w "buffer.WriteAsUint64[int]" cause) ∨
         (∃ cause, e = fmt_Errorf_w ("structs.Vector[" ++ type_name type_of ++ "].WriteTo") cause) ∨
         (∃ w0, buffer.Flush w0 = (w', Some e)))).

(** The binary wrappers agree with the streaming codec: [MarshalBinary]
    returns a buffer of [BinarySize] bytes that holds what any successful
    [WriteTo] delivers; [UnmarshalBinary] returns what [ReadFrom] returns on
    any reader that holds the same bytes. *)
Definition Matrix_wrappers_agree (m : slice (slice T)) : Prop :=
  (∃ bs, Matrix.MarshalBinary m = Ret (bs, None) ∧
         Matrix.BinarySize m = Ret (Z.of_nat (length bs)) ∧
         ∀ (w : io_Writer) w' n,
           Matrix.WriteTo m w = Ret (w', n, None) →
           buffer.delivered w' = io_content w ++ bs) ∧
  (∀ (p : list byte) (r : io_Reader) (m0 : slice (slice T)),
      io_remaining r = p →
      match Matrix.ReadFrom m0 r with
      | Ret (m', _, _, e) => Matrix.UnmarshalBinary m0 p = Ret (m', e)
      | Panic q => Matrix.UnmarshalBinary m0 p = Panic q
      end).

(** Copy independence, for a header [x] that denotes the matrix [xs]: the
    copy denotes a matrix equal to the source, the arrays it owns are none
    of the arrays the memory held before, and a memory that differs from
    the one after the copy only at arrays the copy owns holds the same
    source, with the same encoding. *)
Definition Matrix_copy_independent (mm : mem T) (x : header) (xs : list (list T)) : Prop :=
  ∃ mm' y ys,
    Matrix.CopyNew mm x = Ret (mm', y) ∧
    load mm' y = Some ys ∧
    Matrix.Equal (Matrix.of_rows ys) (Matrix.of_rows xs) = Ret true ∧
    footprint mm' y ## mem_dom mm ∧
    ∀ mm'',
      (∀ a, a ∉ footprint mm' y →
            outer mm'' !! a = outer mm' !! a ∧ inner mm'' !! a = inner mm' !! a) →
      load mm'' x = Some xs ∧ encoding mm'' x = encoding mm x.

End MatrixProperties.

Section SecretKeyProperties.
Context {Poly : Type} `{RingQP Poly}.

(** Round trip of the key at [sk], read back into any other key of the heap. *)
Definition SecretKey_roundtrip (h : gmap addr SecretKey.SecretKey) (sk : addr) : Prop :=
  ∃ bs,
    (∃ w' n, SecretKey.WriteTo h (Some sk) (Buffer_of_size (length bs)) = Ret (w', n, None)) ∧
    (∀ (w : io_Writer) w' n,
        SecretKey.WriteTo h (Some sk) w = Ret (w', n, None) →
        buffer.delivered w' = io_content w ++ bs) ∧
    (∀ (r : io_Reader) (other : addr),
        io_remaining r = bs → other ≠ sk → is_Some (h !! other) →
        ∃ h' r' n',
          SecretKey.ReadFrom h (Some other) r = Ret (h', r', n', None) ∧
          SecretKey.Equal h' (Some other) (Some sk) = Ret true ∧
          SecretKey.Equal h' (Some sk) (Some other) = Ret true).

Definition SecretKey_wrappers_agree (h : gmap addr SecretKey.SecretKey) (sk : addr) : Prop :=
  (∃ bs, SecretKey.MarshalBinary h (Some sk) = Ret (bs, None) ∧
         SecretKey.BinarySize h (Some sk) = Ret (Z.of_nat (length bs)) ∧
         (∀ (w : io_Writer) w' n,
             SecretKey.WriteTo h (Some sk) w = Ret (w', n, None) →
             buffer.delivered w' = io_content w ++ bs) ∧
         (∀ (r : io_Reader) (other : addr),
             io_remaining r = bs → is_Some (h !! other) →
             ∃ h' r' n,
               SecretKey.ReadFrom h (Some other) r = Ret (h', r', n, None) ∧
               SecretKey.UnmarshalBinary h (Some other) bs = Ret (h', None))).

Definition SecretKey_copy_independent (h : gmap addr SecretKey.SecretKey) (x : addr) : Prop :=
  ∃ h' y,
    SecretKey.CopyNew h (Some x) = Ret (h', Some y) ∧
    y ≠ x ∧ h !! y = None ∧
    SecretKey.Equal h' (Some y) (Some x) = Ret true ∧
    ∀ v w,
      SecretKey.WriteTo (<[y := v]> h') (Some x) w = SecretKey.WriteTo h (Some x) w ∧
      SecretKey.MarshalBinary (<[y := v]> h') (Some x) = SecretKey.MarshalBinary h (Some x).

End SecretKeyProperties.

Section CiphertextProperties.
Context {E : Type} `{Element E}.

(** A ciphertext whose two matrices are valid. *)
Definition valid_Ciphertext (ct : rgsw.Ciphertext (E := E)) : Prop :=
  valid_Matrix (GadgetCiphertext.Value (rgsw.Value ct).1) ∧
  valid_Matrix (GadgetCiphertext.Value (rgsw.Value ct).2).

(** Round trip of a ciphertext; two ciphertexts are equal when their halves are. *)
Definition Ciphertext_roundtrip (ct : rgsw.Ciphertext (E := E)) : Prop :=
  ∃ bs,
    (∃ w' n, rgsw.WriteTo ct (Buffer_of_size (length bs)) = Ret (w', n, None)) ∧
    (∀ (w : io_Writer) w' n,
        rgsw.WriteTo ct w = Ret (w', n, None) →
        buffer.delivered w' = io_content w ++ bs) ∧
    (∀ (r : io_Reader) (ct0 : rgsw.Ciphertext (E := E)),
        io_remaining r = bs →
        ∃ ct' r' n',
          rgsw.ReadFrom ct0 r = Ret (ct', r', n', None) ∧
          GadgetCiphertext.Equal (rgsw.Value ct').1 (rgsw.Value ct).1 = Ret true ∧
          GadgetCiphertext.Equal (rgsw.Value ct').2 (rgsw.Value ct).2 = Ret true).

Definition Ciphertext_wrappers_agree (ct : rgsw.Ciphertext (E := E)) : Prop :=
  (∃ bs, rgsw.MarshalBinary ct = Ret (bs, None) ∧
         rgsw.BinarySize ct = Ret (Z.of_nat (length bs)) ∧
         ∀ (w : io_Writer) w' n,
           rgsw.WriteTo ct w = Ret (w', n, None) →
           buffer.delivered w' = io_content w ++ bs) ∧
  (∀ (p : list byte) (r : io_Reader) (ct0 : rgsw.Ciphertext (E := E)),
      io_remaining r = p →
      match rgsw.ReadFrom ct0 r with
      | Ret (ct', _, _, e) => rgsw.UnmarshalBinary ct0 p = Ret (ct', e)
      | Panic q => rgsw.UnmarshalBinary ct0 p = Panic q
      end).

End CiphertextProperties.

(** ** Some element types *)

Definition no_methods {T : Type} : methods T := mkMethods None None None None None.

(** [uint8]: one byte, compared with [==]. *)
#[global] Instance uint8_Element : Element byte := {
  type_of := Tuint8;
  zero := x00;
  native_width := 1;
  native_put b := [b];
  native_get bs := match bs with b :: _ => b | [] => x00 end;
  native_eq := Byte.eqb;
  method_set := no_methods
}.

Definition uint8_enc (b : byte) : list byte := [b].

(** A structured element type with the four capabilities: one coefficient,
    encoded as one byte. *)
Record Coeff : Type := mkCoeff { coeff : byte }.

Definition Coeff_enc (c : Coeff) : list byte := [coeff c].

#[global] Instance Coeff_Element : Element Coeff := {
  type_of := Tother "Coeff";
  zero := mkCoeff x00;
  native_width := 0;
  native_put _ := [];
  native_get _ := mkCoeff x00;
  native_eq _ _ := false;
  method_set :=
    mkMethods
      (Some (fun c => mkCoeff (coeff c)))
      (Some (fun a b => Byte.eqb (coeff a) (coeff b)))
      (Some (fun _ => 1))
      (Some (fun c => ([coeff c], None)))
      (Some (fun old avail =>
               match avail with
               | b :: _ => (mkCoeff b, 1%nat, None)
               | [] => (old, 0%nat, Some io_EOF)
               end))
}.

(** A structured element type whose [WriteTo] refuses to write. *)
Inductive Sealed : Type := sealed.

#[global] Instance Sealed_Element : Element Sealed := {
  type_of := Tother "Sealed";
  zero := sealed;
  native_width := 0;
  native_put _ := [];
  native_get _ := sealed;
  native_eq _ _ := false;
  method_set :=
    mkMethods
      (Some (fun c => c))
      (Some (fun _ _ => true))
      (Some (fun _ => 0))
      (Some (fun _ => ([], Some (errors_New "sealed"))))
      (Some (fun old _ => (old, 0%nat, None)))
}.

(** A type that is neither a built-in numeric kind nor implements any of
    the capability interfaces. *)
Inductive Opaque : Type := opaque.

#[global] Instance Opaque_Element : Element Opaque := {
  type_of := Tother "Opaque";
  zero := opaque;
  native_width := 0;
  native_put _ := [];
  native_get _ := opaque;
  native_eq _ _ := false;
  method_set := no_methods
}.

(** A ring engine with polynomials of one coefficient. *)
#[global] Instance byte_RingQP : RingQP byte := {
  Poly_Equal := Byte.eqb;
  Poly_LevelQ _ := 0;
  Poly_LevelP _ := None;
  Poly_CopyNew b := b;
  Poly_BinarySize _ := 1;
  Poly_encode b := ([b], None);
  Poly_decode old avail :=
    match avail with
    | b :: _ => (b, 1%nat, None)
    | [] => (old, 0%nat, Some io_EOF)
    end;
  Poly_Read b data :=
    match data with
    | _ :: rest => (b :: rest, 1, None)
    | [] => ([], 0, Some (errors_New "data too small"))
    end;
  Poly_Write old data :=
    match data with
    | b :: _ => (b, 1, None)
    | [] => (old, 0, Some (errors_New "data too small"))
    end
}.

(** The encoding of a polynomial of [byte_RingQP]. *)
Definition byte_penc (b : byte) : list byte := [b].

(** ** Some values *)

(** The memory that holds nothing. *)
Definition empty_mem {T : Type} : mem T := mkMem ∅ ∅.

(** A matrix of [uint8] with an empty row, and the empty matrix. *)
Definition example_matrix : Matrix.Matrix (T := byte) :=
  Matrix.of_rows [[x01; x02]; []; [x03]].

Definition empty_matrix : Matrix.Matrix (T := byte) := Matrix.of_rows [].

(** A heap with two secret keys. *)
Definition example_heap : gmap addr (SecretKey.SecretKey (Poly := byte)) :=
  {[ 1%positive := SecretKey.mkSecretKey x2a; 2%positive := SecretKey.mkSecretKey x00 ]}.

(** A ciphertext of two digits with one coefficient pair each. *)
Definition example_ciphertext : rgsw.Ciphertext (E := Coeff) :=
  rgsw.mkCiphertext
    (GadgetCiphertext.mkGadgetCiphertext (Matrix.of_rows [[mkCoeff x01]; [mkCoeff x02]]),
     GadgetCiphertext.mkGadgetCiphertext (Matrix.of_rows [[mkCoeff x03]; [mkCoeff x04]])).

(** A memory that holds the matrix [[1, 2], [3]]: the array of its row
    headers at address 1, the arrays of its rows at 2 and 3. *)
Definition example_mem : mem byte :=
  mkMem {[ 1%positive := [mkHeader (Some 2%positive) 0 2 2; mkHeader (Some 3%positive) 0 1 1] ]}
        {[ 2%positive := [x01; x02]; 3%positive := [x03] ]}.

Definition example_header : header := mkHeader (Some 1%positive) 0 2 2.

(** A matrix whose only element refuses to be written. *)
Definition sealed_matrix : Matrix.Matrix (T := Sealed) := Matrix.of_rows [[sealed]].

(** Two streams that announce two rows: the first ends before row 0, the
    second holds an empty row 0 and ends before row 1. *)
Definition truncated_at_row_0 : list byte := le_split 8 2.

Definition truncated_at_row_1 : list byte := le_split 8 2 ++ le_split 8 0.

(** ** Further notions *)

(** What [Vector.Equal] answers on two rows, given the equality of the
    elements. *)
Definition rows_equal {T : Type} (eq : T → T → bool) (v o : slice T) : bool :=
  bool_decide (length (elems v) = length (elems o))
  && forallb (fun p => eq p.1 p.2) (zip (elems v) (elems o)).

(** [rlwe.NewSecretKey] (rlwe/secretkey.go):
    [return &SecretKey{Value: *params.RingQP().NewPoly()}]. The ring engine
    is not among the sources: the polynomial that the parameters give is a
    parameter. The new key is stored at an address of its own. *)
Definition NewSecretKey {Poly Parameters : Type} (NewPoly : Parameters → Poly)
    (h : gmap addr (SecretKey.SecretKey (Poly := Poly))) (params : Parameters)
    : gmap addr (SecretKey.SecretKey (Poly := Poly)) * option addr :=
  let a := fresh (dom h) in
  (<[a := SecretKey.mkSecretKey (NewPoly params)]> h, Some a).

(** * Facts *)

Lemma bind_Ret {A B : Type} (a : A) (k : A → outcome B) : mbind k (Ret a) = k a.
Proof. reflexivity. Qed.

(** * Machine integers *)
Section Integers.

Lemma wrap64_small z : - 2 ^ 63 ≤ z < 2 ^ 63 → wrap64 z = z.
Proof. intros Hz. unfold wrap64. rewrite Z.mod_small; lia. Qed.

Lemma wrap64_range z : - 2 ^ 63 ≤ wrap64 z < 2 ^ 63.
Proof.
  unfold wrap64.
  pose proof (Z.mod_pos_bound (z + 2 ^ 63) (2 ^ 64) ltac:(lia)). lia.
Qed.

Lemma wrap64_idemp z : wrap64 (wrap64 z) = wrap64 z.
Proof. apply wrap64_small, wrap64_range. Qed.

Lemma wrap64_add_l a b : wrap64 (wrap64 a + b) = wrap64 (a + b).
Proof.
  unfold wrap64. f_equal.
  replace ((a + 2 ^ 63) mod 2 ^ 64 - 2 ^ 63 + b + 2 ^ 63)
    with ((a + 2 ^ 63) mod 2 ^ 64 + b) by lia.
  rewrite Zplus_mod_idemp_l. f_equal. lia.
Qed.

Lemma wrap64_add_r a b : wrap64 (a + wrap64 b) = wrap64 (a + b).
Proof. rewrite Z.add_comm, wrap64_add_l. f_equal. lia. Qed.

Lemma add64_wrap_l a b : add64 (wrap64 a) b = wrap64 (a + b).
Proof. apply wrap64_add_l. Qed.

Lemma add64_wrap_r a b : add64 a (wrap64 b) = wrap64 (a + b).
Proof. apply wrap64_add_r. Qed.

Lemma add64_0_l a : add64 0 a = wrap64 a.
Proof. reflexivity. Qed.

Lemma prefix_roundtrip c :
  0 ≤ c < 2 ^ 63 → int_of_uint64 (le_combine (le_split 8 (uint64_of_int c))) = c.
Proof.
  intros Hc. unfold int_of_uint64, uint64_of_int.
  rewrite le_combine_split.
  change (Z.of_nat 8 * 8) with 64.
  rewrite Z.mod_mod by lia. rewrite Z.mod_small by lia.
  apply wrap64_small. lia.
Qed.

Lemma prefix_length c : length (le_split 8 c) = 8%nat.
Proof. apply length_le_split. Qed.

End Integers.

(** * Sinks, buffered writers and readers *)
Section Devices.

Lemma Sink_Write_ok s p s' n :
  Sink_Write s p = (s', n, None) → accepted s' = accepted s ++ p ∧ n = length p.
Proof.
  unfold Sink_Write. destruct (room s) as [k|].
  - destruct (length p <=? k)%nat; intros [= <- <-]; auto.
  - intros [= <- <-]; auto.
Qed.

Lemma bufio_Flush_ok b b' :
  bufio.Flush b = (b', None) →
  accepted (bufio.wr b') = accepted (bufio.wr b) ++ bufio.buf b ∧
  bufio.buf b' = [] ∧ bufio.err b' = None.
Proof.
  unfold bufio.Flush, bufio.Buffered.
  destruct (bufio.err b) eqn:Herr; [intros [=]|].
  destruct (length (bufio.buf b) =? 0)%nat eqn:Hlen.
  - intros [= <-]. apply Nat.eqb_eq in Hlen.
    destruct (bufio.buf b); [|discriminate]. rewrite app_nil_r. auto.
  - destruct (Sink_Write (bufio.wr b) (bufio.buf b)) as [[s' n] e] eqn:Hw.
    destruct e as [e|].
    + intros [=].
    + apply Sink_Write_ok in Hw as [Hacc ->]. rewrite Nat.ltb_irrefl.
      intros [= <-]. auto.
Qed.

Lemma bufio_Flush_err b b' e :
  bufio.Flush b = (b', Some e) → bufio.err b' = Some e.
Proof.
  unfold bufio.Flush, bufio.Buffered.
  destruct (bufio.err b) eqn:Herr; [intros [= <- <-]; done|].
  destruct (length (bufio.buf b) =? 0)%nat; [intros [=]|].
  destruct (Sink_Write (bufio.wr b) (bufio.buf b)) as [[s' n] e0].
  destruct e0 as [e0|]; [intros [= <- <-]; done|].
  destruct (n <? length (bufio.buf b))%nat; intros [= <- <-]; done.
Qed.

(** One turn of the loop of [bufio.Write] keeps what was written so far
    together with what is still to write. *)
Lemma bufio_Write_turn_ok b p nn b' p' nn' :
  bufio.Write_turn (b, p, nn) = (b', p', nn') →
  bufio.Write_cond (b, p, nn) = true →
  bufio.err b' = None →
  accepted (bufio.wr b') ++ bufio.buf b' ++ p' = accepted (bufio.wr b) ++ bufio.buf b ++ p ∧
  (nn' + length p' = nn + length p)%nat ∧
  (bufio.buf b' = [] ∨ p' = []).
Proof.
  unfold bufio.Write_turn, bufio.Write_cond, bufio.Buffered, bufio.Available.
  intros Hturn Hcond Herr'.
  apply andb_true_iff in Hcond as [Hav Herr]. apply Nat.ltb_lt in Hav.
  destruct (bufio.err b) eqn:Hb; [discriminate|].
  destruct (length (bufio.buf b) =? 0)%nat eqn:Hlen.
  - apply Nat.eqb_eq in Hlen. destruct (bufio.buf b) eqn:Hbuf; [|discriminate].
    destruct (Sink_Write (bufio.wr b) p) as [[s' n] e] eqn:Hw.
    injection Hturn as <- <- <-. simpl in *. subst e.
    apply Sink_Write_ok in Hw as [-> ->].
    rewrite drop_all. simpl. rewrite app_nil_r. split; [done|]. split; [lia|auto].
  - destruct (bufio.Flush _) as [b1 e1] eqn:Hfl.
    injection Hturn as <- <- <-.
    destruct e1 as [e1|].
    { apply bufio_Flush_err in Hfl. congruence. }
    apply bufio_Flush_ok in Hfl as (Hacc & Hbuf & _). simpl in *.
    rewrite Hacc, Hbuf. simpl.
    rewrite <- !app_assoc. rewrite take_drop.
    split; [done|]. split; [|auto].
    rewrite length_drop. lia.
Qed.

Lemma bufio_Write_ok b p b' n :
  bufio.Write b p = (b', n, None) →
  accepted (bufio.wr b') ++ bufio.buf b' =
    accepted (bufio.wr b) ++ bufio.buf b ++ p ∧
  n = length p.
Proof.
  unfold bufio.Write.
  set (st0 := (b, p, 0%nat)).
  destruct (bufio.Write_cond st0) eqn:Hc0.
  - destruct (bufio.Write_turn st0) as [[b1 p1] n1] eqn:Ht1.
    destruct (bufio.Write_cond (b1, p1, n1)) eqn:Hc1.
    + destruct (bufio.Write_turn (b1, p1, n1)) as [[b2 p2] n2] eqn:Ht2.
      destruct (bufio.err b2) eqn:He2; [intros [=]|].
      intros [= <- <-].
      assert (bufio.err b1 = None) as He1.
      { unfold bufio.Write_cond in Hc1. destruct (bufio.err b1); [|done].
        rewrite andb_false_r in Hc1. done. }
      apply bufio_Write_turn_ok in Ht1 as (H1 & L1 & _); [|done..].
      apply bufio_Write_turn_ok in Ht2 as (H2 & L2 & _); [|done..].
      simpl. rewrite H2, H1. split; [done|]. lia.
    + destruct (bufio.err b1) eqn:He1; [intros [=]|].
      intros [= <- <-].
      apply bufio_Write_turn_ok in Ht1 as (H1 & L1 & _); [|done..].
      simpl. rewrite H1. split; [done|]. lia.
  - rewrite Hc0. unfold st0.
    destruct (bufio.err b) eqn:He; [intros [=]|].
    intros [= <- <-]. simpl. done.
Qed.

(** The loop of [bufio.Write] has ended after two turns. *)
Lemma bufio_Write_loop_ends b p :
  let st1 := if bufio.Write_cond (b, p, 0%nat) then bufio.Write_turn (b, p, 0%nat)
             else (b, p, 0%nat) in
  let st2 := if bufio.Write_cond st1 then bufio.Write_turn st1 else st1 in
  bufio.Write_cond st2 = false.
Proof.
  intros st1 st2.
  destruct (bufio.Write_cond st2) eqn:Hc2; [|done]. exfalso.
  assert (bufio.Write_cond st1 = true) as Hc1.
  { unfold st2 in Hc2. destruct (bufio.Write_cond st1) eqn:?; [done|congruence]. }
  assert (bufio.Write_cond (b, p, 0%nat) = true) as Hc0.
  { unfold st1 in Hc1. destruct (bufio.Write_cond (b, p, 0%nat)) eqn:?; [done|congruence]. }
  unfold st2 in Hc2. rewrite Hc1 in Hc2.
  unfold st1 in *. rewrite Hc0 in *.
  destruct (bufio.Write_turn (b, p, 0%nat)) as [[b1 p1] n1] eqn:Ht1.
  destruct (bufio.Write_turn (b1, p1, n1)) as [[b2 p2] n2] eqn:Ht2.
  assert (bufio.err b1 = None) as He1.
  { unfold bufio.Write_cond in Hc1. destruct (bufio.err b1); [|done].
    rewrite andb_false_r in Hc1. done. }
  assert (bufio.err b2 = None) as He2.
  { unfold bufio.Write_cond in Hc2. destruct (bufio.err b2); [|done].
    rewrite andb_false_r in Hc2. done. }
  pose proof Ht1 as Ht1'. pose proof Ht2 as Ht2'.
  apply bufio_Write_turn_ok in Ht1' as (_ & _ & [Hb1|Hp1]); [| |done..].
  - (* the buffer is empty: the second turn writes everything directly *)
    unfold bufio.Write_turn, bufio.Buffered in Ht2. rewrite Hb1 in Ht2. simpl in Ht2.
    destruct (Sink_Write (bufio.wr b1) p1) as [[s' n] e] eqn:Hw.
    injection Ht2 as <- <- <-. simpl in He2. subst e.
    apply Sink_Write_ok in Hw as [_ ->].
    unfold bufio.Write_cond in Hc2. rewrite drop_all in Hc2.
    apply andb_true_iff in Hc2 as [Hc2 _]. apply Nat.ltb_lt in Hc2. simpl in Hc2. lia.
  - subst p1. unfold bufio.Write_cond in Hc1.
    apply andb_true_iff in Hc1 as [Hc1 _]. apply Nat.ltb_lt in Hc1. simpl in Hc1. lia.
Qed.

Lemma buffer_Write_wraps w p w' n e :
  buffer.Write w p = (w', n, e) → buffer.wraps w' = buffer.wraps w.
Proof.
  unfold buffer.Write. destruct (buffer.dev w) as [b|b].
  - destruct (_ <=? _)%nat; intros [= <- _ _]; done.
  - destruct (bufio.Write b p) as [[b' n'] e']. intros [= <- _ _]; done.
Qed.

Lemma buffer_Write_ok w p w' n :
  buffer.Write w p = (w', n, None) →
  buffer.content w' = buffer.content w ++ p ∧ n = length p.
Proof.
  unfold buffer.Write, buffer.content, buffer.delivered, buffer.pending.
  destruct (buffer.dev w) as [b|b].
  - destruct (_ <=? _)%nat; intros [= <- <-]; simpl. rewrite !app_nil_r. done.
  - destruct (bufio.Write b p) as [[b' n'] e'] eqn:Hw. intros [= <- <- ->]. simpl.
    apply bufio_Write_ok in Hw as [Hw ->]. rewrite Hw, app_assoc. done.
Qed.

Lemma buffer_Flush_wraps w w' e :
  buffer.Flush w = (w', e) → buffer.wraps w' = buffer.wraps w.
Proof.
  unfold buffer.Flush. destruct (buffer.dev w) as [b|b].
  - intros [= <- _]; done.
  - destruct (bufio.Flush b) as [b' e']. intros [= <- _]; done.
Qed.

Lemma buffer_Flush_ok w w' :
  buffer.Flush w = (w', None) →
  buffer.delivered w' = buffer.content w ∧ buffer.pending w' = [].
Proof.
  unfold buffer.Flush, buffer.content, buffer.delivered, buffer.pending.
  destruct (buffer.dev w) as [b|b] eqn:Hdev.
  - intros [= <-]. rewrite Hdev, app_nil_r. done.
  - destruct (bufio.Flush b) as [b' e'] eqn:Hf. intros [= <- ->]. simpl.
    apply bufio_Flush_ok in Hf as (? & ? & ?). done.
Qed.

Lemma buffer_Write_room w p k :
  has_room w (length p + k) →
  ∃ w', buffer.Write w p = (w', length p, None) ∧ has_room w' k ∧
        buffer.content w' = buffer.content w ++ p.
Proof.
  unfold has_room, buffer.Write, buffer.content, buffer.delivered, buffer.pending.
  destruct (buffer.dev w) as [b|b]; [|done]. intros Hroom.
  destruct (_ <=? _)%nat eqn:Hle.
  - eexists. split; [done|]. simpl. rewrite length_app, !app_nil_r. split; [lia|done].
  - apply Nat.leb_gt in Hle. lia.
Qed.

Lemma buffer_Flush_room w k :
  has_room w k → buffer.Flush w = (w, None).
Proof.
  unfold has_room, buffer.Flush. destruct (buffer.dev w); [done|tauto].
Qed.

Lemma has_room_pending w k : has_room w k → buffer.pending w = [].
Proof.
  unfold has_room, buffer.pending. destruct (buffer.dev w); [done|tauto].
Qed.

Lemma has_room_weaken w k k' : has_room w k → (k' ≤ k)%nat → has_room w k'.
Proof.
  unfold has_room. destruct (buffer.dev w); [lia|tauto].
Qed.

Lemma emit_wraps w out w' n e :
  buffer.emit w out = (w', n, e) → buffer.wraps w' = buffer.wraps w.
Proof.
  unfold buffer.emit. destruct (buffer.Write w out.1) as [[w1 n1] e1] eqn:Hw.
  apply buffer_Write_wraps in Hw. destruct e1; intros [= <- _ _]; done.
Qed.

Lemma emit_ok w out w' n :
  buffer.emit w out = (w', n, None) →
  buffer.content w' = buffer.content w ++ out.1 ∧ n = Z.of_nat (length out.1) ∧ out.2 = None.
Proof.
  unfold buffer.emit. destruct (buffer.Write w out.1) as [[w1 n1] e1] eqn:Hw.
  destruct e1; [intros [=]|]. intros [= <- <- ->].
  apply buffer_Write_ok in Hw as [-> ->]. done.
Qed.

Lemma emit_room w bs k :
  has_room w (length bs + k) →
  ∃ w', buffer.emit w (bs, None) = (w', Z.of_nat (length bs), None) ∧ has_room w' k ∧
        buffer.content w' = buffer.content w ++ bs.
Proof.
  intros Hroom. apply buffer_Write_room in Hroom as (w' & Hw & Hr & Hc).
  exists w'. unfold buffer.emit. simpl. rewrite Hw. done.
Qed.

Lemma WriteAsUint64_wraps w c w' n e :
  buffer.WriteAsUint64 w c = (w', n, e) → buffer.wraps w' = buffer.wraps w.
Proof.
  unfold buffer.WriteAsUint64. destruct (buffer.Write _ _) as [[w1 n1] e1] eqn:Hw.
  apply buffer_Write_wraps in Hw. intros [= <- _ _]; done.
Qed.

Lemma WriteAsUint64_ok w c w' n :
  buffer.WriteAsUint64 w c = (w', n, None) →
  buffer.content w' = buffer.content w ++ le_split 8 (uint64_of_int c) ∧ n = 8.
Proof.
  unfold buffer.WriteAsUint64. destruct (buffer.Write _ _) as [[w1 n1] e1] eqn:Hw.
  intros [= <- <- ->]. apply buffer_Write_ok in Hw as [-> ->].
  rewrite length_le_split. done.
Qed.

Lemma WriteAsUint64_room w c k :
  has_room w (8 + k) →
  ∃ w', buffer.WriteAsUint64 w c = (w', 8, None) ∧ has_room w' k ∧
        buffer.content w' = buffer.content w ++ le_split 8 (uint64_of_int c).
Proof.
  intros Hroom. unfold buffer.WriteAsUint64.
  destruct (buffer_Write_room w (le_split 8 (uint64_of_int c)) k) as (w' & Hw & Hr & Hc).
  { rewrite length_le_split. done. }
  exists w'. rewrite Hw, length_le_split. done.
Qed.

(** Reading [k] bytes hands out the first [k] bytes that remain and leaves
    the rest; it fails exactly when fewer than [k] bytes remain. *)
Lemma bufio_fill_remaining b :
  bufio.rbuf (bufio.fill b) ++ bufio.rd (bufio.fill b) = bufio.rbuf b ++ bufio.rd b.
Proof. unfold bufio.fill. simpl. rewrite <- app_assoc, take_drop. done. Qed.

Lemma ReadFull_spec r k r' bs e :
  buffer.ReadFull r k = (r', bs, e) →
  buffer.remaining r' = drop k (buffer.remaining r) ∧
  bs = take k (buffer.remaining r) ∧
  (e = None ↔ (k ≤ length (buffer.remaining r))%nat).
Proof.
  destruct r as [b|b]; simpl.
  - destruct (k <=? _)%nat eqn:Hk; intros [= <- <- <-]; simpl.
    + apply Nat.leb_le in Hk. rewrite drop_drop. done.
    + apply Nat.leb_gt in Hk. rewrite <- drop_drop, drop_all.
      rewrite take_ge, drop_ge by lia.
      split; [done|]. split; [done|]. split; [|lia].
      destruct (_ =? _)%nat; done.
  - destruct (bufio.ReadFull b k) as [[b' bs'] e'] eqn:Hr. intros [= <- <- <-].
    unfold bufio.ReadFull in Hr.
    set (b1 := if (length (bufio.rbuf b) <? k)%nat then bufio.fill b else b) in *.
    assert (bufio.rbuf b1 ++ bufio.rd b1 = bufio.rbuf b ++ bufio.rd b) as Hb1.
    { unfold b1. destruct (_ <? _)%nat; [apply bufio_fill_remaining|done]. }
    rewrite <- Hb1.
    destruct (k <=? length (bufio.rbuf b1))%nat eqn:Hk.
    + apply Nat.leb_le in Hk. injection Hr as <- <- <-. simpl.
      rewrite drop_app_le, take_app_le by lia. rewrite length_app.
      split; [done|]. split; [done|]. split; [lia|done].
    + apply Nat.leb_gt in Hk.
      destruct (k <=? length (bufio.rbuf b1 ++ bufio.rd b1))%nat eqn:Hk2.
      * apply Nat.leb_le in Hk2. injection Hr as <- <- <-. simpl.
        done.
      * apply Nat.leb_gt in Hk2. injection Hr as <- <- <-. simpl.
        rewrite drop_ge, take_ge by lia. split; [done|]. split; [done|].
        split; [|lia]. destruct (_ =? _)%nat; done.
Qed.

Lemma parse_spec {A} r (f : list byte → A * nat * option error) a n e :
  f (buffer.remaining r) = (a, n, e) →
  ∃ r', buffer.parse r f = (a, r', Z.of_nat n, e) ∧
        buffer.remaining r' = drop n (buffer.remaining r).
Proof.
  intros Hf. unfold buffer.parse. rewrite Hf.
  destruct (buffer.ReadFull r n) as [[r' bs] e'] eqn:Hr.
  apply ReadFull_spec in Hr as (Hr & _). eexists. split; [done|]. done.
Qed.

Lemma ReadAsUint64_ok r c0 c rest :
  buffer.remaining r = le_split 8 (uint64_of_int c) ++ rest →
  0 ≤ c < 2 ^ 63 →
  ∃ r', buffer.ReadAsUint64 r c0 = (r', c, 8, None) ∧ buffer.remaining r' = rest.
Proof.
  intros Hrem Hc. unfold buffer.ReadAsUint64.
  destruct (buffer.ReadFull r 8) as [[r' bs] e] eqn:Hr.
  apply ReadFull_spec in Hr as (Hr' & Hbs & He). rewrite Hrem in *.
  assert (length (le_split 8 (uint64_of_int c)) = 8%nat) as Hl by apply length_le_split.
  rewrite take_app_length' in Hbs by done. rewrite drop_app_length' in Hr' by done.
  destruct e as [e|].
  { destruct He as [_ He]. rewrite length_app, Hl in He. discriminate He. lia. }
  subst bs. rewrite prefix_roundtrip by done. eauto.
Qed.

Lemma ReadAsUint64_short r c0 :
  (length (buffer.remaining r) < 8)%nat →
  ∃ r' n e, buffer.ReadAsUint64 r c0 = (r', c0, n, Some e).
Proof.
  intros Hlen. unfold buffer.ReadAsUint64.
  destruct (buffer.ReadFull r 8) as [[r' bs] e] eqn:Hr.
  apply ReadFull_spec in Hr as (_ & _ & He).
  destruct e as [e|]; [eauto|]. destruct He as [He _]. specialize (He eq_refl). lia.
Qed.

End Devices.

(** * Slices *)

(** A receiver after it was resized to [n] elements. *)
Lemma resized_length {A : Type} (z : A) (s : slice A) (n : nat) :
  length (elems (reslice (if cap s <? Z.of_nat n then make z n else s) n)) = n.
Proof.
  unfold reslice, cap, len_int. simpl.
  destruct (_ <? _) eqn:Hc.
  - simpl. rewrite app_nil_r, take_ge; rewrite length_replicate; lia.
  - apply Z.ltb_ge in Hc. rewrite length_take. lia.
Qed.

(** * Vectors *)
Section VectorFacts.
Context {T : Type} `{Element T} (enc : T → list byte).

#[local] Arguments total_length : simpl never.

Lemma total_length_cons t l : total_length enc (t :: l) = (length (enc t) + total_length enc l)%nat.
Proof. unfold total_length. simpl. rewrite length_app. done. Qed.

Lemma write_elements_wraps (put : T → list byte * option error) l w n w' n' e :
  Vector.write_elements put l w n = (w', n', e) → buffer.wraps w' = buffer.wraps w.
Proof.
  revert w n. induction l as [|t l IH]; simpl; intros w n.
  - intros [= <- _ _]; done.
  - destruct (buffer.emit w (put t)) as [[w1 inc] e1] eqn:Hemit.
    apply emit_wraps in Hemit. destruct e1.
    + intros [= <- _ _]; done.
    + intros Hrest. apply IH in Hrest. congruence.
Qed.

Lemma write_elements_ok (put : T → list byte * option error) l w n w' n' :
  (∀ t, (put t).1 = enc t) →
  wrap64 n = n →
  Vector.write_elements put l w n = (w', n', None) →
  buffer.content w' = buffer.content w ++ concat (map enc l) ∧
  n' = wrap64 (n + Z.of_nat (total_length enc l)).
Proof.
  intros Hput. revert w n. induction l as [|t l IH]; simpl; intros w n Hn.
  - intros [= <- <-]. rewrite app_nil_r, Z.add_0_r. done.
  - destruct (buffer.emit w (put t)) as [[w1 inc] e1] eqn:Hemit.
    destruct e1; [intros [=]|]. intros Hrest.
    apply emit_ok in Hemit as (Hc & -> & _). rewrite Hput in Hc.
    apply IH in Hrest as [-> ->]; [|apply wrap64_idemp].
    rewrite Hc, <- app_assoc. split; [done|].
    rewrite total_length_cons, Hput. unfold add64. rewrite wrap64_add_l. f_equal. lia.
Qed.

Lemma write_elements_room (put : T → list byte * option error) l w n k :
  (∀ t, put t = (enc t, None)) →
  wrap64 n = n →
  has_room w (total_length enc l + k) →
  ∃ w', Vector.write_elements put l w n = (w', wrap64 (n + Z.of_nat (total_length enc l)), None) ∧
        has_room w' k ∧
        buffer.content w' = buffer.content w ++ concat (map enc l).
Proof.
  intros Hput. revert w n. induction l as [|t l IH]; simpl; intros w n Hn Hroom.
  - exists w. rewrite Z.add_0_r, Hn, app_nil_r. done.
  - rewrite total_length_cons in *. rewrite Hput.
    destruct (emit_room w (enc t) (total_length enc l + k)) as (w1 & -> & Hr1 & Hc1).
    { eapply has_room_weaken; [done|lia]. }
    destruct (IH w1 (add64 n (Z.of_nat (length (enc t))))) as (w' & -> & Hr & Hc);
      [apply wrap64_idemp|done|].
    exists w'. split; [|split; [done|]].
    + f_equal. f_equal. unfold add64. rewrite wrap64_add_l. f_equal. lia.
    + rewrite Hc, Hc1, <- app_assoc. done.
Qed.

Lemma wire_Vector_length v :
  length (wire_Vector enc v) = (8 + total_length enc (elems v))%nat.
Proof. unfold wire_Vector. rewrite length_app, length_le_split. done. Qed.

Lemma le_split_uint64 c : le_split 8 (uint64_of_int c) = le_split 8 c.
Proof. unfold uint64_of_int. symmetry. apply (le_split_mod c 8). Qed.

Lemma fold_sizes (size : T → Z) l n :
  (∀ t, size t = Z.of_nat (length (enc t))) →
  wrap64 n = n →
  fold_left (fun acc t => add64 acc (size t)) l n = wrap64 (n + Z.of_nat (total_length enc l)).
Proof.
  intros Hsize. revert n. induction l as [|t l IH]; simpl; intros n Hn.
  - rewrite Z.add_0_r. done.
  - rewrite IH by apply wrap64_idemp. rewrite total_length_cons, Hsize.
    unfold add64. rewrite wrap64_add_l. f_equal. lia.
Qed.

Context {L : Lawful enc}.

Lemma Vector_BinarySize_wire v :
  Vector.BinarySize v = Ret (wrap64 (Z.of_nat (length (wire_Vector enc v)))).
Proof.
  destruct lawful_size as (size & Hs & Hsize).
  rewrite wire_Vector_length.
  unfold Vector.BinarySize. rewrite Hs. simpl.
  rewrite (fold_sizes size) by done. do 2 f_equal. lia.
Qed.

Lemma Vector_WriteTo_returns v w :
  ∃ w' n e, Vector.WriteTo v w = Ret (w', n, e) ∧ buffer.wraps w' = buffer.wraps w.
Proof.
  destruct lawful_encoder as (put & Hp & Hput).
  unfold Vector.WriteTo. rewrite Hp. simpl.
  destruct (buffer.WriteAsUint64 w (len v)) as [[w1 inc] e1] eqn:Hhdr.
  apply WriteAsUint64_wraps in Hhdr. destruct e1.
  - eauto 10.
  - destruct (Vector.write_elements put (elems v) w1 inc) as [[w' n] e] eqn:Hw.
    apply write_elements_wraps in Hw. exists w', n, e. split; [done|congruence].
Qed.

Lemma Vector_WriteTo_ok v w w' n :
  Vector.WriteTo v w = Ret (w', n, None) →
  buffer.content w' = buffer.content w ++ wire_Vector enc v ∧
  n = wrap64 (Z.of_nat (length (wire_Vector enc v))).
Proof.
  destruct lawful_encoder as (put & Hp & Hput).
  rewrite wire_Vector_length.
  unfold Vector.WriteTo. rewrite Hp. simpl.
  destruct (buffer.WriteAsUint64 w (len v)) as [[w1 inc] e1] eqn:Hhdr.
  destruct e1; [intros [=]|]. intros [= Hw].
  apply WriteAsUint64_ok in Hhdr as [Hc ->].
  apply write_elements_ok in Hw as [-> ->]; [| intros t; rewrite Hput; done | done].
  rewrite Hc, le_split_uint64. unfold wire_Vector. rewrite <- app_assoc. split; [done|].
  f_equal. lia.
Qed.

Lemma Vector_WriteTo_room v w k :
  has_room w (length (wire_Vector enc v) + k) →
  ∃ w', Vector.WriteTo v w = Ret (w', wrap64 (Z.of_nat (length (wire_Vector enc v))), None) ∧
        has_room w' k ∧
        buffer.content w' = buffer.content w ++ wire_Vector enc v.
Proof.
  destruct lawful_encoder as (put & Hp & Hput).
  rewrite wire_Vector_length. intros Hroom.
  unfold Vector.WriteTo. rewrite Hp. simpl.
  destruct (WriteAsUint64_room w (len v) (total_length enc (elems v) + k)) as (w1 & -> & Hr1 & Hc1).
  { eapply has_room_weaken; [done|lia]. }
  destruct (write_elements_room put (elems v) w1 8 k) as (w' & -> & Hr & Hc); [done..|].
  exists w'. split; [|split; [done|]].
  - do 4 f_equal. lia.
  - rewrite Hc, Hc1, le_split_uint64. unfold wire_Vector. rewrite <- app_assoc. done.
Qed.

Lemma zip_equal_iff (eq : T → T → bool) (l l' : list T) :
  bool_decide (length l = length l') && forallb (fun p => eq p.1 p.2) (zip l l') = true
  ↔ Forall2 (fun a b => eq a b = true) l l'.
Proof.
  revert l'. induction l as [|a l IH]; intros [|b l']; simpl.
  - split; [constructor|done].
  - split; [intros [=]|inversion 1].
  - split; [intros [=]|inversion 1].
  - rewrite Forall2_cons, <- IH.
    rewrite !andb_true_iff, !bool_decide_eq_true.
    split; [intros (Hl & He & Hf)|intros (He & Hl & Hf)]; repeat split; auto; lia.
Qed.

Lemma Vector_Equal_iff eq v o :
  Vector.element_equal = Ret eq →
  Vector.Equal v o = Ret true ↔ Forall2 (fun a b => eq a b = true) (elems v) (elems o).
Proof.
  intros Heq. unfold Vector.Equal. rewrite Heq. simpl.
  rewrite <- zip_equal_iff. split; [intros [= ->]; done|intros ->; done].
Qed.

Lemma Vector_Equal_returns v o :
  ∃ b, Vector.Equal v o = Ret b.
Proof.
  destruct lawful_equal as (eq & Heq).
  unfold Vector.Equal. rewrite Heq. simpl. eauto.
Qed.

Lemma read_elements_ok (get : T → list byte → T * nat * option error) olds l r n rest :
  (∀ old t rest, ∃ t', get old (enc t ++ rest) = (t', length (enc t), None) ∧
                       equal_elements t' t) →
  length olds = length l →
  buffer.remaining r = concat (map enc l) ++ rest →
  wrap64 n = n →
  ∃ l' r', Vector.read_elements get olds r n =
             (l', r', wrap64 (n + Z.of_nat (total_length enc l)), None) ∧
           buffer.remaining r' = rest ∧ Forall2 equal_elements l' l.
Proof.
  intros Hget. revert olds r n.
  induction l as [|t l IH]; intros [|o olds] r n Hlen Hrem Hn; try discriminate; simpl.
  - exists [], r. rewrite Z.add_0_r, Hn. simpl in Hrem. split; [done|]. split; [done|constructor].
  - simpl in Hrem. rewrite <- app_assoc in Hrem.
    destruct (Hget o t (concat (map enc l) ++ rest)) as (t' & Ht' & Heq).
    rewrite <- Hrem in Ht'.
    apply parse_spec in Ht' as (r1 & -> & Hr1).
    rewrite Hrem, drop_app_length in Hr1.
    destruct (IH olds r1 (add64 n (Z.of_nat (length (enc t))))) as (l' & r' & -> & Hr' & Hall);
      [by injection Hlen|done|apply wrap64_idemp|].
    exists (t' :: l'), r'. split; [|split; [done|by constructor]].
    rewrite total_length_cons. unfold add64. rewrite wrap64_add_l. do 3 f_equal. lia.
Qed.

Lemma read_elements_short (get : T → list byte → T * nat * option error) olds l r n k :
  (∀ old t rest, ∃ t', get old (enc t ++ rest) = (t', length (enc t), None) ∧
                       equal_elements t' t) →
  (∀ old t k, (k < length (enc t))%nat → ∃ t' n e, get old (take k (enc t)) = (t', n, Some e)) →
  length olds = length l →
  buffer.remaining r = take k (concat (map enc l)) →
  (k < total_length enc l)%nat →
  ∃ l' r' n' e, Vector.read_elements get olds r n = (l', r', n', Some e).
Proof.
  intros Hget Hshort. revert olds r n k.
  induction l as [|t l IH]; intros [|o olds] r n k Hlen Hrem Hk; try discriminate; simpl.
  - unfold total_length in Hk. simpl in Hk. lia.
  - rewrite total_length_cons in Hk. simpl in Hrem.
    destruct (decide (k < length (enc t))%nat) as [Hlt|Hge].
    + rewrite take_app_le in Hrem by lia.
      destruct (Hshort o t k Hlt) as (t' & n1 & e & Ht'). rewrite <- Hrem in Ht'.
      apply parse_spec in Ht' as (r1 & -> & _). eauto.
    + rewrite take_app_ge in Hrem by lia.
      destruct (Hget o t (take (k - length (enc t)) (concat (map enc l)))) as (t' & Ht' & _).
      rewrite <- Hrem in Ht'.
      apply parse_spec in Ht' as (r1 & -> & Hr1).
      rewrite Hrem, drop_app_length in Hr1.
      destruct (IH olds r1 (add64 n (Z.of_nat (length (enc t)))) (k - length (enc t))%nat)
        as (l' & r' & n' & e & ->); [by injection Hlen|done|lia|].
      eauto.
Qed.


Lemma lawful_get :
  ∃ get, Vector.decoder = Ret get ∧
    (∀ old t rest, ∃ t', get old (enc t ++ rest) = (t', length (enc t), None) ∧
                         equal_elements t' t) ∧
    (∀ old t k, (k < length (enc t))%nat → ∃ t' n e, get old (take k (enc t)) = (t', n, Some e)).
Proof.
  destruct lawful_decoder as (get & Hg & Hrt & Hshort).
  exists get. split; [done|]. split; [|done].
  intros old t rest. destruct (Hrt old t rest) as (t' & Ht' & Heq). exists t'. done.
Qed.

Lemma Vector_ReadFrom_ok v0 v r rest :
  valid_slice v →
  buffer.remaining r = wire_Vector enc v ++ rest →
  ∃ v' r', Vector.ReadFrom v0 r =
             Ret (v', r', wrap64 (Z.of_nat (length (wire_Vector enc v))), None) ∧
           buffer.remaining r' = rest ∧
           Forall2 equal_elements (elems v') (elems v).
Proof.
  intros Hvalid Hrem.
  destruct lawful_get as (get & Hg & Hrt & _).
  rewrite wire_Vector_length.
  unfold Vector.ReadFrom. rewrite Hg, bind_Ret.
  unfold wire_Vector in Hrem. rewrite <- app_assoc, <- le_split_uint64 in Hrem.
  assert (0 ≤ len v < 2 ^ 63) as Hlen.
  { unfold valid_slice, cap, len, len_int in *. rewrite length_app in Hvalid. lia. }
  destruct (ReadAsUint64_ok r 0 (len v) _ Hrem Hlen) as (r1 & -> & Hr1).
  destruct (len v <? 0) eqn:Hneg; [apply Z.ltb_lt in Hneg; lia|].
  unfold len, len_int. rewrite Nat2Z.id.
  set (v2 := reslice _ _).
  destruct (read_elements_ok get (elems v2) (elems v) r1 8 rest) as (l' & r' & -> & Hr' & Hall);
    [done|apply resized_length|done|done|].
  exists (mkSlice l' (spare v2)), r'. split; [|done].
  do 4 f_equal. lia.
Qed.

Lemma Vector_ReadFrom_short v0 v r k :
  valid_slice v →
  buffer.remaining r = take k (wire_Vector enc v) →
  (k < length (wire_Vector enc v))%nat →
  ∃ v' r' n e, Vector.ReadFrom v0 r = Ret (v', r', n, Some e).
Proof.
  intros Hvalid Hrem Hk.
  destruct lawful_get as (get & Hg & Hrt & Hshort).
  rewrite wire_Vector_length in Hk.
  unfold Vector.ReadFrom. rewrite Hg, bind_Ret.
  unfold wire_Vector in Hrem.
  assert (length (le_split 8 (len v)) = 8%nat) as Hl8 by apply length_le_split.
  destruct (decide (k < 8)%nat) as [Hlt|Hge].
  - destruct (ReadAsUint64_short r 0) as (r1 & n & e & ->).
    { rewrite Hrem, length_take, length_app. lia. }
    eauto.
  - rewrite take_app_ge, Hl8 in Hrem by lia. rewrite <- le_split_uint64 in Hrem.
    assert (0 ≤ len v < 2 ^ 63) as Hlen.
    { unfold valid_slice, cap, len, len_int in *. rewrite length_app in Hvalid. lia. }
    destruct (ReadAsUint64_ok r 0 (len v) _ Hrem Hlen) as (r1 & -> & Hr1).
    destruct (len v <? 0) eqn:Hneg; [apply Z.ltb_lt in Hneg; lia|].
    unfold len, len_int. rewrite Nat2Z.id.
    set (v2 := reslice _ _).
    destruct (read_elements_short get (elems v2) (elems v) r1 8 (k - 8))
      as (l' & r' & n' & e & ->); [done|done|apply resized_length|done|lia|].
    eauto.
Qed.

End VectorFacts.

(** * Matrices *)
Section MatrixFacts.
Context {T : Type} `{Element T} (enc : T → list byte).

#[local] Arguments rows_length : simpl never.

Lemma rows_length_cons v rows :
  rows_length enc (v :: rows) = (length (wire_Vector enc v) + rows_length enc rows)%nat.
Proof. unfold rows_length. simpl. rewrite length_app. done. Qed.

Lemma wire_Matrix_length m :
  length (wire_Matrix enc m) = (8 + rows_length enc (elems m))%nat.
Proof. unfold wire_Matrix. rewrite length_app, length_le_split. done. Qed.

(** [BinarySize] is the header plus the sizes of the rows, whatever the
    element type. *)
Lemma BinarySize_rows_sum (rows : list (slice T)) size z :
  Matrix.BinarySize_rows rows size = Ret z →
  ∃ sizes, Forall2 (fun v s => Vector.BinarySize v = Ret s) rows sizes ∧
           z = fold_left add64 sizes size.
Proof.
  revert size. induction rows as [|v rows IH]; simpl; intros size.
  - intros [= <-]. exists []. split; [constructor|done].
  - destruct (Vector.BinarySize v) as [s|p] eqn:Hv; [|intros [=]].
    rewrite bind_Ret. intros Hrest. apply IH in Hrest as (sizes & Hall & ->).
    exists (s :: sizes). split; [by constructor|done].
Qed.

Context {L : Lawful enc}.

Lemma BinarySize_rows_wire rows size :
  wrap64 size = size →
  Matrix.BinarySize_rows rows size = Ret (wrap64 (size + Z.of_nat (rows_length enc rows))).
Proof.
  revert size. induction rows as [|v rows IH]; simpl; intros size Hsize.
  - rewrite Z.add_0_r, Hsize. done.
  - rewrite (Vector_BinarySize_wire enc), bind_Ret.
    rewrite IH by apply wrap64_idemp. rewrite rows_length_cons.
    rewrite add64_wrap_r, wrap64_add_l. do 2 f_equal. lia.
Qed.

Lemma Matrix_BinarySize_wire m :
  Matrix.BinarySize m = Ret (wrap64 (Z.of_nat (length (wire_Matrix enc m)))).
Proof.
  unfold Matrix.BinarySize. rewrite BinarySize_rows_wire by apply wrap64_idemp.
  rewrite wire_Matrix_length. change (add64 0 8) with (wrap64 8).
  rewrite (wrap64_add_l 8). do 2 f_equal. lia.
Qed.

Lemma WriteTo_rows_returns rows w n :
  ∃ w' n' e, Matrix.WriteTo_rows rows w n = Ret (w', n', e) ∧
             buffer.wraps w' = buffer.wraps w.
Proof.
  revert w n. induction rows as [|v rows IH]; simpl; intros w n.
  - destruct (buffer.Flush w) as [w' e] eqn:Hf. apply buffer_Flush_wraps in Hf. eauto 10.
  - destruct (Vector_WriteTo_returns enc v w) as (w1 & inc & e & -> & Hw).
    rewrite bind_Ret. destruct e.
    + eauto 10.
    + destruct (IH w1 (add64 n inc)) as (w' & n' & e' & -> & Hw').
      exists w', n', e'. split; [done|congruence].
Qed.

Lemma WriteTo_rows_ok rows w n w' n' :
  wrap64 n = n →
  Matrix.WriteTo_rows rows w n = Ret (w', n', None) →
  buffer.delivered w' = buffer.content w ++ concat (map (wire_Vector enc) rows) ∧
  buffer.pending w' = [] ∧
  n' = wrap64 (n + Z.of_nat (rows_length enc rows)).
Proof.
  revert w n. induction rows as [|v rows IH]; simpl; intros w n Hn.
  - destruct (buffer.Flush w) as [w1 e] eqn:Hf. intros [= <- <- ->].
    apply buffer_Flush_ok in Hf as [-> ->].
    rewrite app_nil_r, Z.add_0_r, Hn. done.
  - destruct (Vector_WriteTo_returns enc v w) as (w1 & inc & e & Hv & _).
    rewrite Hv, bind_Ret. destruct e; [intros [=]|].
    apply (Vector_WriteTo_ok enc) in Hv as [Hc ->].
    intros Hrest. apply IH in Hrest as (-> & -> & ->); [|apply wrap64_idemp].
    rewrite Hc, <- app_assoc. split; [done|]. split; [done|].
    rewrite rows_length_cons, add64_wrap_r, wrap64_add_l. f_equal. lia.
Qed.

Lemma WriteTo_rows_room rows w n k :
  wrap64 n = n →
  has_room w (rows_length enc rows + k) →
  ∃ w', Matrix.WriteTo_rows rows w n = Ret (w', wrap64 (n + Z.of_nat (rows_length enc rows)), None) ∧
        buffer.delivered w' = buffer.content w ++ concat (map (wire_Vector enc) rows) ∧
        has_room w' k.
Proof.
  revert w n. induction rows as [|v rows IH]; intros w n Hn Hroom.
  - simpl. rewrite (buffer_Flush_room w k) by done.
    exists w. rewrite Z.add_0_r, Hn, app_nil_r. unfold buffer.content.
    rewrite (has_room_pending w k), app_nil_r by done. done.
  - rewrite rows_length_cons in *. cbn [Matrix.WriteTo_rows].
    destruct (Vector_WriteTo_room enc v w (rows_length enc rows + k)) as (w1 & -> & Hr1 & Hc1).
    { eapply has_room_weaken; [done|lia]. }
    rewrite bind_Ret.
    destruct (IH w1 (add64 n (wrap64 (Z.of_nat (length (wire_Vector enc v))))))
      as (w' & -> & Hd & Hr); [apply wrap64_idemp|done|].
    exists w'. split; [|split; [|done]].
    + rewrite add64_wrap_r, wrap64_add_l. do 4 f_equal. lia.
    + rewrite Hd, Hc1, <- app_assoc. done.
Qed.

Lemma WriteTo_buffer_returns m w :
  ∃ w' n e, Matrix.WriteTo_buffer m w = Ret (w', n, e) ∧ buffer.wraps w' = buffer.wraps w.
Proof.
  unfold Matrix.WriteTo_buffer.
  destruct (buffer.WriteAsUint64 w (len m)) as [[w1 inc] e1] eqn:Hhdr.
  apply WriteAsUint64_wraps in Hhdr. destruct e1.
  - eauto 10.
  - destruct (WriteTo_rows_returns (elems m) w1 (add64 0 inc)) as (w' & n' & e' & -> & Hw').
    exists w', n', e'. split; [done|congruence].
Qed.

Lemma WriteTo_buffer_ok m w w' n :
  Matrix.WriteTo_buffer m w = Ret (w', n, None) →
  buffer.delivered w' = buffer.content w ++ wire_Matrix enc m ∧
  buffer.pending w' = [] ∧
  n = wrap64 (Z.of_nat (length (wire_Matrix enc m))).
Proof.
  rewrite wire_Matrix_length. unfold Matrix.WriteTo_buffer.
  destruct (buffer.WriteAsUint64 w (len m)) as [[w1 inc] e1] eqn:Hhdr.
  destruct e1; [intros [=]|].
  apply WriteAsUint64_ok in Hhdr as [Hc ->].
  intros Hrows. apply WriteTo_rows_ok in Hrows as (-> & -> & ->); [|apply wrap64_idemp].
  rewrite Hc, (le_split_uint64 (len m)). unfold wire_Matrix. rewrite <- app_assoc.
  split; [done|]. split; [done|]. change (add64 0 8) with (wrap64 8).
  rewrite (wrap64_add_l 8). f_equal. lia.
Qed.

Lemma WriteTo_buffer_room m w k :
  has_room w (length (wire_Matrix enc m) + k) →
  ∃ w', Matrix.WriteTo_buffer m w =
          Ret (w', wrap64 (Z.of_nat (length (wire_Matrix enc m))), None) ∧
        buffer.delivered w' = buffer.content w ++ wire_Matrix enc m ∧
        has_room w' k.
Proof.
  rewrite wire_Matrix_length. intros Hroom. unfold Matrix.WriteTo_buffer.
  destruct (WriteAsUint64_room w (len m) (rows_length enc (elems m) + k)) as (w1 & -> & Hr1 & Hc1).
  { eapply has_room_weaken; [done|lia]. }
  destruct (WriteTo_rows_room (elems m) w1 (add64 0 8) k) as (w' & -> & Hd & Hr);
    [apply wrap64_idemp|done|].
  exists w'. split; [|split; [|done]].
  - change (add64 0 8) with (wrap64 8). rewrite (wrap64_add_l 8). do 4 f_equal. lia.
  - rewrite Hd, Hc1, (le_split_uint64 (len m)). unfold wire_Matrix. rewrite <- app_assoc. done.
Qed.

Lemma equal_rows_Equal v o :
  equal_rows v o → Vector.Equal v o = Ret true ∧ Vector.Equal o v = Ret true.
Proof.
  intros Hvo. destruct lawful_equal as (eq & Heq).
  rewrite !(Vector_Equal_iff eq) by done. split.
  - eapply Forall2_impl; [exact Hvo|]. intros a b Hab. apply (Hab eq Heq).
  - apply Forall2_flip. eapply Forall2_impl; [exact Hvo|]. intros a b Hab. apply (Hab eq Heq).
Qed.

Lemma ReadFrom_rows_ok olds vs r n rest :
  length olds = length vs →
  Forall valid_slice vs →
  buffer.remaining r = concat (map (wire_Vector enc) vs) ++ rest →
  wrap64 n = n →
  ∃ rows' r', Matrix.ReadFrom_rows olds r n =
                Ret (rows', r', wrap64 (n + Z.of_nat (rows_length enc vs)), None) ∧
              buffer.remaining r' = rest ∧ Forall2 equal_rows rows' vs.
Proof.
  revert olds r n.
  induction vs as [|v vs IH]; intros [|o olds] r n Hlen Hvalid Hrem Hn; try discriminate; simpl.
  - exists [], r. rewrite Z.add_0_r, Hn. simpl in Hrem. split; [done|]. split; [done|constructor].
  - rewrite map_cons, concat_cons, <- app_assoc in Hrem.
    apply Forall_cons in Hvalid as [Hv Hvs].
    destruct (Vector_ReadFrom_ok enc o v r _ Hv Hrem) as (v' & r1 & -> & Hr1 & Heq).
    rewrite bind_Ret.
    destruct (IH olds r1 (add64 n (wrap64 (Z.of_nat (length (wire_Vector enc v))))))
      as (rows' & r' & -> & Hr' & Hall); [by injection Hlen|done|done|apply wrap64_idemp|].
    rewrite bind_Ret.
    exists (v' :: rows'), r'. split; [|split; [done|by constructor]].
    rewrite rows_length_cons, add64_wrap_r, wrap64_add_l. do 4 f_equal. lia.
Qed.

Lemma ReadFrom_rows_short olds vs r n k :
  length olds = length vs →
  Forall valid_slice vs →
  buffer.remaining r = take k (concat (map (wire_Vector enc) vs)) →
  (k < rows_length enc vs)%nat →
  ∃ rows' r' n' e,
    Matrix.ReadFrom_rows olds r n =
      Ret (rows', r', n',
           Some (fmt_Errorf_w ("structs.Vector[" ++ type_name type_of ++ "].ReadFrom") e)).
Proof.
  revert olds r n k.
  induction vs as [|v vs IH]; intros [|o olds] r n k Hlen Hvalid Hrem Hk; try discriminate; simpl.
  - unfold rows_length in Hk. simpl in Hk. lia.
  - rewrite rows_length_cons in Hk. rewrite map_cons, concat_cons in Hrem.
    apply Forall_cons in Hvalid as [Hv Hvs].
    destruct (decide (k < length (wire_Vector enc v))%nat) as [Hlt|Hge].
    + rewrite take_app_le in Hrem by lia.
      destruct (Vector_ReadFrom_short enc o v r k Hv Hrem Hlt) as (v' & r' & n' & e & ->).
      rewrite bind_Ret. eauto.
    + rewrite take_app_ge in Hrem by lia.
      destruct (Vector_ReadFrom_ok enc o v r _ Hv Hrem) as (v' & r1 & -> & Hr1 & _).
      rewrite bind_Ret.
      destruct (IH olds r1 (add64 n (wrap64 (Z.of_nat (length (wire_Vector enc v)))))
                   (k - length (wire_Vector enc v))%nat)
        as (rows' & r' & n' & e & ->); [by injection Hlen|done|done|lia|].
      rewrite bind_Ret. eauto.
Qed.

Lemma valid_Matrix_len (m : slice (slice T)) : valid_Matrix m → 0 ≤ len m < 2 ^ 63.
Proof.
  intros [Hm _]. unfold valid_slice, cap, len, len_int in *.
  rewrite length_app in Hm. lia.
Qed.

Lemma ReadFrom_buffer_ok m0 m r rest :
  valid_Matrix m →
  buffer.remaining r = wire_Matrix enc m ++ rest →
  ∃ m' r', Matrix.ReadFrom_buffer m0 r =
             Ret (m', r', wrap64 (Z.of_nat (length (wire_Matrix enc m))), None) ∧
           buffer.remaining r' = rest ∧
           Forall2 equal_rows (elems m') (elems m).
Proof.
  intros Hvalid Hrem. pose proof (valid_Matrix_len m Hvalid) as Hlen.
  rewrite wire_Matrix_length. unfold Matrix.ReadFrom_buffer.
  unfold wire_Matrix in Hrem. rewrite <- app_assoc, <- (le_split_uint64 (len m)) in Hrem.
  destruct (ReadAsUint64_ok r 0 (len m) _ Hrem Hlen) as (r1 & -> & Hr1).
  destruct (len m <? 0) eqn:Hneg; [apply Z.ltb_lt in Hneg; lia|].
  unfold len, len_int. rewrite Nat2Z.id.
  set (m2 := reslice _ _).
  destruct (ReadFrom_rows_ok (elems m2) (elems m) r1 8 rest) as (rows' & r' & -> & Hr' & Hall);
    [apply resized_length|apply Hvalid|done|done|].
  rewrite bind_Ret.
  exists (mkSlice rows' (spare m2)), r'. split; [|done].
  do 4 f_equal. lia.
Qed.

Lemma ReadFrom_buffer_short m0 m r k :
  valid_Matrix m →
  buffer.remaining r = take k (wire_Matrix enc m) →
  (k < length (wire_Matrix enc m))%nat →
  ∃ m' r' n e,
    Matrix.ReadFrom_buffer m0 r = Ret (m', r', n, Some e) ∧
    (∃ cause, e = fmt_Errorf_w "buffer.ReadAsUint64[int]" cause ∨
              e = fmt_Errorf_w ("structs.Vector[" ++ type_name type_of ++ "].ReadFrom") cause).
Proof.
  intros Hvalid Hrem Hk. pose proof (valid_Matrix_len m Hvalid) as Hlen.
  rewrite wire_Matrix_length in Hk. unfold Matrix.ReadFrom_buffer.
  unfold wire_Matrix in Hrem.
  assert (length (le_split 8 (len m)) = 8%nat) as Hl8 by apply length_le_split.
  destruct (decide (k < 8)%nat) as [Hlt|Hge].
  - destruct (ReadAsUint64_short r 0) as (r1 & n & e & ->).
    { rewrite Hrem, length_take, length_app. lia. }
    eauto 10.
  - rewrite take_app_ge, Hl8 in Hrem by lia. rewrite <- (le_split_uint64 (len m)) in Hrem.
    destruct (ReadAsUint64_ok r 0 (len m) _ Hrem Hlen) as (r1 & -> & Hr1).
    destruct (len m <? 0) eqn:Hneg; [apply Z.ltb_lt in Hneg; lia|].
    unfold len, len_int. rewrite Nat2Z.id.
    set (m2 := reslice _ _).
    destruct (ReadFrom_rows_short (elems m2) (elems m) r1 8 (k - 8))
      as (rows' & r' & n' & e & ->); [apply resized_length|apply Hvalid|done|lia|].
    rewrite bind_Ret. eauto 10.
Qed.

Lemma Equal_check_ok :
  Matrix.Equal_check = Ret tt.
Proof.
  destruct lawful_equal as (eq & Heq).
  unfold Matrix.Equal_check, Vector.element_equal in *.
  destruct (is_primitive type_of); [done|].
  destruct (Equatable method_set); [done|discriminate].
Qed.

(** [Equal] compares the rows of the receiver with the rows of [other] at
    the same indices, and looks at no other row of [other]. *)
Lemma Equal_loop_true rows i other :
  Forall2 (fun v o => Vector.Equal v o = Ret true) rows (take (length rows) (drop i (elems other))) →
  Matrix.Equal_loop rows i other true = Ret true.
Proof.
  revert i. induction rows as [|v rows IH]; simpl; intros i; [done|].
  destruct (drop i _) as [|o os] eqn:Hdrop; simpl; intros Hall; [inversion Hall|].
  apply Forall2_cons in Hall as [Hv Hrest].
  assert (elems other !! i = Some o) as ->.
  { rewrite <- (Nat.add_0_r i), <- lookup_drop, Hdrop. done. }
  rewrite Hv, bind_Ret. apply IH.
  replace (drop (S i) (elems other)) with os; [done|].
  replace (S i) with (i + 1)%nat by lia. rewrite <- drop_drop, Hdrop. done.
Qed.

Lemma Matrix_Equal_rows m other :
  Forall2 equal_rows (elems m) (elems other) →
  Matrix.Equal m other = Ret true ∧ Matrix.Equal other m = Ret true.
Proof.
  intros Hall. unfold Matrix.Equal. rewrite Equal_check_ok, bind_Ret.
  pose proof (Forall2_length _ _ _ Hall) as Hlen.
  split; apply Equal_loop_true; rewrite drop_0.
  - rewrite Hlen, firstn_all. eapply Forall2_impl; [exact Hall|].
    intros v o Hvo. exact (proj1 (equal_rows_Equal v o Hvo)).
  - rewrite <- Hlen, firstn_all. apply Forall2_flip. eapply Forall2_impl; [exact Hall|].
    intros v o Hvo. exact (proj2 (equal_rows_Equal v o Hvo)).
Qed.

End MatrixFacts.

(** * Bounded sinks: what was accepted never exceeds the budget *)
Section Budget.

Lemma Sink_Write_budget s p s' n e k :
  Sink_Write s p = (s', n, e) →
  room s = Some k →
  ∃ k', room s' = Some k' ∧ (length (accepted s') + k' = length (accepted s) + k)%nat.
Proof.
  unfold Sink_Write. intros Hw Hroom. rewrite Hroom in Hw.
  destruct (length p <=? k)%nat eqn:Hle; injection Hw as <- <- <-; simpl.
  - apply Nat.leb_le in Hle. eexists. split; [done|]. rewrite length_app. lia.
  - apply Nat.leb_gt in Hle. eexists. split; [done|].
    rewrite length_app, length_take. lia.
Qed.

Lemma Sink_Write_unbounded s p s' n e :
  Sink_Write s p = (s', n, e) → room s = None → room s' = None.
Proof.
  unfold Sink_Write. intros Hw Hroom. rewrite Hroom in Hw. injection Hw as <- <- <-. done.
Qed.

Lemma Sink_Write_sink_budget s p s' n e :
  Sink_Write s p = (s', n, e) → sink_budget s' = sink_budget s.
Proof.
  intros Hw. unfold sink_budget. destruct (room s) as [k|] eqn:Hroom.
  - destruct (Sink_Write_budget _ _ _ _ _ _ Hw Hroom) as (k' & -> & ->). done.
  - rewrite (Sink_Write_unbounded _ _ _ _ _ Hw Hroom). done.
Qed.

Lemma bufio_Flush_budget b b' e :
  bufio.Flush b = (b', e) → sink_budget (bufio.wr b') = sink_budget (bufio.wr b).
Proof.
  unfold bufio.Flush.
  destruct (bufio.err b); [intros [= <- _]; done|].
  destruct (bufio.Buffered b =? 0)%nat; [intros [= <- _]; done|].
  destruct (Sink_Write (bufio.wr b) (bufio.buf b)) as [[s' n] e0] eqn:Hw.
  apply Sink_Write_sink_budget in Hw.
  destruct e0; [intros [= <- _]; done|].
  destruct (n <? bufio.Buffered b)%nat; intros [= <- _]; done.
Qed.

Lemma bufio_Write_turn_budget st b' p' nn' :
  bufio.Write_turn st = (b', p', nn') →
  sink_budget (bufio.wr b') = sink_budget (bufio.wr st.1.1).
Proof.
  destruct st as [[b p] nn]. unfold bufio.Write_turn. simpl.
  destruct (bufio.Buffered b =? 0)%nat.
  - destruct (Sink_Write (bufio.wr b) p) as [[s' n] e] eqn:Hw.
    apply Sink_Write_sink_budget in Hw. intros [= <- _ _]. done.
  - destruct (bufio.Flush _) as [b1 e1] eqn:Hf. apply bufio_Flush_budget in Hf.
    intros [= <- _ _]. done.
Qed.

Lemma bufio_Write_budget b p b' n e :
  bufio.Write b p = (b', n, e) → sink_budget (bufio.wr b') = sink_budget (bufio.wr b).
Proof.
  unfold bufio.Write.
  set (st0 := (b, p, 0%nat)).
  set (st1 := if bufio.Write_cond st0 then bufio.Write_turn st0 else st0).
  set (st2 := if bufio.Write_cond st1 then bufio.Write_turn st1 else st1).
  assert (sink_budget (bufio.wr st1.1.1) = sink_budget (bufio.wr b)) as H1.
  { unfold st1. destruct (bufio.Write_cond st0); [|done].
    destruct (bufio.Write_turn st0) as [[b1 p1] n1] eqn:Ht.
    apply bufio_Write_turn_budget in Ht. done. }
  assert (sink_budget (bufio.wr st2.1.1) = sink_budget (bufio.wr b)) as H2.
  { unfold st2. destruct (bufio.Write_cond st1); [|done].
    destruct (bufio.Write_turn st1) as [[b2 p2] n2] eqn:Ht.
    apply bufio_Write_turn_budget in Ht. simpl. congruence. }
  destruct st2 as [[b2 p2] nn]. simpl in H2.
  destruct (bufio.err b2); intros [= <- _ _]; done.
Qed.

Lemma budget_sink b k :
  budget (buffer.mkW (buffer.dev_bufio b) k) = sink_budget (bufio.wr b).
Proof. done. Qed.

Lemma buffer_Write_budget w p w' n e :
  buffer.Write w p = (w', n, e) → budget w' = budget w.
Proof.
  unfold buffer.Write, budget. destruct (buffer.dev w) as [b|b] eqn:Hdev.
  - destruct (_ <=? _)%nat; intros [= <- _ _]; simpl; [done|]. rewrite Hdev. done.
  - destruct (bufio.Write b p) as [[b' n'] e'] eqn:Hw. apply bufio_Write_budget in Hw.
    intros [= <- _ _]. simpl. exact Hw.
Qed.

Lemma buffer_Flush_budget w w' e :
  buffer.Flush w = (w', e) → budget w' = budget w.
Proof.
  unfold buffer.Flush, budget. destruct (buffer.dev w) as [b|b] eqn:Hdev.
  - intros [= <- _]. rewrite Hdev. done.
  - destruct (bufio.Flush b) as [b' e'] eqn:Hf. apply bufio_Flush_budget in Hf.
    intros [= <- _]. simpl. exact Hf.
Qed.

Lemma emit_budget w out w' n e :
  buffer.emit w out = (w', n, e) → budget w' = budget w.
Proof.
  unfold buffer.emit. destruct (buffer.Write w out.1) as [[w1 n1] e1] eqn:Hw.
  apply buffer_Write_budget in Hw. destruct e1; intros [= <- _ _]; done.
Qed.

Lemma WriteAsUint64_budget w c w' n e :
  buffer.WriteAsUint64 w c = (w', n, e) → budget w' = budget w.
Proof.
  unfold buffer.WriteAsUint64. destruct (buffer.Write _ _) as [[w1 n1] e1] eqn:Hw.
  apply buffer_Write_budget in Hw. intros [= <- _ _]; done.
Qed.

(** What a bounded sink has accepted fits its budget. *)
Lemma delivered_budget w c :
  budget w = Some c → (length (buffer.delivered w) ≤ c)%nat.
Proof.
  unfold budget, sink_budget, buffer.delivered. destruct (buffer.dev w) as [b|b]; [done|].
  destruct (room (bufio.wr b)); [|done]. intros [= <-]. lia.
Qed.

End Budget.

Section BudgetContainers.
Context {T : Type} `{Element T}.

Lemma write_elements_budget (put : T → list byte * option error) l w n w' n' e :
  Vector.write_elements put l w n = (w', n', e) → budget w' = budget w.
Proof.
  revert w n. induction l as [|t l IH]; simpl; intros w n.
  - intros [= <- _ _]; done.
  - destruct (buffer.emit w (put t)) as [[w1 inc] e1] eqn:Hemit.
    apply emit_budget in Hemit. destruct e1.
    + intros [= <- _ _]; done.
    + intros Hrest. apply IH in Hrest. congruence.
Qed.

Lemma Vector_WriteTo_budget v w w' n e :
  Vector.WriteTo v w = Ret (w', n, e) → budget w' = budget w.
Proof.
  unfold Vector.WriteTo. destruct Vector.encoder as [put|]; [|intros [=]].
  rewrite bind_Ret.
  destruct (buffer.WriteAsUint64 w (len v)) as [[w1 inc] e1] eqn:Hhdr.
  apply WriteAsUint64_budget in Hhdr. destruct e1.
  - intros [= <- _ _]; done.
  - intros [= Hw]. apply write_elements_budget in Hw. congruence.
Qed.

Lemma WriteTo_rows_budget rows w n w' n' e :
  Matrix.WriteTo_rows rows w n = Ret (w', n', e) → budget w' = budget w.
Proof.
  revert w n. induction rows as [|v rows IH]; simpl; intros w n.
  - destruct (buffer.Flush w) as [w1 e1] eqn:Hf. apply buffer_Flush_budget in Hf.
    intros [= <- _ _]; done.
  - destruct (Vector.WriteTo v w) as [[[w1 inc] e1]|] eqn:Hv; [|intros [=]].
    apply Vector_WriteTo_budget in Hv. rewrite bind_Ret. destruct e1.
    + intros [= <- _ _]; done.
    + intros Hrest. apply IH in Hrest. congruence.
Qed.

Lemma WriteTo_buffer_budget m w w' n e :
  Matrix.WriteTo_buffer m w = Ret (w', n, e) → budget w' = budget w.
Proof.
  unfold Matrix.WriteTo_buffer.
  destruct (buffer.WriteAsUint64 w (len m)) as [[w1 inc] e1] eqn:Hhdr.
  apply WriteAsUint64_budget in Hhdr. destruct e1.
  - intros [= <- _ _]; done.
  - intros Hrows. apply WriteTo_rows_budget in Hrows. congruence.
Qed.

(** An error of [WriteTo] is the wrapped error of the header, the wrapped
    error of a row, or the error of the final [Flush]. *)
Lemma WriteTo_rows_error rows w n w' n' e :
  Matrix.WriteTo_rows rows w n = Ret (w', n', Some e) →
  (∃ cause, e = fmt_Errorf_w ("structs.Vector[" ++ type_name type_of ++ "].WriteTo") cause) ∨
  (∃ w0, buffer.Flush w0 = (w', Some e)).
Proof.
  revert w n. induction rows as [|v rows IH]; simpl; intros w n.
  - destruct (buffer.Flush w) as [w1 e1] eqn:Hf. intros [= <- <- ->]. eauto.
  - destruct (Vector.WriteTo v w) as [[[w1 inc] e1]|]; [|intros [=]].
    rewrite bind_Ret. destruct e1.
    + intros [= <- <- <-]. eauto.
    + apply IH.
Qed.

Lemma WriteTo_buffer_error m w w' n e :
  Matrix.WriteTo_buffer m w = Ret (w', n, Some e) →
  (∃ cause, e = fmt_Errorf_w "buffer.WriteAsUint64[int]" cause) ∨
  (∃ cause, e = fmt_Errorf_w ("structs.Vector[" ++ type_name type_of ++ "].WriteTo") cause) ∨
  (∃ w0, buffer.Flush w0 = (w', Some e)).
Proof.
  unfold Matrix.WriteTo_buffer.
  destruct (buffer.WriteAsUint64 w (len m)) as [[w1 inc] e1]. destruct e1.
  - intros [= <- <- <-]. eauto.
  - intros Hrows. right. eapply WriteTo_rows_error. done.
Qed.

End BudgetContainers.

(** * Readers: only the bytes that remain matter *)
Section ReaderIndependence.

Lemma ReadFull_error r k r' bs e :
  buffer.ReadFull r k = (r', bs, e) →
  e = if (k <=? length (buffer.remaining r))%nat then None
      else Some (if (length (buffer.remaining r) =? 0)%nat then io_EOF else io_ErrUnexpectedEOF).
Proof.
  destruct r as [b|b]; simpl.
  - destruct (k <=? _)%nat; intros [= <- <- <-]; done.
  - destruct (bufio.ReadFull b k) as [[b' bs'] e'] eqn:Hr. intros [= <- <- <-].
    unfold bufio.ReadFull in Hr.
    set (b1 := if (length (bufio.rbuf b) <? k)%nat then bufio.fill b else b) in *.
    assert (bufio.rbuf b1 ++ bufio.rd b1 = bufio.rbuf b ++ bufio.rd b) as Hb1.
    { unfold b1. destruct (_ <? _)%nat; [apply bufio_fill_remaining|done]. }
    rewrite <- Hb1.
    destruct (k <=? length (bufio.rbuf b1))%nat eqn:Hk.
    + apply Nat.leb_le in Hk. injection Hr as <- <- <-.
      rewrite length_app. destruct (k <=? _)%nat eqn:Hk'; [done|].
      apply Nat.leb_gt in Hk'. lia.
    + destruct (k <=? length (bufio.rbuf b1 ++ bufio.rd b1))%nat; injection Hr as <- <- <-; done.
Qed.

Lemma ReadFull_indep r1 r2 k r1' bs e :
  buffer.remaining r1 = buffer.remaining r2 →
  buffer.ReadFull r1 k = (r1', bs, e) →
  ∃ r2', buffer.ReadFull r2 k = (r2', bs, e) ∧ buffer.remaining r1' = buffer.remaining r2'.
Proof.
  intros Hsame H1.
  destruct (buffer.ReadFull r2 k) as [[r2' bs2] e2] eqn:H2.
  pose proof (ReadFull_error _ _ _ _ _ H1) as He1.
  pose proof (ReadFull_error _ _ _ _ _ H2) as He2.
  apply ReadFull_spec in H1 as (Hr1 & Hbs1 & _).
  apply ReadFull_spec in H2 as (Hr2 & Hbs2 & _).
  exists r2'. rewrite Hsame in *. subst. split; [done|congruence].
Qed.

Lemma ReadAsUint64_indep r1 r2 c r1' v n e :
  buffer.remaining r1 = buffer.remaining r2 →
  buffer.ReadAsUint64 r1 c = (r1', v, n, e) →
  ∃ r2', buffer.ReadAsUint64 r2 c = (r2', v, n, e) ∧
         buffer.remaining r1' = buffer.remaining r2'.
Proof.
  intros Hsame. unfold buffer.ReadAsUint64.
  destruct (buffer.ReadFull r1 8) as [[r1a bs] e1] eqn:H1.
  destruct (ReadFull_indep _ _ _ _ _ _ Hsame H1) as (r2a & -> & Hrem).
  destruct e1; intros [= <- <- <- <-]; eauto.
Qed.

Lemma parse_indep {A} r1 r2 (f : list byte → A * nat * option error) a r1' n e :
  buffer.remaining r1 = buffer.remaining r2 →
  buffer.parse r1 f = (a, r1', n, e) →
  ∃ r2', buffer.parse r2 f = (a, r2', n, e) ∧ buffer.remaining r1' = buffer.remaining r2'.
Proof.
  intros Hsame. unfold buffer.parse. rewrite <- Hsame.
  destruct (f (buffer.remaining r1)) as [[a0 n0] e0].
  destruct (buffer.ReadFull r1 n0) as [[r1a bs] e1] eqn:H1.
  destruct (ReadFull_indep _ _ _ _ _ _ Hsame H1) as (r2a & -> & Hrem).
  simpl. intros [= <- <- <- <-]. eauto.
Qed.

Context {T : Type} `{Element T}.

Lemma read_elements_indep (get : T → list byte → T * nat * option error) l r1 r2 n l' r1' n' e :
  buffer.remaining r1 = buffer.remaining r2 →
  Vector.read_elements get l r1 n = (l', r1', n', e) →
  ∃ r2', Vector.read_elements get l r2 n = (l', r2', n', e) ∧
         buffer.remaining r1' = buffer.remaining r2'.
Proof.
  revert r1 r2 n l' r1' n' e. induction l as [|t l IH]; simpl; intros r1 r2 n l' r1' n' e Hsame.
  - intros [= <- <- <- <-]. eauto.
  - destruct (buffer.parse r1 (get t)) as [[[t1 r1a] inc] e1] eqn:H1.
    destruct (parse_indep _ _ _ _ _ _ _ Hsame H1) as (r2a & -> & Hrem).
    destruct e1.
    + intros [= <- <- <- <-]. eauto.
    + destruct (Vector.read_elements get l r1a (add64 n inc)) as [[[l1 r1b] n1] e1] eqn:H1'.
      destruct (IH _ _ _ _ _ _ _ Hrem H1') as (r2b & -> & Hrem').
      intros [= <- <- <- <-]. eauto.
Qed.

Lemma Vector_ReadFrom_indep v r1 r2 v' r1' n e :
  buffer.remaining r1 = buffer.remaining r2 →
  Vector.ReadFrom v r1 = Ret (v', r1', n, e) →
  ∃ r2', Vector.ReadFrom v r2 = Ret (v', r2', n, e) ∧
         buffer.remaining r1' = buffer.remaining r2'.
Proof.
  intros Hsame. unfold Vector.ReadFrom.
  destruct Vector.decoder as [get|]; [|intros [=]]. rewrite !bind_Ret.
  destruct (buffer.ReadAsUint64 r1 0) as [[[r1a size] n0] e0] eqn:H1.
  destruct (ReadAsUint64_indep _ _ _ _ _ _ _ Hsame H1) as (r2a & -> & Hrem).
  destruct e0.
  - intros [= <- <- <- <-]. eauto.
  - destruct (size <? 0).
    + intros [= <- <- <- <-]. eauto.
    + destruct (Vector.read_elements _ _ r1a n0) as [[[l1 r1b] n1] e1] eqn:H1'.
      destruct (read_elements_indep _ _ _ _ _ _ _ _ _ Hrem H1') as (r2b & -> & Hrem').
      intros [= <- <- <- <-]. eauto.
Qed.

Lemma Vector_ReadFrom_indep_panic v r1 r2 p :
  buffer.remaining r1 = buffer.remaining r2 →
  Vector.ReadFrom v r1 = Panic p → Vector.ReadFrom v r2 = Panic p.
Proof.
  intros Hsame. unfold Vector.ReadFrom.
  destruct Vector.decoder as [get|]; [|done]. rewrite !bind_Ret.
  destruct (buffer.ReadAsUint64 r1 0) as [[[r1a size] n0] e0] eqn:H1.
  destruct e0; [intros [=]|].
  destruct (size <? 0); [intros [=]|].
  destruct (Vector.read_elements _ _ r1a n0) as [[[l1 r1b] n1] e1]. intros [=].
Qed.

Lemma ReadFrom_rows_indep rows r1 r2 n :
  buffer.remaining r1 = buffer.remaining r2 →
  match Matrix.ReadFrom_rows rows r1 n with
  | Ret (rows', r1', n', e) =>
    ∃ r2', Matrix.ReadFrom_rows rows r2 n = Ret (rows', r2', n', e) ∧
           buffer.remaining r1' = buffer.remaining r2'
  | Panic p => Matrix.ReadFrom_rows rows r2 n = Panic p
  end.
Proof.
  revert r1 r2 n. induction rows as [|v rows IH]; simpl; intros r1 r2 n Hsame.
  - eauto.
  - destruct (Vector.ReadFrom v r1) as [[[[v1 r1a] inc] e1]|p] eqn:H1.
    + destruct (Vector_ReadFrom_indep _ _ _ _ _ _ _ Hsame H1) as (r2a & -> & Hrem).
      rewrite !bind_Ret. destruct e1; [eauto|].
      specialize (IH r1a r2a (add64 n inc) Hrem).
      destruct (Matrix.ReadFrom_rows rows r1a (add64 n inc)) as [[[[rows1 r1b] n1] e1]|p].
      * destruct IH as (r2b & -> & Hrem'). rewrite !bind_Ret. eauto.
      * rewrite IH. done.
    + rewrite (Vector_ReadFrom_indep_panic _ _ _ _ Hsame H1). done.
Qed.

Lemma ReadFrom_buffer_indep m0 r1 r2 :
  buffer.remaining r1 = buffer.remaining r2 →
  match Matrix.ReadFrom_buffer m0 r1 with
  | Ret (m', r1', n, e) =>
    ∃ r2', Matrix.ReadFrom_buffer m0 r2 = Ret (m', r2', n, e) ∧
           buffer.remaining r1' = buffer.remaining r2'
  | Panic p => Matrix.ReadFrom_buffer m0 r2 = Panic p
  end.
Proof.
  intros Hsame. unfold Matrix.ReadFrom_buffer.
  destruct (buffer.ReadAsUint64 r1 0) as [[[r1a size] n0] e0] eqn:H1.
  destruct (ReadAsUint64_indep _ _ _ _ _ _ _ Hsame H1) as (r2a & -> & Hrem).
  destruct e0; [eauto|].
  destruct (size <? 0); [done|].
  pose proof (ReadFrom_rows_indep
    (elems (reslice (if cap m0 <? size then make nil_slice (Z.to_nat size) else m0) (Z.to_nat size)))
    r1a r2a n0 Hrem) as Hrows.
  destruct (Matrix.ReadFrom_rows _ r1a n0) as [[[[rows1 r1b] n1] e1]|p].
  - destruct Hrows as (r2b & -> & Hrem'). rewrite !bind_Ret. eauto.
  - rewrite Hrows. done.
Qed.

End ReaderIndependence.

(** * The element types at hand keep the contract *)

Lemma Byte_eqb_refl b : Byte.eqb b b = true.
Proof. apply Byte.byte_dec_lb. done. Qed.

#[global] Instance uint8_Lawful : Lawful uint8_enc.
Proof.
  split.
  - eexists. split; [reflexivity|intros; reflexivity].
  - eexists. reflexivity.
  - eexists. split; [reflexivity|]. split.
    + intros old t rest. exists t. split; [reflexivity|].
      intros eq [= <-]. simpl. rewrite Byte_eqb_refl. done.
    + intros old t k Hk. simpl in Hk. assert (k = 0%nat) as -> by lia.
      cbv. eauto.
  - eexists. split; [reflexivity|intros; reflexivity].
Qed.

#[global] Instance Coeff_Lawful : Lawful Coeff_enc.
Proof.
  split.
  - eexists. split; [reflexivity|intros; reflexivity].
  - eexists. reflexivity.
  - eexists. split; [reflexivity|]. split.
    + intros old [t] rest. exists (mkCoeff t). split; [reflexivity|].
      intros eq [= <-]. simpl. rewrite Byte_eqb_refl. done.
    + intros old t k Hk. simpl in Hk. assert (k = 0%nat) as -> by lia.
      cbv. eauto.
  - eexists. split; [reflexivity|intros; reflexivity].
Qed.

(** * Memory *)
Section MemoryFacts.
Context {T : Type}.
Implicit Types (mm : mem T) (h m : header) (D : gset addr).

Lemma agree_on_refl D mm : agree_on D mm mm.
Proof. intros a _. done. Qed.

Lemma agree_on_dom mm mm' : agree_on (mem_dom mm) mm mm' → mem_dom mm ⊆ mem_dom mm'.
Proof.
  intros Hag a Ha. destruct (Hag a Ha) as [Ho Hi]. unfold mem_dom in *.
  apply elem_of_union in Ha as [Ha|Ha]; apply elem_of_dom in Ha.
  - apply elem_of_union_l, elem_of_dom. rewrite Ho. done.
  - apply elem_of_union_r, elem_of_dom. rewrite Hi. done.
Qed.

Lemma cells_of_length mm h l : cells_of mm h = Some l → length l = hlen h.
Proof.
  unfold cells_of. destruct (base h) as [a|].
  - destruct (inner mm !! a) as [arr|]; [|done].
    destruct (_ <=? _)%nat eqn:Hle; [|done]. apply Nat.leb_le in Hle.
    intros [= <-]. rewrite length_take, length_drop. lia.
  - destruct (hlen h =? 0)%nat eqn:Hz; [|done]. apply Nat.eqb_eq in Hz.
    intros [= <-]. done.
Qed.

Lemma rows_of_length mm m rows : rows_of mm m = Some rows → length rows = hlen m.
Proof.
  unfold rows_of. destruct (base m) as [a|].
  - destruct (outer mm !! a) as [arr|]; [|done].
    destruct (_ <=? _)%nat eqn:Hle; [|done]. apply Nat.leb_le in Hle.
    intros [= <-]. rewrite length_take, length_drop. lia.
  - destruct (hlen m =? 0)%nat eqn:Hz; [|done]. apply Nat.eqb_eq in Hz.
    intros [= <-]. done.
Qed.

Lemma cells_of_agree D mm mm' h l :
  agree_on D mm mm' → dom (inner mm) ⊆ D →
  cells_of mm h = Some l → cells_of mm' h = Some l.
Proof.
  intros Hag HD. unfold cells_of. destruct (base h) as [a|]; [|done].
  destruct (inner mm !! a) as [arr|] eqn:Ha; [|done].
  assert (a ∈ D) as HaD by (apply HD, elem_of_dom; eauto).
  destruct (Hag a HaD) as [_ ->]. rewrite Ha. done.
Qed.

Lemma rows_of_agree D mm mm' m rows :
  agree_on D mm mm' → dom (outer mm) ⊆ D →
  rows_of mm m = Some rows → rows_of mm' m = Some rows.
Proof.
  intros Hag HD. unfold rows_of. destruct (base m) as [a|]; [|done].
  destruct (outer mm !! a) as [arr|] eqn:Ha; [|done].
  assert (a ∈ D) as HaD by (apply HD, elem_of_dom; eauto).
  destruct (Hag a HaD) as [-> _]. rewrite Ha. done.
Qed.

Lemma load_agree mm mm' m xs :
  agree_on (mem_dom mm) mm mm' → load mm m = Some xs → load mm' m = Some xs.
Proof.
  intros Hag. unfold load.
  destruct (rows_of mm m) as [rows|] eqn:Hrows; [|done].
  assert (dom (outer mm) ⊆ mem_dom mm) as Ho by (unfold mem_dom; apply union_subseteq_l).
  assert (dom (inner mm) ⊆ mem_dom mm) as Hi by (unfold mem_dom; apply union_subseteq_r).
  rewrite (rows_of_agree _ _ _ _ _ Hag Ho Hrows).
  rewrite !mapM_Some. intros Hall. eapply Forall2_impl; [exact Hall|].
  intros h l Hc. eapply cells_of_agree; [exact Hag|exact Hi|done].
Qed.

Lemma index_outer_rows mm m rows i mi :
  rows_of mm m = Some rows → rows !! i = Some mi → index_outer mm m i = Ret mi.
Proof.
  unfold rows_of, index_outer. destruct (base m) as [a|].
  - destruct (outer mm !! a) as [arr|]; [|done].
    destruct (_ <=? _)%nat eqn:Hle; [|done]. intros [= <-] Hi.
    apply lookup_take_Some in Hi as [Hi Hlt]. rewrite lookup_drop in Hi.
    apply Nat.ltb_lt in Hlt. rewrite Hlt, Hi. done.
  - destruct (hlen m =? 0)%nat; [|done]. intros [= <-]. done.
Qed.

Lemma index_inner_cells mm h l j x :
  cells_of mm h = Some l → l !! j = Some x → index_inner mm h j = Ret x.
Proof.
  unfold cells_of, index_inner. destruct (base h) as [a|].
  - destruct (inner mm !! a) as [arr|]; [|done].
    destruct (_ <=? _)%nat eqn:Hle; [|done]. intros [= <-] Hi.
    apply lookup_take_Some in Hi as [Hi Hlt]. rewrite lookup_drop in Hi.
    apply Nat.ltb_lt in Hlt. rewrite Hlt, Hi. done.
  - destruct (hlen h =? 0)%nat; [|done]. intros [= <-]. done.
Qed.

Lemma index_outer_spec mm s i a arr v :
  base s = Some a → outer mm !! a = Some arr → (i < hlen s)%nat →
  arr !! (hoff s + i)%nat = Some v → index_outer mm s i = Ret v.
Proof.
  intros Hb Ha Hi Hv. unfold index_outer. apply Nat.ltb_lt in Hi. rewrite Hi, Hb, Ha, Hv. done.
Qed.

Lemma index_inner_spec mm s i a arr v :
  base s = Some a → inner mm !! a = Some arr → (i < hlen s)%nat →
  arr !! (hoff s + i)%nat = Some v → index_inner mm s i = Ret v.
Proof.
  intros Hb Ha Hi Hv. unfold index_inner. apply Nat.ltb_lt in Hi. rewrite Hi, Hb, Ha, Hv. done.
Qed.

Lemma assign_outer_spec mm s i v a arr :
  base s = Some a → outer mm !! a = Some arr → (i < hlen s)%nat →
  assign_outer mm s i v =
    Ret (mkMem (<[a := <[(hoff s + i)%nat := v]> arr]> (outer mm)) (inner mm)).
Proof.
  intros Hb Ha Hi. unfold assign_outer. apply Nat.ltb_lt in Hi. rewrite Hi, Hb, Ha. done.
Qed.

Lemma assign_inner_spec mm s i v a arr :
  base s = Some a → inner mm !! a = Some arr → (i < hlen s)%nat →
  assign_inner mm s i v =
    Ret (mkMem (outer mm) (<[a := <[(hoff s + i)%nat := v]> arr]> (inner mm))).
Proof.
  intros Hb Ha Hi. unfold assign_inner. apply Nat.ltb_lt in Hi. rewrite Hi, Hb, Ha. done.
Qed.

Lemma index_outer_other mm mm' s i v :
  index_outer mm s i = Ret v →
  (∀ a, base s = Some a → outer mm' !! a = outer mm !! a) →
  index_outer mm' s i = Ret v.
Proof.
  unfold index_outer. destruct (i <? hlen s)%nat; [|done].
  destruct (base s) as [a|]; [|done]. intros Hv Hsame. rewrite (Hsame a eq_refl). done.
Qed.

Lemma cells_of_other mm mm' h l :
  cells_of mm h = Some l →
  (∀ a, base h = Some a → inner mm' !! a = inner mm !! a) →
  cells_of mm' h = Some l.
Proof.
  unfold cells_of. destruct (base h) as [a|]; [|done].
  intros Hv Hsame. rewrite (Hsame a eq_refl). done.
Qed.

Lemma cells_of_base_dom mm h l a :
  cells_of mm h = Some l → base h = Some a → is_Some (inner mm !! a).
Proof.
  unfold cells_of. intros Hc Hb. rewrite Hb in Hc.
  destruct (inner mm !! a); [eauto|done].
Qed.

Lemma fresh_not_outer mm : outer mm !! fresh (mem_dom mm) = None.
Proof.
  apply not_elem_of_dom. pose proof (is_fresh (mem_dom mm)) as Hf.
  unfold mem_dom in Hf at 2. set_solver.
Qed.

Lemma fresh_not_inner mm : inner mm !! fresh (mem_dom mm) = None.
Proof.
  apply not_elem_of_dom. pose proof (is_fresh (mem_dom mm)) as Hf.
  unfold mem_dom in Hf at 2. set_solver.
Qed.

Lemma cells_of_fresh mm h l (arr : list T) :
  cells_of mm h = Some l →
  cells_of (mkMem (outer mm) (<[fresh (mem_dom mm) := arr]> (inner mm))) h = Some l.
Proof.
  unfold cells_of. simpl. destruct (base h) as [a|]; [|done].
  destruct (inner mm !! a) as [arr0|] eqn:Ha; [|done].
  rewrite lookup_insert_ne; [rewrite Ha; done|].
  intros <-. rewrite fresh_not_inner in Ha. done.
Qed.

End MemoryFacts.

Section CopyNewFacts.
Context {T : Type} `{Element T}.
Implicit Types (mm : mem T) (h m : header).

(** The state of the copy before turn [i], common to both branches: the
    memory [mm], the target [mcpy] whose array at [a0] is [arr], and row
    [i] of the source, [mi], with elements [l]. *)
Lemma CopyNew_row_native_spec mm m a0 n arr i mi l :
  index_outer mm m i = Ret mi →
  cells_of mm mi = Some l →
  outer mm !! a0 = Some arr →
  (i < n)%nat → (i < length arr)%nat →
  base m ≠ Some a0 →
  Matrix.CopyNew_row_native m (mkHeader (Some a0) 0 n n) mm i =
    Ret (row_copied (fun x => x) mm a0 arr i mi l).
Proof.
  intros Hmi Hl Harr Hin Hiarr Hbase.
  unfold Matrix.CopyNew_row_native. rewrite Hmi, bind_Ret.
  unfold make_inner. set (b := fresh (mem_dom mm)).
  set (row := mkHeader (Some b) 0 (hlen mi) (hlen mi)).
  set (mm1 := mkMem (outer mm) (<[b:=replicate (hlen mi) zero]> (inner mm))).
  rewrite (assign_outer_spec mm1 (mkHeader (Some a0) 0 n n) i row a0 arr) by done.
  rewrite bind_Ret. cbn [hoff Nat.add].
  set (mm2 := mkMem (<[a0:=<[i:=row]> arr]> (outer mm1)) (inner mm1)).
  (* dst := mcpy[i] *)
  rewrite (index_outer_spec mm2 (mkHeader (Some a0) 0 n n) i a0 (<[i:=row]> arr) row);
    [|reflexivity|apply lookup_insert_eq|exact Hin|apply list_lookup_insert_eq; exact Hiarr].
  rewrite bind_Ret.
  (* src := m[i] *)
  rewrite (index_outer_other mm mm2 m i mi Hmi).
  2:{ intros a Ha. apply lookup_insert_ne. congruence. }
  rewrite bind_Ret.
  (* copy(dst, src) *)
  pose proof (cells_of_length _ _ _ Hl) as Hlen.
  unfold copy_inner, row_copied. fold b. fold row.
  change (hlen row) with (hlen mi). rewrite Nat.min_id.
  destruct (hlen mi =? 0)%nat eqn:Hz.
  - apply Nat.eqb_eq in Hz. rewrite Hz in Hlen. destruct l; [|discriminate Hlen].
    unfold mm2, mm1, row. cbn [outer inner map]. rewrite Hz. done.
  - rewrite (cells_of_other mm mm2 mi l Hl).
    2:{ intros a Ha. apply lookup_insert_ne. intros Heq.
        destruct (cells_of_base_dom _ _ _ _ Hl Ha) as [? Hsome].
        rewrite <- Heq in Hsome. unfold b in Hsome.
        rewrite fresh_not_inner in Hsome. done. }
    change (base row) with (Some b). change (hoff row) with 0%nat.
    unfold mm2, mm1. cbn [outer inner]. rewrite lookup_insert_eq, insert_insert_eq.
    rewrite map_id, take_0. rewrite take_ge by lia.
    rewrite drop_ge by (rewrite length_replicate; lia). rewrite app_nil_r. done.
Qed.

Lemma CopyNew_cells_loop (cp : T → T) m mcpy i mi l b k :
  ∀ j mm,
    (k = hlen mi - j)%nat → (j ≤ hlen mi)%nat →
    index_outer mm m i = Ret mi →
    cells_of mm mi = Some l →
    index_outer mm mcpy i = Ret (mkHeader (Some b) 0 (hlen mi) (hlen mi)) →
    base mi ≠ Some b →
    inner mm !! b = Some (map cp (take j l) ++ replicate (hlen mi - j) zero) →
    for_range (Matrix.CopyNew_cell cp m mcpy i) (seq j k) mm =
      Ret (mkMem (outer mm) (<[b := map cp l]> (inner mm))).
Proof.
  induction k as [|k IH]; intros j mm Hk Hj Hmi Hl Hrow Hne Hb.
  - pose proof (cells_of_length _ _ _ Hl) as Hlen.
    simpl. replace (hlen mi - j)%nat with 0%nat in Hb by lia.
    rewrite take_ge, app_nil_r in Hb by lia.
    rewrite insert_id by done. destruct mm. done.
  - pose proof (cells_of_length _ _ _ Hl) as Hlen.
    assert (j < length l)%nat as Hjl by lia.
    destruct (lookup_lt_is_Some_2 l j Hjl) as [x Hx].
    cbn [seq for_range]. unfold Matrix.CopyNew_cell.
    rewrite Hmi, bind_Ret, (index_inner_cells _ _ _ _ _ Hl Hx), bind_Ret, Hrow, bind_Ret.
    rewrite (assign_inner_spec mm (mkHeader (Some b) 0 (hlen mi) (hlen mi)) j (cp x) b _
               eq_refl Hb) by (simpl; lia).
    rewrite bind_Ret. cbn [hoff Nat.add].
    set (arr := map cp (take j l) ++ replicate (hlen mi - j) zero).
    set (mm' := mkMem (outer mm) (<[b := <[j := cp x]> arr]> (inner mm))).
    etransitivity; [apply (IH (S j) mm'); [lia | lia | | | | done | ] | ].
    5:{ unfold mm'. cbn [outer inner]. rewrite insert_insert_eq. done. }
    + eapply index_outer_other; [exact Hmi|done].
    + eapply cells_of_other; [exact Hl|]. intros a Ha. unfold mm'. cbn [inner].
      apply lookup_insert_ne. congruence.
    + eapply index_outer_other; [exact Hrow|done].
    + unfold mm'. cbn [inner]. rewrite lookup_insert_eq. f_equal. unfold arr.
      replace (hlen mi - j)%nat with (S (hlen mi - S j)) by lia.
      rewrite (take_S_r l j x Hx), map_app. simpl.
      rewrite <- app_assoc. simpl.
      rewrite insert_app_r_alt by (rewrite length_map, length_take; lia).
      rewrite length_map, length_take.
      replace (j - j `min` length l)%nat with 0%nat by lia. done.
Qed.

Lemma CopyNew_row_struct_spec (cp : T → T) mm m a0 n arr i mi l :
  index_outer mm m i = Ret mi →
  cells_of mm mi = Some l →
  outer mm !! a0 = Some arr →
  (i < n)%nat → (i < length arr)%nat →
  base m ≠ Some a0 →
  Matrix.CopyNew_row_struct cp m (mkHeader (Some a0) 0 n n) mm i =
    Ret (row_copied cp mm a0 arr i mi l).
Proof.
  intros Hmi Hl Harr Hin Hiarr Hbase.
  unfold Matrix.CopyNew_row_struct. rewrite Hmi, bind_Ret.
  unfold make_inner. set (b := fresh (mem_dom mm)).
  set (row := mkHeader (Some b) 0 (hlen mi) (hlen mi)).
  set (mm1 := mkMem (outer mm) (<[b:=replicate (hlen mi) zero]> (inner mm))).
  rewrite (assign_outer_spec mm1 (mkHeader (Some a0) 0 n n) i row a0 arr) by done.
  rewrite bind_Ret. cbn [hoff Nat.add].
  set (mm2 := mkMem (<[a0:=<[i:=row]> arr]> (outer mm1)) (inner mm1)).
  assert (index_outer mm2 m i = Ret mi) as Hmi2.
  { eapply index_outer_other; [exact Hmi|]. intros a Ha. apply lookup_insert_ne. congruence. }
  rewrite Hmi2, bind_Ret.
  assert (base mi ≠ Some b) as Hne.
  { intros Ha. destruct (cells_of_base_dom _ _ _ _ Hl Ha) as [? Hsome].
    unfold b in Hsome. rewrite fresh_not_inner in Hsome. done. }
  rewrite (CopyNew_cells_loop cp m _ i mi l b (hlen mi) 0 mm2); [|lia|lia|done| | |done|].
  - unfold row_copied, mm2, mm1. fold b. fold row. cbn [outer inner].
    rewrite insert_insert_eq. done.
  - eapply cells_of_other; [exact Hl|]. intros a Ha. apply lookup_insert_ne. congruence.
  - apply (index_outer_spec mm2 (mkHeader (Some a0) 0 n n) i a0 (<[i:=row]> arr) row);
      [reflexivity|apply lookup_insert_eq|exact Hin|apply list_lookup_insert_eq; exact Hiarr].
  - unfold mm2, mm1. cbn [inner]. rewrite lookup_insert_eq, take_0, Nat.sub_0_r. done.
Qed.

Lemma fresh_not_in_dom mm (a : addr) : a ∈ mem_dom mm → a ≠ fresh (mem_dom mm).
Proof. intros Ha ->. exact (is_fresh _ Ha). Qed.

Lemma copy_invariant_step (cp : T → T) mm0 m rows xs i mm mi l arr :
  rows_of mm0 m = Some rows →
  Forall2 (fun h l => cells_of mm0 h = Some l) rows xs →
  copy_invariant cp mm0 (hlen m) xs i mm →
  rows !! i = Some mi → xs !! i = Some l →
  outer mm !! fresh (mem_dom mm0) = Some arr →
  copy_invariant cp mm0 (hlen m) xs (S i) (row_copied cp mm (fresh (mem_dom mm0)) arr i mi l).
Proof.
  intros Hrows Hxs [Hag (ys & Hys & Houter & Hcopied)] Hmi Hl Harr.
  set (a0 := fresh (mem_dom mm0)) in *. set (n := hlen m) in *.
  pose proof (agree_on_dom _ _ Hag) as Hdom.
  assert (i < n)%nat as Hin.
  { unfold n. rewrite <- (rows_of_length _ _ _ Hrows). eapply lookup_lt_Some. done. }
  assert (cells_of mm0 mi = Some l) as Hmil.
  { eapply Forall2_lookup_lr in Hxs; done. }
  pose proof (cells_of_length _ _ _ Hmil) as Hlen.
  rewrite Houter in Harr. injection Harr as <-.
  unfold row_copied. set (b := fresh (mem_dom mm)).
  assert (b ∉ mem_dom mm0) as Hb0.
  { intros Hb. apply Hdom in Hb. exact (is_fresh _ Hb). }
  split.
  - intros a Ha. cbn [outer inner]. destruct (Hag a Ha) as [Ho Hi].
    rewrite !lookup_insert_ne; [done| |].
    + intros <-. done.
    + intros <-. exact (is_fresh _ Ha).
  - exists (ys ++ [mkHeader (Some b) 0 (hlen mi) (hlen mi)]). split; [|split].
    + rewrite length_app. simpl. lia.
    + cbn [outer]. rewrite lookup_insert_eq. f_equal.
      replace (n - i)%nat with (S (n - S i)) by lia. simpl.
      rewrite insert_app_r_alt by lia. rewrite Hys, Nat.sub_diag. simpl.
      rewrite <- app_assoc. done.
    + rewrite (take_S_r xs i l Hl). apply Forall2_app.
      * eapply Forall2_impl; [exact Hcopied|]. intros h lh [Hc (c & Hbase & Hc0)].
        split; [|eauto]. eapply cells_of_other; [exact Hc|].
        intros a Ha. cbn [inner]. apply lookup_insert_ne. intros <-.
        destruct (cells_of_base_dom _ _ _ _ Hc Ha) as [? Hsome].
        unfold b in Hsome. rewrite fresh_not_inner in Hsome. done.
      * constructor; [|constructor]. split; [|eauto].
        unfold cells_of. cbn [base inner hoff hlen]. rewrite lookup_insert_eq.
        rewrite length_map, Hlen, Nat.leb_refl. rewrite drop_0, take_ge; [done|].
        rewrite length_map. lia.
Qed.

Lemma copy_loop (cp : T → T) body mm0 m rows xs :
  rows_of mm0 m = Some rows →
  Forall2 (fun h l => cells_of mm0 h = Some l) rows xs →
  (∀ mm arr i mi l,
      index_outer mm m i = Ret mi → cells_of mm mi = Some l →
      outer mm !! fresh (mem_dom mm0) = Some arr →
      (i < hlen m)%nat → (i < length arr)%nat →
      body mm i = Ret (row_copied cp mm (fresh (mem_dom mm0)) arr i mi l)) →
  ∀ k i mm,
    (k = hlen m - i)%nat → (i ≤ hlen m)%nat →
    copy_invariant cp mm0 (hlen m) xs i mm →
    ∃ mm', for_range body (seq i k) mm = Ret mm' ∧
           copy_invariant cp mm0 (hlen m) xs (hlen m) mm'.
Proof.
  intros Hrows Hxs Hbody.
  pose proof (rows_of_length _ _ _ Hrows) as Hn.
  pose proof (Forall2_length _ _ _ Hxs) as Hnx.
  induction k as [|k IH]; intros i mm Hk Hi Hinv.
  - replace i with (hlen m) in Hinv by lia. eauto.
  - cbn [seq for_range].
    destruct (lookup_lt_is_Some_2 rows i ltac:(lia)) as [mi Hmi].
    destruct (lookup_lt_is_Some_2 xs i ltac:(lia)) as [l Hl].
    pose proof Hinv as [Hag (ys & Hys & Houter & Hcopied)].
    assert (dom (outer mm0) ⊆ mem_dom mm0) as Ho by (unfold mem_dom; apply union_subseteq_l).
    assert (dom (inner mm0) ⊆ mem_dom mm0) as Hin by (unfold mem_dom; apply union_subseteq_r).
    rewrite (Hbody mm (ys ++ replicate (hlen m - i) nil_header) i mi l);
      [| | |exact Houter|lia|].
    + rewrite bind_Ret. apply IH; [lia|lia|].
      eapply copy_invariant_step; done.
    + eapply index_outer_rows; [|exact Hmi]. eapply rows_of_agree; done.
    + eapply cells_of_agree; [exact Hag|exact Hin|].
      eapply Forall2_lookup_lr in Hxs; done.
    + rewrite length_app, length_replicate. lia.
Qed.

Lemma CopyNew_spec (cp : T → T) mm m xs :
  element_copier = Some cp →
  load mm m = Some xs →
  ∃ mm' y, Matrix.CopyNew mm m = Ret (mm', y) ∧
           load mm' y = Some (map (map cp) xs) ∧
           agree_on (mem_dom mm) mm mm' ∧
           footprint mm' y ## mem_dom mm.
Proof.
  intros Hcp Hload. unfold load in Hload.
  destruct (rows_of mm m) as [rows|] eqn:Hrows; [|done].
  apply mapM_Some in Hload.
  pose proof (rows_of_length _ _ _ Hrows) as Hn.
  pose proof (Forall2_length _ _ _ Hload) as Hnx.
  set (a0 := fresh (mem_dom mm)).
  set (mcpy := mkHeader (Some a0) 0 (hlen m) (hlen m)).
  set (mm1 := mkMem (<[a0 := replicate (hlen m) nil_header]> (outer mm)) (inner mm)).
  assert (base m ≠ Some a0) as Hbase.
  { intros Hb. unfold rows_of in Hrows. rewrite Hb in Hrows. unfold a0 in Hrows.
    rewrite fresh_not_outer in Hrows. done. }
  assert (copy_invariant cp mm (hlen m) xs 0 mm1) as Hinv0.
  { split.
    - intros a Ha. unfold mm1. cbn [outer inner]. split; [|done].
      apply lookup_insert_ne. intros <-. exact (is_fresh _ Ha).
    - exists []. split; [done|]. split; [|constructor].
      unfold mm1. cbn [outer]. rewrite Nat.sub_0_r. apply lookup_insert_eq. }
  assert (∃ mm', Matrix.CopyNew mm m = Ret (mm', mcpy) ∧
                 copy_invariant cp mm (hlen m) xs (hlen m) mm') as (mm' & Hrun & Hinv).
  { unfold Matrix.CopyNew, element_copier in *. destruct (is_primitive type_of).
    - injection Hcp as <-.
      destruct (copy_loop (fun x => x) (Matrix.CopyNew_row_native m mcpy) mm m rows xs Hrows Hload)
        with (k := hlen m) (i := 0%nat) (mm := mm1) as (mm' & Hrun & Hinv);
        [|lia|lia|exact Hinv0|].
      + intros mm2 arr i mi l Hmi Hl Harr Hi Hiarr.
        apply CopyNew_row_native_spec; done.
      + exists mm'. unfold make_outer. fold a0. fold mm1. fold mcpy.
        rewrite Hrun. done.
    - rewrite Hcp.
      destruct (copy_loop cp (Matrix.CopyNew_row_struct cp m mcpy) mm m rows xs Hrows Hload)
        with (k := hlen m) (i := 0%nat) (mm := mm1) as (mm' & Hrun & Hinv);
        [|lia|lia|exact Hinv0|].
      + intros mm2 arr i mi l Hmi Hl Harr Hi Hiarr.
        apply CopyNew_row_struct_spec; done.
      + exists mm'. unfold make_outer. fold a0. fold mm1. fold mcpy.
        rewrite Hrun. done. }
  exists mm', mcpy. split; [done|].
  destruct Hinv as [Hag (ys & Hys & Houter & Hcopied)].
  rewrite Nat.sub_diag, app_nil_r in Houter. rewrite take_ge in Hcopied by lia.
  assert (rows_of mm' mcpy = Some ys) as Hrows'.
  { unfold rows_of, mcpy. cbn [base hoff hlen]. fold a0 in Houter. rewrite Houter.
    rewrite Hys, Nat.leb_refl, drop_0, take_ge by lia. done. }
  split; [|split; [done|]].
  - unfold load. rewrite Hrows'. apply mapM_Some.
    apply Forall2_fmap_r. eapply Forall2_impl; [exact Hcopied|].
    intros h l [Hc _]. done.
  - unfold footprint. rewrite Hrows'. cbn [base mcpy].
    apply disjoint_union_l. split.
    + intros a Ha Ha0. apply elem_of_list_to_set, list_elem_of_omap in Ha as (h & Hh & Hb).
      apply list_elem_of_lookup in Hh as [i Hi].
      destruct (Forall2_lookup_l _ _ _ _ _ Hcopied Hi) as (l & _ & _ & b & Hb' & Hfresh).
      rewrite Hb in Hb'. injection Hb' as <-. done.
    + apply disjoint_singleton_l. apply is_fresh.
Qed.

(** A memory that differs from the one after the copy only at addresses
    the copy owns, or at new ones, still holds the source. *)
Lemma source_untouched mm mm' mm'' m xs :
  load mm m = Some xs →
  agree_on (mem_dom mm) mm mm' →
  agree_on (mem_dom mm) mm' mm'' →
  load mm'' m = Some xs.
Proof.
  intros Hload Hag Hag'. eapply load_agree; [|exact Hload].
  intros a Ha. destruct (Hag a Ha) as [Ho Hi]. destruct (Hag' a Ha) as [Ho' Hi'].
  split; congruence.
Qed.

(** Once the element type is accepted, a panic of [CopyNew] is a runtime
    error of an index or of a pointer, never the rejection of the type. *)
Lemma index_outer_panic mm s i p : index_outer mm s i = Panic p → is_rejection p = false.
Proof. unfold index_outer. repeat case_match; intros [= <-]; done. Qed.

Lemma index_inner_panic mm s i p : index_inner mm s i = Panic p → is_rejection p = false.
Proof. unfold index_inner. repeat case_match; intros [= <-]; done. Qed.

Lemma assign_outer_panic mm s i v p :
  assign_outer mm s i v = Panic p → is_rejection p = false.
Proof. unfold assign_outer. repeat case_match; intros [= <-]; done. Qed.

Lemma assign_inner_panic mm s i v p :
  assign_inner mm s i v = Panic p → is_rejection p = false.
Proof. unfold assign_inner. repeat case_match; intros [= <-]; done. Qed.

Lemma copy_inner_panic mm dst src p :
  copy_inner mm dst src = Panic p → is_rejection p = false.
Proof. unfold copy_inner. repeat case_match; intros [= <-]; done. Qed.

Lemma for_range_panic (body : mem T → nat → outcome (mem T)) l mm p :
  (∀ mm i p, body mm i = Panic p → is_rejection p = false) →
  for_range body l mm = Panic p → is_rejection p = false.
Proof.
  intros Hbody. revert mm. induction l as [|i l IH]; simpl; intros mm; [done|].
  destruct (body mm i) as [mm'|p'] eqn:Hb.
  - rewrite bind_Ret. apply IH.
  - intros [= <-]. eapply Hbody. done.
Qed.

Lemma CopyNew_row_native_panic m mcpy mm i p :
  Matrix.CopyNew_row_native m mcpy mm i = Panic p → is_rejection p = false.
Proof.
  unfold Matrix.CopyNew_row_native.
  destruct (index_outer mm m i) as [mi|p1] eqn:H1;
    [rewrite bind_Ret|intros [= <-]; eapply index_outer_panic; done].
  destruct (make_inner zero mm (hlen mi)) as [mm1 row].
  destruct (assign_outer mm1 mcpy i row) as [mm2|p2] eqn:H2;
    [rewrite bind_Ret|intros [= <-]; eapply assign_outer_panic; done].
  destruct (index_outer mm2 mcpy i) as [dst|p3] eqn:H3;
    [rewrite bind_Ret|intros [= <-]; eapply index_outer_panic; done].
  destruct (index_outer mm2 m i) as [src|p4] eqn:H4;
    [rewrite bind_Ret|intros [= <-]; eapply index_outer_panic; done].
  apply copy_inner_panic.
Qed.

Lemma CopyNew_cell_panic (cp : T → T) m mcpy i mm j p :
  Matrix.CopyNew_cell cp m mcpy i mm j = Panic p → is_rejection p = false.
Proof.
  unfold Matrix.CopyNew_cell.
  destruct (index_outer mm m i) as [mi|p1] eqn:H1;
    [rewrite bind_Ret|intros [= <-]; eapply index_outer_panic; done].
  destruct (index_inner mm mi j) as [x|p2] eqn:H2;
    [rewrite bind_Ret|intros [= <-]; eapply index_inner_panic; done].
  destruct (index_outer mm mcpy i) as [dst|p3] eqn:H3;
    [rewrite bind_Ret|intros [= <-]; eapply index_outer_panic; done].
  apply assign_inner_panic.
Qed.

Lemma CopyNew_row_struct_panic (cp : T → T) m mcpy mm i p :
  Matrix.CopyNew_row_struct cp m mcpy mm i = Panic p → is_rejection p = false.
Proof.
  unfold Matrix.CopyNew_row_struct.
  destruct (index_outer mm m i) as [mi|p1] eqn:H1;
    [rewrite bind_Ret|intros [= <-]; eapply index_outer_panic; done].
  destruct (make_inner zero mm (hlen mi)) as [mm1 row].
  destruct (assign_outer mm1 mcpy i row) as [mm2|p2] eqn:H2;
    [rewrite bind_Ret|intros [= <-]; eapply assign_outer_panic; done].
  destruct (index_outer mm2 m i) as [mi'|p3] eqn:H3;
    [rewrite bind_Ret|intros [= <-]; eapply index_outer_panic; done].
  apply for_range_panic. intros mm3 j p3. apply CopyNew_cell_panic.
Qed.

Lemma CopyNew_accepted (cp : T → T) mm m p :
  element_copier = Some cp →
  Matrix.CopyNew mm m = Panic p → is_rejection p = false.
Proof.
  unfold element_copier, Matrix.CopyNew. destruct (is_primitive type_of).
  - intros _. destruct (make_outer mm (hlen m)) as [mm1 mcpy].
    destruct (for_range _ _ mm1) as [mm2|p'] eqn:Hloop; [intros [=]|].
    intros [= <-]. eapply for_range_panic; [|exact Hloop].
    intros mm3 i p3. apply CopyNew_row_native_panic.
  - intros ->. destruct (make_outer mm (hlen m)) as [mm1 mcpy].
    destruct (for_range _ _ mm1) as [mm2|p'] eqn:Hloop; [intros [=]|].
    intros [= <-]. eapply for_range_panic; [|exact Hloop].
    intros mm3 i p3. apply CopyNew_row_struct_panic.
Qed.

Lemma CopyNew_rejected mm m :
  element_copier = None →
  Matrix.CopyNew mm m = Panic (panic_not_comply (type_name type_of) "CopyNewer").
Proof.
  unfold element_copier, Matrix.CopyNew. destruct (is_primitive type_of); [done|].
  intros ->. done.
Qed.

Lemma Vector_Equal_total (eq : T → T → bool) v o :
  Vector.element_equal = Ret eq → ∃ b, Vector.Equal v o = Ret b.
Proof. intros Heq. unfold Vector.Equal. rewrite Heq, bind_Ret. eauto. Qed.

Lemma Equal_loop_panic (eq : T → T → bool) rows i other b p :
  Vector.element_equal = Ret eq →
  Matrix.Equal_loop rows i other b = Panic p → is_rejection p = false.
Proof.
  intros Heq. revert i b. induction rows as [|v rows IH]; simpl; intros i b; [done|].
  destruct b; [|apply IH].
  destruct (elems other !! i) as [o|]; [|intros [= <-]; done].
  destruct (Vector_Equal_total eq v o Heq) as [b' ->]. rewrite bind_Ret. apply IH.
Qed.

Lemma Equal_accepted (eq : T → T → bool) (x other : slice (slice T)) p :
  Vector.element_equal = Ret eq →
  Matrix.Equal x other = Panic p → is_rejection p = false.
Proof.
  intros Heq. unfold Matrix.Equal.
  assert (Matrix.Equal_check = Ret tt) as ->.
  { unfold Matrix.Equal_check, Vector.element_equal in *.
    destruct (is_primitive type_of); [done|]. destruct (Equatable method_set); done. }
  rewrite bind_Ret. eapply Equal_loop_panic. done.
Qed.

Lemma Equal_rejected (x other : slice (slice T)) :
  is_primitive type_of = false → Equatable method_set = None →
  Matrix.Equal x other = Panic (panic_not_comply (type_name type_of) "Equatable").
Proof.
  intros Hp He. unfold Matrix.Equal, Matrix.Equal_check. rewrite Hp, He. done.
Qed.

End CopyNewFacts.

(** * The codec of a matrix on any writer and any reader *)
Section MatrixOnStreams.
Context {T : Type} `{Element T} (enc : T → list byte) {L : Lawful enc}.

Lemma bufio_NewWriter_content s : buffer.content (bufio_NewWriter s) = accepted s.
Proof. unfold buffer.content. simpl. apply app_nil_r. Qed.

Lemma Matrix_WriteTo_returns m (w : io_Writer) :
  ∃ w' n e, Matrix.WriteTo m w = Ret (w', n, e) ∧
            buffer.wraps w' = match w with
                              | is_buffer_Writer w0 => buffer.wraps w0
                              | other_Writer _ => 1%nat
                              end.
Proof.
  destruct w as [w|s]; simpl.
  - apply (WriteTo_buffer_returns enc).
  - destruct (WriteTo_buffer_returns enc m (bufio_NewWriter s)) as (w' & n & e & Hw & Hwr).
    eauto 10.
Qed.

Lemma Matrix_WriteTo_ok m (w : io_Writer) w' n :
  Matrix.WriteTo m w = Ret (w', n, None) →
  buffer.delivered w' = io_content w ++ wire_Matrix enc m ∧
  buffer.pending w' = [] ∧
  n = wrap64 (Z.of_nat (length (wire_Matrix enc m))).
Proof.
  destruct w as [w|s]; simpl; intros Hw.
  - apply (WriteTo_buffer_ok enc) in Hw. done.
  - apply (WriteTo_buffer_ok enc) in Hw. rewrite bufio_NewWriter_content in Hw. done.
Qed.

Lemma Matrix_ReadFrom_ok m0 m (r : io_Reader) rest :
  valid_Matrix m →
  io_remaining r = wire_Matrix enc m ++ rest →
  ∃ m' r', Matrix.ReadFrom m0 r =
             Ret (m', r', wrap64 (Z.of_nat (length (wire_Matrix enc m))), None) ∧
           buffer.remaining r' = rest ∧
           Forall2 equal_rows (elems m') (elems m).
Proof.
  intros Hvalid. destruct r as [r|s]; simpl; intros Hrem.
  - apply (ReadFrom_buffer_ok enc); done.
  - apply (ReadFrom_buffer_ok enc); done.
Qed.

Lemma Matrix_WriteTo_Buffer m :
  ∃ w' n, Matrix.WriteTo m (Buffer_of_size (length (wire_Matrix enc m))) = Ret (w', n, None).
Proof.
  unfold Buffer_of_size, Matrix.WriteTo.
  destruct (WriteTo_buffer_room enc m
              (buffer.mkW (buffer.dev_Buffer (buffer.mkBuffer [] (length (wire_Matrix enc m)) 0)) 0) 0)
    as (w' & Hw & _).
  { unfold has_room. simpl. lia. }
  eauto.
Qed.

Lemma Matrix_roundtrip_holds m :
  valid_Matrix m → Matrix_roundtrip m.
Proof.
  intros Hvalid. exists (wire_Matrix enc m). split; [apply Matrix_WriteTo_Buffer|]. split.
  - intros w w' n Hw. apply Matrix_WriteTo_ok in Hw as (Hd & _ & _). done.
  - intros r m0 Hrem.
    destruct (Matrix_ReadFrom_ok m0 m r [] Hvalid) as (m' & r' & Hr & _ & Hrows).
    { rewrite app_nil_r. done. }
    eexists m', r', _. split; [exact Hr|].
    apply (Matrix_Equal_rows enc). done.
Qed.

Lemma Matrix_size_exact_holds m :
  valid_Matrix m → Matrix_size_exact enc m.
Proof.
  intros Hvalid. split; [|split].
  - destruct (Matrix.BinarySize m) as [z|p] eqn:Hz.
    + unfold Matrix.BinarySize in Hz.
      apply BinarySize_rows_sum in Hz as (sizes & Hall & ->). eauto.
    + rewrite (Matrix_BinarySize_wire enc) in Hz. done.
  - intros w w' n Hw. apply Matrix_WriteTo_ok in Hw as (Hd & Hp & ->).
    split; [apply (Matrix_BinarySize_wire enc)|]. eauto.
  - intros r m0 rest Hrem.
    destruct (Matrix_ReadFrom_ok m0 m r rest Hvalid Hrem) as (m' & r' & Hr & Hrest & _).
    eexists m', r', _. split; [exact Hr|].
    split; [apply (Matrix_BinarySize_wire enc)|]. done.
Qed.

Lemma Matrix_flushed_on_success m :
  wrapped_once_flushed_on_success (Matrix.WriteTo m) (wire_Matrix enc m).
Proof.
  intros w. destruct (Matrix_WriteTo_returns m w) as (w' & n & e & Hw & Hwraps).
  exists w', n, e. split; [done|]. split; [done|].
  intros ->. apply Matrix_WriteTo_ok in Hw as (Hd & Hp & _). done.
Qed.

Lemma Matrix_errors_propagate_holds m :
  valid_Matrix m → Matrix_errors_propagate enc m.
Proof.
  intros Hvalid. split.
  - intros r m0 k Hrem Hk.
    assert (∃ r0, buffer.remaining r0 = take k (wire_Matrix enc m) ∧
                  Matrix.ReadFrom m0 r = Matrix.ReadFrom_buffer m0 r0) as (r0 & Hr0 & ->).
    { destruct r as [r|s]; [exists r|exists (bufio_NewReader s)]; split; done. }
    destruct (ReadFrom_buffer_short enc m0 m r0 k Hvalid Hr0 Hk)
      as (m' & r' & n & e & Hr & cause & Hcause).
    exists m', r', n, e, cause. done.
  - intros acc k Hk.
    destruct (Matrix_WriteTo_returns m (other_Writer (mkSink acc (Some k))))
      as (w' & n & e & Hw & _).
    exists w', n. destruct e as [e|].
    + exists e. split; [done|]. simpl in Hw. eapply WriteTo_buffer_error. done.
    + exfalso. pose proof Hw as Hw'.
      apply Matrix_WriteTo_ok in Hw as (Hd & _ & _). simpl in Hw', Hd.
      apply WriteTo_buffer_budget in Hw'.
      pose proof (delivered_budget w' (length acc + k)%nat) as Hb.
      rewrite Hw' in Hb. specialize (Hb eq_refl).
      rewrite Hd, length_app in Hb. lia.
Qed.

Lemma Matrix_MarshalBinary_ok m :
  Z.of_nat (length (wire_Matrix enc m)) < 2 ^ 63 →
  Matrix.MarshalBinary m = Ret (wire_Matrix enc m, None).
Proof.
  intros Hsize. unfold Matrix.MarshalBinary.
  rewrite (Matrix_BinarySize_wire enc), bind_Ret.
  rewrite wrap64_small by lia.
  unfold buffer.NewBufferSize.
  destruct (_ <? 0) eqn:Hneg; [apply Z.ltb_lt in Hneg; lia|].
  rewrite bind_Ret, Nat2Z.id. unfold Matrix.WriteTo.
  destruct (WriteTo_buffer_room enc m
              (buffer.mkW (buffer.dev_Buffer (buffer.mkBuffer [] (length (wire_Matrix enc m)) 0)) 0) 0)
    as (w' & -> & Hd & _).
  { unfold has_room. simpl. lia. }
  rewrite bind_Ret, Hd. done.
Qed.

Lemma Matrix_UnmarshalBinary_ReadFrom m0 (p : list byte) (r : io_Reader) :
  io_remaining r = p →
  match Matrix.ReadFrom m0 r with
  | Ret (m', _, _, e) => Matrix.UnmarshalBinary m0 p = Ret (m', e)
  | Panic q => Matrix.UnmarshalBinary m0 p = Panic q
  end.
Proof.
  intros Hrem. unfold Matrix.UnmarshalBinary.
  assert (∃ r0, buffer.remaining r0 = p ∧
                Matrix.ReadFrom m0 r = Matrix.ReadFrom_buffer m0 r0) as (r0 & Hr0 & ->).
  { destruct r as [r|s]; [exists r|exists (bufio_NewReader s)]; split; done. }
  simpl Matrix.ReadFrom.
  pose proof (ReadFrom_buffer_indep m0 r0 (buffer.rd_Buffer (buffer.NewBuffer p))) as Hind.
  rewrite Hr0 in Hind. specialize (Hind eq_refl).
  destruct (Matrix.ReadFrom_buffer m0 r0) as [[[[m' r'] n] e]|q].
  - destruct Hind as (r2' & -> & _). done.
  - rewrite Hind. done.
Qed.

Lemma Matrix_wrappers_agree_holds m :
  Z.of_nat (length (wire_Matrix enc m)) < 2 ^ 63 → Matrix_wrappers_agree m.
Proof.
  intros Hsize. split.
  - exists (wire_Matrix enc m). split; [apply Matrix_MarshalBinary_ok; done|]. split.
    + rewrite (Matrix_BinarySize_wire enc), wrap64_small by lia. done.
    + intros w w' n Hw. apply Matrix_WriteTo_ok in Hw as (Hd & _ & _). done.
  - intros p r m0 Hrem. apply Matrix_UnmarshalBinary_ReadFrom. done.
Qed.

End MatrixOnStreams.

(** * RGSW ciphertexts *)
Section CiphertextFacts.
Context {E : Type} `{Element E} (enc : E → list byte) {L : Lawful enc}.
Implicit Types ct : rgsw.Ciphertext (E := E).

Abbreviation half0 ct := (GadgetCiphertext.Value (rgsw.Value ct).1).
Abbreviation half1 ct := (GadgetCiphertext.Value (rgsw.Value ct).2).

Lemma wire_Ciphertext_length ct :
  length (wire_Ciphertext enc ct) =
    (length (wire_Matrix enc (half0 ct)) + length (wire_Matrix enc (half1 ct)))%nat.
Proof. unfold wire_Ciphertext. apply length_app. Qed.

Lemma rgsw_BinarySize_wire ct :
  rgsw.BinarySize ct = Ret (wrap64 (Z.of_nat (length (wire_Ciphertext enc ct)))).
Proof.
  unfold rgsw.BinarySize, GadgetCiphertext.BinarySize.
  rewrite !(Matrix_BinarySize_wire enc), !bind_Ret.
  rewrite add64_wrap_l, wrap64_add_r, wire_Ciphertext_length. do 2 f_equal. lia.
Qed.

Lemma rgsw_WriteTo_buffer_returns ct w :
  ∃ w' n e, rgsw.WriteTo_buffer ct w = Ret (w', n, e) ∧ buffer.wraps w' = buffer.wraps w.
Proof.
  unfold rgsw.WriteTo_buffer, GadgetCiphertext.WriteTo, Matrix.WriteTo.
  destruct (WriteTo_buffer_returns enc (half0 ct) w) as (w1 & n1 & e1 & -> & Hw1).
  rewrite bind_Ret. destruct e1; [eauto 10|].
  destruct (WriteTo_buffer_returns enc (half1 ct) w1) as (w2 & n2 & e2 & -> & Hw2).
  rewrite bind_Ret. exists w2, (add64 n1 n2), e2. split; [done|congruence].
Qed.

Lemma rgsw_WriteTo_buffer_ok ct w w' n :
  rgsw.WriteTo_buffer ct w = Ret (w', n, None) →
  buffer.delivered w' = buffer.content w ++ wire_Ciphertext enc ct ∧
  buffer.pending w' = [] ∧
  n = wrap64 (Z.of_nat (length (wire_Ciphertext enc ct))).
Proof.
  unfold rgsw.WriteTo_buffer, GadgetCiphertext.WriteTo, Matrix.WriteTo.
  destruct (WriteTo_buffer_returns enc (half0 ct) w) as (w1 & n1 & e1 & Hw1 & _).
  rewrite Hw1, bind_Ret. destruct e1; [intros [=]|].
  destruct (WriteTo_buffer_returns enc (half1 ct) w1) as (w2 & n2 & e2 & Hw2 & _).
  rewrite Hw2, bind_Ret. intros [= <- <- ->].
  apply (WriteTo_buffer_ok enc) in Hw1 as (Hd1 & Hp1 & ->).
  apply (WriteTo_buffer_ok enc) in Hw2 as (Hd2 & Hp2 & ->).
  unfold buffer.content in Hd2 at 1. rewrite Hp1, app_nil_r, Hd1 in Hd2.
  rewrite Hd2. unfold wire_Ciphertext. rewrite <- app_assoc. split; [done|]. split; [done|].
  rewrite add64_wrap_l, wrap64_add_r, length_app. f_equal. lia.
Qed.

Lemma rgsw_WriteTo_buffer_room ct w :
  has_room w (length (wire_Ciphertext enc ct)) →
  ∃ w', rgsw.WriteTo_buffer ct w =
          Ret (w', wrap64 (Z.of_nat (length (wire_Ciphertext enc ct))), None) ∧
        buffer.delivered w' = buffer.content w ++ wire_Ciphertext enc ct.
Proof.
  rewrite wire_Ciphertext_length. intros Hroom.
  unfold rgsw.WriteTo_buffer, GadgetCiphertext.WriteTo, Matrix.WriteTo.
  destruct (WriteTo_buffer_room enc (half0 ct) w _ Hroom) as (w1 & -> & Hd1 & Hr1).
  rewrite bind_Ret.
  destruct (WriteTo_buffer_room enc (half1 ct) w1 0) as (w2 & -> & Hd2 & Hr2).
  { eapply has_room_weaken; [done|lia]. }
  rewrite bind_Ret. exists w2. split.
  - rewrite add64_wrap_l, wrap64_add_r. do 4 f_equal. lia.
  - rewrite Hd2. unfold buffer.content at 1.
    rewrite (has_room_pending w1 _ Hr1), app_nil_r, Hd1.
    unfold wire_Ciphertext. rewrite <- app_assoc. done.
Qed.

Lemma rgsw_ReadFrom_buffer_ok ct0 ct r rest :
  valid_Ciphertext ct →
  buffer.remaining r = wire_Ciphertext enc ct ++ rest →
  ∃ ct' r' n, rgsw.ReadFrom_buffer ct0 r = Ret (ct', r', n, None) ∧
              buffer.remaining r' = rest ∧
              Forall2 equal_rows (elems (half0 ct')) (elems (half0 ct)) ∧
              Forall2 equal_rows (elems (half1 ct')) (elems (half1 ct)).
Proof.
  intros [Hv0 Hv1] Hrem. unfold wire_Ciphertext in Hrem. rewrite <- app_assoc in Hrem.
  unfold rgsw.ReadFrom_buffer, GadgetCiphertext.ReadFrom, Matrix.ReadFrom.
  destruct (ReadFrom_buffer_ok enc (half0 ct0) (half0 ct) r _ Hv0 Hrem)
    as (m0' & r1 & -> & Hr1 & Hrows0).
  rewrite !bind_Ret.
  destruct (ReadFrom_buffer_ok enc (half1 ct0) (half1 ct) r1 _ Hv1 Hr1)
    as (m1' & r2 & -> & Hr2 & Hrows1).
  rewrite !bind_Ret. eexists _, r2, _. split; [done|]. done.
Qed.

Lemma rgsw_ReadFrom_buffer_indep ct0 r1 r2 :
  buffer.remaining r1 = buffer.remaining r2 →
  match rgsw.ReadFrom_buffer ct0 r1 with
  | Ret (ct', r1', n, e) =>
    ∃ r2', rgsw.ReadFrom_buffer ct0 r2 = Ret (ct', r2', n, e) ∧
           buffer.remaining r1' = buffer.remaining r2'
  | Panic p => rgsw.ReadFrom_buffer ct0 r2 = Panic p
  end.
Proof.
  intros Hsame. unfold rgsw.ReadFrom_buffer, GadgetCiphertext.ReadFrom, Matrix.ReadFrom.
  pose proof (ReadFrom_buffer_indep (half0 ct0) r1 r2 Hsame) as H0.
  destruct (Matrix.ReadFrom_buffer (half0 ct0) r1) as [[[[m0' r1a] n0] e0]|p]; [|rewrite H0; done].
  destruct H0 as (r2a & -> & Hsame'). rewrite !bind_Ret.
  destruct e0; [eauto|].
  pose proof (ReadFrom_buffer_indep (half1 ct0) r1a r2a Hsame') as H1.
  destruct (Matrix.ReadFrom_buffer (half1 ct0) r1a) as [[[[m1' r1b] n1] e1]|p]; [|rewrite H1; done].
  destruct H1 as (r2b & -> & Hsame''). rewrite !bind_Ret. eauto.
Qed.

Lemma rgsw_WriteTo_ok ct (w : io_Writer) w' n :
  rgsw.WriteTo ct w = Ret (w', n, None) →
  buffer.delivered w' = io_content w ++ wire_Ciphertext enc ct ∧ buffer.pending w' = [].
Proof.
  destruct w as [w|s]; simpl; intros Hw.
  - apply rgsw_WriteTo_buffer_ok in Hw. tauto.
  - apply rgsw_WriteTo_buffer_ok in Hw. rewrite (bufio_NewWriter_content s) in Hw. tauto.
Qed.

Lemma Ciphertext_roundtrip_holds ct :
  valid_Ciphertext ct → Ciphertext_roundtrip ct.
Proof.
  intros Hvalid. exists (wire_Ciphertext enc ct). split; [|split].
  { unfold Buffer_of_size, rgsw.WriteTo.
    destruct (rgsw_WriteTo_buffer_room ct
      (buffer.mkW (buffer.dev_Buffer (buffer.mkBuffer [] (length (wire_Ciphertext enc ct)) 0)) 0))
      as (w' & Hw & _).
    { unfold has_room. simpl. lia. }
    eauto. }
  { intros w w' n Hw. apply rgsw_WriteTo_ok in Hw as [Hd _]. done. }
  intros r ct0 Hrem.
  assert (∃ r0, buffer.remaining r0 = wire_Ciphertext enc ct ++ [] ∧
                rgsw.ReadFrom ct0 r = rgsw.ReadFrom_buffer ct0 r0) as (r0 & Hr0 & ->).
  { rewrite app_nil_r.
    destruct r as [r|s]; [exists r|exists (bufio_NewReader s)]; split; done. }
  destruct (rgsw_ReadFrom_buffer_ok ct0 ct r0 [] Hvalid Hr0) as (ct' & r' & n' & Hr & _ & H0 & H1).
  exists ct', r', n'. split; [done|].
  unfold GadgetCiphertext.Equal. split.
  - exact (proj1 (Matrix_Equal_rows enc _ _ H0)).
  - exact (proj1 (Matrix_Equal_rows enc _ _ H1)).
Qed.

Lemma Ciphertext_flushed_on_success ct :
  wrapped_once_flushed_on_success (rgsw.WriteTo ct) (wire_Ciphertext enc ct).
Proof.
  intros w.
  assert (∃ w' n e, rgsw.WriteTo ct w = Ret (w', n, e) ∧
            buffer.wraps w' = match w with
                              | is_buffer_Writer w0 => buffer.wraps w0
                              | other_Writer _ => 1%nat
                              end) as (w' & n & e & Hw & Hwraps).
  { destruct w as [w|s]; simpl.
    - apply rgsw_WriteTo_buffer_returns.
    - destruct (rgsw_WriteTo_buffer_returns ct (bufio_NewWriter s)) as (w' & n & e & Hw & Hwr).
      eauto 10. }
  exists w', n, e. split; [done|]. split; [done|].
  intros ->. apply rgsw_WriteTo_ok in Hw as [Hd Hp]. done.
Qed.

Lemma Ciphertext_wrappers_agree_holds ct :
  Z.of_nat (length (wire_Ciphertext enc ct)) < 2 ^ 63 → Ciphertext_wrappers_agree ct.
Proof.
  intros Hsize. split.
  - exists (wire_Ciphertext enc ct). split; [|split].
    + unfold rgsw.MarshalBinary. rewrite rgsw_BinarySize_wire, bind_Ret.
      rewrite wrap64_small by lia. unfold buffer.NewBufferSize.
      destruct (_ <? 0) eqn:Hneg; [apply Z.ltb_lt in Hneg; lia|].
      rewrite bind_Ret, Nat2Z.id. unfold rgsw.WriteTo.
      destruct (rgsw_WriteTo_buffer_room ct
        (buffer.mkW (buffer.dev_Buffer (buffer.mkBuffer [] (length (wire_Ciphertext enc ct)) 0)) 0))
        as (w' & -> & Hd).
      { unfold has_room. simpl. lia. }
      rewrite bind_Ret, Hd. done.
    + rewrite rgsw_BinarySize_wire, wrap64_small by lia. done.
    + intros w w' n Hw. apply rgsw_WriteTo_ok in Hw as [Hd _]. done.
  - intros p r ct0 Hrem. unfold rgsw.UnmarshalBinary.
    assert (∃ r0, buffer.remaining r0 = p ∧
                  rgsw.ReadFrom ct0 r = rgsw.ReadFrom_buffer ct0 r0) as (r0 & Hr0 & ->).
    { destruct r as [r|s]; [exists r|exists (bufio_NewReader s)]; split; done. }
    unfold rgsw.ReadFrom.
    pose proof (rgsw_ReadFrom_buffer_indep ct0 r0 (buffer.rd_Buffer (buffer.NewBuffer p))) as Hind.
    rewrite Hr0 in Hind. specialize (Hind eq_refl).
    destruct (rgsw.ReadFrom_buffer ct0 r0) as [[[[ct' r'] n] e]|q].
    + destruct Hind as (r2' & -> & _). done.
    + rewrite Hind. done.
Qed.

End CiphertextFacts.

(** * Secret keys *)
#[global] Instance byte_LawfulRing : LawfulRing byte_penc.
Proof.
  split.
  - done.
  - intros old p rest. exists p. simpl. rewrite Byte_eqb_refl. done.
  - done.
  - intros p [|d [|d' data]]; simpl; intros [=]. done.
  - done.
  - intros p. apply Byte_eqb_refl.
Qed.

Section SecretKeyFacts.
Context {Poly : Type} `{RingQP Poly} (penc : Poly → list byte) {L : LawfulRing penc}.
Implicit Types h : gmap addr (SecretKey.SecretKey (Poly := Poly)).

Lemma Poly_WriteTo_ok p (w : io_Writer) w' n :
  Poly_WriteTo p w = (w', n, None) →
  buffer.delivered w' = io_content w ++ penc p ∧ buffer.pending w' = [].
Proof.
  unfold Poly_WriteTo. rewrite (ring_encode (penc := penc)).
  set (w0 := match w with is_buffer_Writer w1 => w1 | other_Writer s => bufio_NewWriter s end).
  assert (buffer.content w0 = io_content w) as Hc.
  { destruct w; [done|apply bufio_NewWriter_content]. }
  destruct (buffer.emit w0 _) as [[w1 n1] e1] eqn:He.
  destruct (buffer.Flush w1) as [w2 e2] eqn:Hf.
  destruct e1; [intros [=]|]. intros [= <- <- ->].
  apply emit_ok in He as (He & _ & _). apply buffer_Flush_ok in Hf as [Hd Hp].
  simpl in He. rewrite Hd, He, Hc. done.
Qed.

Lemma Poly_ReadFrom_ok old p (r : io_Reader) :
  io_remaining r = penc p →
  ∃ p' r', Poly_ReadFrom old r = (p', r', Z.of_nat (length (penc p)), None) ∧
           Poly_decode old (penc p) = (p', length (penc p), None) ∧
           Poly_Equal p' p = true ∧ Poly_Equal p p' = true.
Proof.
  intros Hrem. destruct (ring_decode (penc := penc) old p []) as (p' & Hdec & He1 & He2).
  rewrite app_nil_r in Hdec. unfold Poly_ReadFrom.
  set (r0 := match r with is_buffer_Reader r1 => r1 | other_Reader s => bufio_NewReader s end).
  assert (buffer.remaining r0 = penc p) as Hr0.
  { rewrite <- Hrem. destruct r; [done|]. simpl. done. }
  destruct (parse_spec r0 (Poly_decode old) p' (length (penc p)) None) as (r' & Hp & _).
  { rewrite Hr0. done. }
  exists p', r'. done.
Qed.

Lemma Poly_WriteTo_Buffer p :
  ∃ w', Poly_WriteTo p (Buffer_of_size (length (penc p))) =
          (w', Z.of_nat (length (penc p)), None).
Proof.
  unfold Poly_WriteTo, Buffer_of_size. rewrite (ring_encode (penc := penc)).
  destruct (emit_room
              (buffer.mkW (buffer.dev_Buffer (buffer.mkBuffer [] (length (penc p)) 0)) 0)
              (penc p) 0) as (w1 & -> & Hroom & _).
  { unfold has_room. simpl. lia. }
  rewrite (buffer_Flush_room w1 0 Hroom). eauto.
Qed.

Lemma SecretKey_roundtrip_holds h sk :
  is_Some (h !! sk) → SecretKey_roundtrip h sk.
Proof.
  intros [v Hsk]. exists (penc (SecretKey.Value v)). split; [|split].
  { unfold SecretKey.WriteTo, SecretKey.deref. rewrite Hsk, bind_Ret.
    destruct (Poly_WriteTo_Buffer (SecretKey.Value v)) as (w' & ->). eauto. }
  { intros w w' n Hw. unfold SecretKey.WriteTo, SecretKey.deref in Hw.
    rewrite Hsk, bind_Ret in Hw. injection Hw as Hw.
    apply Poly_WriteTo_ok in Hw as [Hd _]. done. }
  intros r other Hrem Hne [vo Hvo].
  destruct (Poly_ReadFrom_ok (SecretKey.Value vo) (SecretKey.Value v) r Hrem)
    as (p' & r' & Hr & _ & He1 & He2).
  unfold SecretKey.ReadFrom, SecretKey.deref. rewrite Hvo, bind_Ret, Hr.
  eexists _, r', _. split; [done|].
  unfold SecretKey.Equal, SecretKey.deref.
  rewrite lookup_insert_eq, lookup_insert_ne, Hsk by done.
  rewrite !bind_Ret. simpl. rewrite He1, He2. done.
Qed.

Lemma SecretKey_wrappers_agree_holds h sk :
  is_Some (h !! sk) → SecretKey_wrappers_agree h sk.
Proof.
  intros [v Hsk]. exists (penc (SecretKey.Value v)).
  assert (SecretKey.BinarySize h (Some sk) =
            Ret (Z.of_nat (length (penc (SecretKey.Value v))))) as Hsize.
  { unfold SecretKey.BinarySize, SecretKey.deref. rewrite Hsk, bind_Ret.
    rewrite (ring_size (penc := penc)). done. }
  split; [|split; [done|split]].
  - unfold SecretKey.MarshalBinary. rewrite Hsize, bind_Ret.
    destruct (_ <? 0) eqn:Hneg; [apply Z.ltb_lt in Hneg; lia|].
    unfold SecretKey.Read, SecretKey.deref. rewrite Hsk, !bind_Ret.
    rewrite (ring_Read (penc := penc)); [done|].
    rewrite length_replicate, Nat2Z.id. done.
  - intros w w' n Hw. unfold SecretKey.WriteTo, SecretKey.deref in Hw.
    rewrite Hsk, bind_Ret in Hw. injection Hw as Hw.
    apply Poly_WriteTo_ok in Hw as [Hd _]. done.
  - intros r other Hrem [vo Hvo].
    destruct (Poly_ReadFrom_ok (SecretKey.Value vo) (SecretKey.Value v) r Hrem)
      as (p' & r' & Hr & Hdec & _).
    unfold SecretKey.ReadFrom, SecretKey.UnmarshalBinary, SecretKey.Write, SecretKey.deref.
    rewrite Hvo, !bind_Ret, Hr. eexists _, r', _. split; [done|].
    rewrite (ring_Write (penc := penc)), Hdec. done.
Qed.

End SecretKeyFacts.

Section SecretKeyCopy.
Context {Poly : Type} `{RingQP Poly}.
Implicit Types h : gmap addr (SecretKey.SecretKey (Poly := Poly)).

Lemma fresh_not_in_heap h : h !! fresh (dom h) = None.
Proof. apply not_elem_of_dom, is_fresh. Qed.

Lemma SecretKey_CopyNew_spec h x v :
  h !! x = Some v →
  SecretKey.CopyNew h (Some x) =
    Ret (<[fresh (dom h) := SecretKey.mkSecretKey (Poly_CopyNew (SecretKey.Value v))]> h,
         Some (fresh (dom h))) ∧
  h !! fresh (dom h) = None ∧ fresh (dom h) ≠ x.
Proof.
  intros Hx. pose proof (fresh_not_in_heap h) as Hy.
  unfold SecretKey.CopyNew, SecretKey.deref. rewrite Hx, bind_Ret.
  split; [done|]. split; [done|]. intros Heq. rewrite Heq in Hy. congruence.
Qed.

Lemma SecretKey_copy_independent_holds h x :
  (∀ p, Poly_Equal (Poly_CopyNew p) p = true) →
  is_Some (h !! x) → SecretKey_copy_independent h x.
Proof.
  intros Hcopy [v Hx]. destruct (SecretKey_CopyNew_spec h x v Hx) as (Hc & Hy & Hne).
  eexists _, _. split; [exact Hc|]. split; [done|]. split; [done|]. split.
  - unfold SecretKey.Equal, SecretKey.deref.
    rewrite lookup_insert_eq, lookup_insert_ne, Hx by done. rewrite !bind_Ret. simpl.
    rewrite Hcopy. done.
  - intros v' w.
    unfold SecretKey.WriteTo, SecretKey.MarshalBinary, SecretKey.BinarySize, SecretKey.Read,
      SecretKey.deref.
    rewrite insert_insert_eq, lookup_insert_ne by done. done.
Qed.

End SecretKeyCopy.

(** * Copies of matrices *)
Section MatrixCopy.
Context {T : Type} `{Element T}.

Lemma Equal_check_supported (eq : T → T → bool) :
  Vector.element_equal = Ret eq → Matrix.Equal_check = Ret tt.
Proof.
  unfold Matrix.Equal_check, Vector.element_equal.
  destruct (is_primitive type_of); [done|]. destruct (Equatable method_set); done.
Qed.

Lemma Equal_copied_rows (cp : T → T) (eq : T → T → bool) (xs : list (list T)) :
  Vector.element_equal = Ret eq → (∀ t, eq (cp t) t = true) →
  Matrix.Equal (Matrix.of_rows (map (map cp) xs)) (Matrix.of_rows xs) = Ret true.
Proof.
  intros Heq Hcp. unfold Matrix.Equal. rewrite (Equal_check_supported eq Heq), bind_Ret.
  apply Equal_loop_true. rewrite drop_0. unfold Matrix.of_rows, of_list. cbn [elems].
  rewrite !length_map, <- (length_map (fun l => mkSlice l [])), firstn_all.
  rewrite map_map. apply Forall2_fmap, Forall_Forall2_diag, Forall_forall.
  intros l _. apply (Vector_Equal_iff eq); [done|]. cbn [elems].
  apply Forall2_fmap_l, Forall_Forall2_diag, Forall_forall. intros t _. apply Hcp.
Qed.

Lemma Matrix_copy_independent_holds (cp : T → T) (eq : T → T → bool) mm x xs :
  element_copier = Some cp → Vector.element_equal = Ret eq → (∀ t, eq (cp t) t = true) →
  load mm x = Some xs →
  Matrix_copy_independent mm x xs.
Proof.
  intros Hcp Heq Hsame Hload.
  destruct (CopyNew_spec cp mm x xs Hcp Hload) as (mm' & y & Hc & Hl & Hag & Hdisj).
  exists mm', y, (map (map cp) xs). split; [done|]. split; [done|].
  split; [apply (Equal_copied_rows cp eq); done|]. split; [done|].
  intros mm'' Hframe.
  assert (load mm'' x = Some xs) as Hload''.
  { apply (source_untouched mm mm' mm'' x xs Hload Hag).
    intros a Ha. apply Hframe. intros Hin. apply (Hdisj a Hin Ha). }
  split; [done|]. unfold encoding. rewrite Hload'', Hload. done.
Qed.

End MatrixCopy.

(** * What [Equal] computes *)
Section EqualFacts.
Context {T : Type} `{Element T}.

Lemma Equal_loop_false rows i (other : Matrix.Matrix (T := T)) :
  Matrix.Equal_loop rows i other false = Ret false.
Proof. revert i. induction rows as [|v rows IH]; simpl; intros i; [done|apply IH]. Qed.

Lemma Equal_loop_true_inv (eq : T → T → bool) rows i (other : Matrix.Matrix (T := T)) :
  Vector.element_equal = Ret eq →
  Matrix.Equal_loop rows i other true = Ret true →
  Forall2 (fun v o => Vector.Equal v o = Ret true) rows
          (take (length rows) (drop i (elems other))).
Proof.
  intros Heq. revert i. induction rows as [|v rows IH]; simpl; intros i; [constructor|].
  destruct (elems other !! i) as [o|] eqn:Hi; [|discriminate].
  destruct (Vector_Equal_total eq v o Heq) as [b Hb]. rewrite Hb, bind_Ret.
  destruct b; [|rewrite Equal_loop_false; discriminate].
  intros Hrest. rewrite (drop_S _ _ _ Hi). simpl. constructor; [done|]. apply IH. done.
Qed.

Lemma Matrix_Equal_prefix (eq : T → T → bool) (m other : Matrix.Matrix (T := T)) :
  Vector.element_equal = Ret eq →
  Matrix.Equal m other = Ret true ↔
  Forall2 (fun v o => Forall2 (fun a b => eq a b = true) (elems v) (elems o))
          (elems m) (take (length (elems m)) (elems other)).
Proof.
  intros Heq. unfold Matrix.Equal.
  assert (Matrix.Equal_check = Ret tt) as ->.
  { unfold Matrix.Equal_check, Vector.element_equal in *.
    destruct (is_primitive type_of); [done|]. destruct (Equatable method_set); done. }
  rewrite bind_Ret. split.
  - intros Hloop. apply (Equal_loop_true_inv eq) in Hloop; [|done]. rewrite drop_0 in Hloop.
    eapply Forall2_impl; [exact Hloop|]. intros v o Hvo. apply (Vector_Equal_iff eq); done.
  - intros Hall. apply Equal_loop_true. rewrite drop_0.
    eapply Forall2_impl; [exact Hall|]. intros v o Hvo. apply (Vector_Equal_iff eq); done.
Qed.

End EqualFacts.

(** * The claims *)






(** C3: [Equal] does not compare the numbers of rows. A matrix with no row
    is found equal to any matrix, a matrix is found equal to any matrix it
    is a prefix of, and [Equal] panics with an index out of range when the
    receiver has more rows than the argument. *)
Theorem C3_Equal_ignores_row_count :
  Matrix.Equal empty_matrix example_matrix = Ret true ∧
  Matrix.Equal (Matrix.of_rows [[x01]]) (Matrix.of_rows [[x01]; [x02]]) = Ret true ∧
  Matrix.Equal example_matrix empty_matrix = Panic (panic_index_out_of_range 0 0) ∧
  Matrix.Equal (Matrix.of_rows [[x01]; [x02]]) (Matrix.of_rows [[x01]]) =
    Panic (panic_index_out_of_range 1 1).
Proof. repeat split; vm_compute; reflexivity. Qed.












(** C9: when the element type is neither a built-in numeric kind nor has
    the capability, [CopyNew] and [Equal] panic with the rejection of the
    type, whatever the matrix, the empty one included; when the element
    type is accepted, no panic of [CopyNew] or [Equal] is this rejection. *)
Theorem C9_unsupported_rejected {T : Type} `{Element T}
    (mm : mem T) (x : header) (m other : Matrix.Matrix (T := T)) :
  (¬ supported_by_CopyNew T →
     Matrix.CopyNew mm x = Panic (panic_not_comply (type_name type_of) "CopyNewer")) ∧
  (¬ supported_by_Equal T →
     Matrix.Equal m other = Panic (panic_not_comply (type_name type_of) "Equatable")) ∧
  (supported_by_CopyNew T → ∀ p, Matrix.CopyNew mm x = Panic p → is_rejection p = false) ∧
  (supported_by_Equal T → ∀ p, Matrix.Equal m other = Panic p → is_rejection p = false).
Proof.
  unfold supported_by_CopyNew, supported_by_Equal. repeat split.
  - intros Hno. apply CopyNew_rejected. unfold element_copier.
    destruct (is_primitive type_of); [exfalso; apply Hno; left; done|].
    destruct (CopyNewer method_set); [exfalso; apply Hno; right; eauto|done].
  - intros Hno. apply Equal_rejected.
    + destruct (is_primitive type_of); [exfalso; apply Hno; left; done|done].
    + destruct (Equatable method_set); [exfalso; apply Hno; right; eauto|done].
  - intros Hyes p.
    assert (∃ cp, element_copier = Some cp) as [cp Hcp].
    { unfold element_copier. destruct (is_primitive type_of); [eauto|].
      destruct Hyes as [?|[cp ->]]; [done|eauto]. }
    apply (CopyNew_accepted cp). exact Hcp.
  - intros Hyes p.
    assert (∃ eq, Vector.element_equal = Ret eq) as [eq Heq].
    { unfold Vector.element_equal. destruct (is_primitive type_of); [eauto|].
      destruct Hyes as [?|[eq ->]]; [done|eauto]. }
    apply (Equal_accepted eq). exact Heq.
Qed.

Lemma C9_unsupported_rejected_witness :
  Matrix.CopyNew (T := Opaque) empty_mem nil_header =
    Panic (panic_not_comply "Opaque" "CopyNewer") ∧
  Matrix.Equal (T := Opaque) (Matrix.of_rows []) (Matrix.of_rows []) =
    Panic (panic_not_comply "Opaque" "Equatable").
Proof.
  destruct (C9_unsupported_rejected (T := Opaque) empty_mem nil_header
              (Matrix.of_rows []) (Matrix.of_rows [])) as (Hcopy & Hequal & _).
  split.
  - apply Hcopy. intros [Hp|[cp Hc]]; discriminate.
  - apply Hequal. intros [Hp|[eq He]]; discriminate.
Defined.

(** C10: [CopyNew] on the nil pointer returns the nil pointer and leaves
    the heap as it is; on the address of a key it returns a new address,
    where it stores a key whose value is the [CopyNew] of the value of the
    receiver. *)
Theorem C10_CopyNew_nil_tolerant {Poly : Type} `{RingQP Poly}
    (h : gmap addr SecretKey.SecretKey) (x : addr) (v : SecretKey.SecretKey) :
  h !! x = Some v →
  SecretKey.CopyNew h None = Ret (h, None) ∧
  ∃ y, SecretKey.CopyNew h (Some x) =
         Ret (<[y := SecretKey.mkSecretKey (Poly_CopyNew (SecretKey.Value v))]> h, Some y) ∧
       h !! y = None ∧ y ≠ x.
Proof.
  intros Hx. split; [reflexivity|].
  exists (fresh (dom h)). apply SecretKey_CopyNew_spec. exact Hx.
Qed.

Lemma C10_CopyNew_nil_tolerant_witness :
  SecretKey.CopyNew example_heap None = Ret (example_heap, None) ∧
  ∃ y, SecretKey.CopyNew example_heap (Some 1%positive) =
         Ret (<[y := SecretKey.mkSecretKey x2a]> example_heap, Some y) ∧
       example_heap !! y = None ∧ y ≠ 1%positive.
Proof.
  exact (C10_CopyNew_nil_tolerant example_heap 1%positive (SecretKey.mkSecretKey x2a) eq_refl).
Defined.

(** X1: [Matrix.Equal] returns [true] exactly when the rows of the receiver are
    equal, element by element, to the first rows of the argument: the rows
    that the argument has beyond those of the receiver are not looked at. *)
Theorem Equal_compares_a_prefix {T : Type} `{Element T} (eq : T → T → bool)
    (m other : Matrix.Matrix (T := T)) :
  Vector.element_equal = Ret eq →
  Matrix.Equal m other = Ret true ↔
  Forall2 (fun v o => Forall2 (fun a b => eq a b = true) (elems v) (elems o))
          (elems m) (take (length (elems m)) (elems other)).
Proof. apply Matrix_Equal_prefix. Qed.

Lemma Equal_compares_a_prefix_witness :
  Matrix.Equal (Matrix.of_rows [[x01]]) (Matrix.of_rows [[x01]; [x02]]) = Ret true.
Proof.
  apply (Equal_compares_a_prefix Byte.eqb); [reflexivity|].
  repeat constructor.
Defined.

(** * [Equal], completely *)
Section EqualComplete.
Context {T : Type} `{Element T}.
Implicit Types m other : Matrix.Matrix (T := T).

Lemma Vector_Equal_rows_equal (eq : T → T → bool) (v o : slice T) :
  Vector.element_equal = Ret eq → Vector.Equal v o = Ret (rows_equal eq v o).
Proof. intros Heq. unfold Vector.Equal. rewrite Heq. done. Qed.

(** The loop of [Equal] from row [i] on: it answers [false] as soon as two
    rows differ, panics when the rows of [other] run out before a
    difference is found, and answers [true] otherwise. *)
Lemma Equal_loop_spec (eq : T → T → bool) rows i other :
  Vector.element_equal = Ret eq →
  Matrix.Equal_loop rows i other true =
    if forallb (fun p => rows_equal eq p.1 p.2) (zip rows (drop i (elems other)))
    then if (length rows <=? length (drop i (elems other)))%nat
         then Ret true
         else Panic (panic_index_out_of_range (i + length (drop i (elems other)))
                                              (length (elems other)))
    else Ret false.
Proof.
  intros Heq. revert i. induction rows as [|v rows IH]; intros i; [done|].
  cbn [Matrix.Equal_loop].
  destruct (elems other !! i) as [o|] eqn:Hi.
  - rewrite (drop_S _ _ _ Hi). cbn [zip zip_with forallb fst snd length].
    rewrite (Vector_Equal_rows_equal eq) by done. rewrite bind_Ret.
    destruct (rows_equal eq v o); cbn [andb].
    + rewrite IH. replace (i + S (length (drop (S i) (elems other))))%nat
        with (S i + length (drop (S i) (elems other)))%nat by lia. done.
    + apply Equal_loop_false.
  - apply lookup_ge_None in Hi. rewrite (drop_ge _ _ Hi). cbn.
    f_equal. f_equal. lia.
Qed.

Lemma Matrix_Equal_spec (eq : T → T → bool) m other :
  Vector.element_equal = Ret eq →
  Matrix.Equal m other =
    if forallb (fun p => rows_equal eq p.1 p.2) (zip (elems m) (elems other))
    then if (length (elems m) <=? length (elems other))%nat
         then Ret true
         else Panic (panic_index_out_of_range (length (elems other)) (length (elems other)))
    else Ret false.
Proof.
  intros Heq. unfold Matrix.Equal. rewrite (Equal_check_supported eq Heq), bind_Ret.
  rewrite (Equal_loop_spec eq) by done. rewrite drop_0. done.
Qed.

Lemma rows_equal_sym (eq : T → T → bool) (v o : slice T) :
  (∀ a b, eq a b = eq b a) → rows_equal eq v o = rows_equal eq o v.
Proof.
  intros Hsym. unfold rows_equal. f_equal.
  - apply bool_decide_ext. split; intros ->; done.
  - generalize (elems o). induction (elems v) as [|a l IH]; intros [|b l']; simpl; try done.
    rewrite Hsym, IH. done.
Qed.

Lemma forallb_zip_sym {A : Type} (f : A → A → bool) (l l' : list A) :
  (∀ a b, f a b = f b a) →
  forallb (fun p => f p.1 p.2) (zip l l') = forallb (fun p => f p.1 p.2) (zip l' l).
Proof.
  intros Hsym. revert l'. induction l as [|a l IH]; intros [|b l']; simpl; try done.
  rewrite Hsym, IH. done.
Qed.

Lemma Matrix_Equal_sym (eq : T → T → bool) m other :
  Vector.element_equal = Ret eq →
  (∀ a b, eq a b = eq b a) →
  length (elems m) = length (elems other) →
  Matrix.Equal m other = Matrix.Equal other m.
Proof.
  intros Heq Hsym Hlen. rewrite !(Matrix_Equal_spec eq) by done.
  rewrite (forallb_zip_sym (rows_equal eq)) by (intros; apply rows_equal_sym; done).
  rewrite Hlen, !Nat.leb_refl. done.
Qed.

End EqualComplete.

(** * [Equal] as a relation *)
Section EqualRelation.
Context {T : Type} `{Element T} (eq : T → T → bool).
Implicit Types m : Matrix.Matrix (T := T).

Lemma Matrix_Equal_refl m :
  Vector.element_equal = Ret eq → (∀ a, eq a a = true) → Matrix.Equal m m = Ret true.
Proof.
  intros Heq Hrefl. apply (Matrix_Equal_prefix eq); [done|]. rewrite firstn_all.
  apply Forall_Forall2_diag, Forall_forall. intros v _.
  apply Forall_Forall2_diag, Forall_forall. intros a _. apply Hrefl.
Qed.

Lemma Matrix_Equal_trans m1 m2 m3 :
  Vector.element_equal = Ret eq →
  (∀ a b c, eq a b = true → eq b c = true → eq a c = true) →
  Matrix.Equal m1 m2 = Ret true → Matrix.Equal m2 m3 = Ret true →
  Matrix.Equal m1 m3 = Ret true.
Proof.
  intros Heq Htrans H12 H23.
  apply (Matrix_Equal_prefix eq) in H12; [|done]. apply (Matrix_Equal_prefix eq) in H23; [|done].
  apply (Matrix_Equal_prefix eq); [done|].
  pose proof (Forall2_length _ _ _ H12) as Hlen. rewrite length_take in Hlen.
  apply (Forall2_take _ _ _ (length (elems m1))) in H23.
  rewrite take_take in H23. replace (length (elems m1) `min` length (elems m2))%nat
    with (length (elems m1)) in H23 by lia.
  revert H12 H23. generalize (take (length (elems m1)) (elems m2)).
  generalize (take (length (elems m1)) (elems m3)). generalize (elems m1).
  intros l1 l3 l2 H12. revert l3. induction H12 as [|v o l1 l2 Hvo _ IH]; intros l3 H23.
  - inversion H23. constructor.
  - inversion H23 as [|o' p l2' l3' Hop Hrest]; subst. constructor; [|apply IH; done].
    clear -Hvo Hop Htrans. revert Hvo Hop. generalize (elems v) (elems o) (elems p).
    intros a b c Hab. revert c. induction Hab as [|x y a b Hxy _ IH]; intros c Hbc.
    + inversion Hbc. constructor.
    + inversion Hbc; subst. constructor; [eapply Htrans; done|apply IH; done].
Qed.

End EqualRelation.

Lemma Byte_eqb_sym a b : Byte.eqb a b = Byte.eqb b a.
Proof.
  destruct (Byte.eqb a b) eqn:Hab.
  - apply Byte.byte_dec_bl in Hab as ->. symmetry. apply Byte_eqb_refl.
  - destruct (Byte.eqb b a) eqn:Hba; [|done].
    apply Byte.byte_dec_bl in Hba as ->. rewrite Byte_eqb_refl in Hab. done.
Qed.

Lemma Byte_eqb_trans a b c : Byte.eqb a b = true → Byte.eqb b c = true → Byte.eqb a c = true.
Proof. intros ->%Byte.byte_dec_bl ->%Byte.byte_dec_bl. apply Byte_eqb_refl. Qed.

(** * [ReadFrom] and the header it is given *)
Section ReadFromHeader.
Context {T : Type} `{Element T}.
Implicit Types m : Matrix.Matrix (T := T).

(** Any eight bytes are a header: [ReadAsUint64] reads them as an [int]. *)
Lemma ReadAsUint64_any r c0 u rest :
  buffer.remaining r = le_split 8 u ++ rest →
  ∃ r', buffer.ReadAsUint64 r c0 = (r', wrap64 (u mod 2 ^ 64), 8, None) ∧
        buffer.remaining r' = rest.
Proof.
  intros Hrem. unfold buffer.ReadAsUint64.
  destruct (buffer.ReadFull r 8) as [[r' bs] e] eqn:Hr.
  apply ReadFull_spec in Hr as (Hr' & Hbs & He). rewrite Hrem in *.
  assert (length (le_split 8 u) = 8%nat) as Hl by apply length_le_split.
  rewrite take_app_length' in Hbs by done. rewrite drop_app_length' in Hr' by done.
  destruct e as [e|].
  { destruct He as [_ He]. rewrite length_app, Hl in He. discriminate He. lia. }
  subst bs. unfold int_of_uint64. rewrite le_combine_split.
  change (Z.of_nat 8 * 8) with 64. eauto.
Qed.

Lemma io_Reader_buffer (r : io_Reader) m0 :
  ∃ r0, buffer.remaining r0 = io_remaining r ∧
        Matrix.ReadFrom m0 r = Matrix.ReadFrom_buffer m0 r0.
Proof. destruct r as [r|s]; [exists r|exists (bufio_NewReader s)]; done. Qed.

Lemma ReadFrom_negative_size m0 (r : io_Reader) u rest :
  2 ^ 63 ≤ u < 2 ^ 64 →
  io_remaining r = le_split 8 u ++ rest →
  Matrix.ReadFrom m0 r = Panic (panic_slice_bounds (u - 2 ^ 64)).
Proof.
  intros Hu Hrem. destruct (io_Reader_buffer r m0) as (r0 & Hr0 & ->).
  rewrite <- Hr0 in Hrem. unfold Matrix.ReadFrom_buffer.
  destruct (ReadAsUint64_any r0 0 u rest Hrem) as (r1 & -> & _).
  assert (wrap64 (u mod 2 ^ 64) = u - 2 ^ 64) as ->.
  { unfold wrap64. rewrite (Z.mod_small u) by lia.
    replace (u + 2 ^ 63) with (u - 2 ^ 63 + 1 * 2 ^ 64) by lia.
    rewrite Z.mod_add by lia. rewrite Z.mod_small by lia. lia. }
  destruct (_ <? 0) eqn:Hneg; [done|]. apply Z.ltb_ge in Hneg. lia.
Qed.

(** [Vector.ReadFrom] returns whenever the element type can be decoded,
    and [ReadFrom_rows] keeps the number of rows it is given. *)
Lemma Vector_ReadFrom_returns get (v : slice T) r :
  Vector.decoder = Ret get → ∃ v' r' n e, Vector.ReadFrom v r = Ret (v', r', n, e).
Proof.
  intros Hg. unfold Vector.ReadFrom. rewrite Hg, bind_Ret.
  destruct (buffer.ReadAsUint64 r 0) as [[[r1 size] n] e].
  destruct e; [eauto|]. destruct (size <? 0); [eauto|].
  destruct (Vector.read_elements _ _ _ _) as [[[l r2] n'] e']. eauto.
Qed.

Lemma ReadFrom_rows_length get (rows : list (slice T)) r n :
  Vector.decoder = Ret get →
  ∃ rows' r' n' e, Matrix.ReadFrom_rows rows r n = Ret (rows', r', n', e) ∧
                   length rows' = length rows.
Proof.
  intros Hg. revert r n. induction rows as [|v rows IH]; intros r n; simpl; [eauto 10|].
  destruct (Vector_ReadFrom_returns get v r Hg) as (v' & r1 & inc & e & ->).
  rewrite bind_Ret. destruct e; [eauto 10|].
  destruct (IH r1 (add64 n inc)) as (rows' & r' & n' & e' & -> & Hlen).
  rewrite bind_Ret. exists (v' :: rows'), r', n', e'. simpl. rewrite Hlen. done.
Qed.

Lemma ReadFrom_resizes get m0 (r : io_Reader) c rest :
  Vector.decoder = Ret get →
  0 ≤ c < 2 ^ 63 →
  io_remaining r = le_split 8 c ++ rest →
  ∃ m' r' n e,
    Matrix.ReadFrom m0 r = Ret (m', r', n, e) ∧
    len m' = c ∧
    cap m' = Z.max (cap m0) c ∧
    spare m' = drop (Z.to_nat c) (elems m0 ++ spare m0).
Proof.
  intros Hg Hc Hrem. destruct (io_Reader_buffer r m0) as (r0 & Hr0 & ->).
  rewrite <- Hr0 in Hrem. unfold Matrix.ReadFrom_buffer.
  destruct (ReadAsUint64_any r0 0 c rest Hrem) as (r1 & -> & _).
  rewrite Z.mod_small, wrap64_small by lia.
  destruct (c <? 0) eqn:Hneg; [apply Z.ltb_lt in Hneg; lia|].
  set (m1 := if cap m0 <? c then make nil_slice (Z.to_nat c) else m0).
  destruct (ReadFrom_rows_length get (elems (reslice m1 (Z.to_nat c))) r1 8 Hg)
    as (rows' & r' & n' & e & -> & Hlen).
  rewrite bind_Ret. exists (mkSlice rows' (spare (reslice m1 (Z.to_nat c)))), r', n', e.
  split; [done|].
  assert (cap m1 = Z.max (cap m0) c ∧ c ≤ cap m1 ∧
          drop (Z.to_nat c) (elems m1 ++ spare m1) = drop (Z.to_nat c) (elems m0 ++ spare m0))
    as (Hcap & Hle & Hspare).
  { unfold m1. destruct (cap m0 <? c) eqn:Hlt.
    - apply Z.ltb_lt in Hlt. unfold make, cap, len_int in *. cbn [elems spare].
      rewrite app_nil_r, length_replicate, Z2Nat.id by lia.
      split; [lia|]. split; [lia|].
      rewrite !drop_ge; [done|lia|rewrite length_replicate; lia].
    - apply Z.ltb_ge in Hlt. split; [lia|]. split; [lia|done]. }
  unfold len, cap, len_int, reslice in *. cbn [elems spare] in *.
  rewrite length_take in Hlen. rewrite length_app, length_drop, Hlen.
  split; [lia|]. split; [lia|done].
Qed.

(** A matrix with no row is encoded and decoded without a look at the
    element type. *)
Lemma no_rows_codec m (w : io_Writer) m0 (r : io_Reader) rest :
  elems m = [] →
  io_remaining r = le_split 8 0 ++ rest →
  Matrix.BinarySize m = Ret 8 ∧
  Matrix.MarshalBinary m = Ret (le_split 8 0, None) ∧
  (∃ w' n e, Matrix.WriteTo m w = Ret (w', n, e)) ∧
  (∃ m' r', Matrix.ReadFrom m0 r = Ret (m', r', 8, None) ∧ elems m' = [] ∧
            buffer.remaining r' = rest).
Proof.
  intros Hm Hrem. destruct m as [l sp]. simpl in Hm. subst l.
  split; [reflexivity|]. split; [reflexivity|]. split.
  - assert (∀ w0, ∃ w' n e, Matrix.WriteTo_buffer (mkSlice [] sp) w0 = Ret (w', n, e)) as Hw.
    { intros w0. unfold Matrix.WriteTo_buffer.
      destruct (buffer.WriteAsUint64 w0 _) as [[w1 inc] e].
      destruct e; [eauto|]. cbn [elems Matrix.WriteTo_rows].
      destruct (buffer.Flush w1) as [w2 e2]. eauto. }
    destruct w as [w|s]; apply Hw.
  - destruct (io_Reader_buffer r m0) as (r0 & Hr0 & ->).
    rewrite <- Hr0 in Hrem. unfold Matrix.ReadFrom_buffer.
    destruct (ReadAsUint64_any r0 0 0 rest Hrem) as (r1 & -> & Hr1).
    rewrite Z.mod_small, wrap64_small by lia.
    change (0 <? 0) with false. cbv iota.
    assert ((cap m0 <? 0) = false) as ->.
    { apply Z.ltb_ge. unfold cap, len_int. lia. }
    unfold reslice. cbn [Z.to_nat take elems Matrix.ReadFrom_rows].
    try rewrite bind_Ret. eauto.
Qed.

End ReadFromHeader.

(** * Whatever happens, only a prefix of the encoding is written *)
Section PrefixDevices.

Lemma Sink_Write_taken s p s' n e :
  Sink_Write s p = (s', n, e) → accepted s' = accepted s ++ take n p.
Proof.
  unfold Sink_Write. destruct (room s) as [k|].
  - destruct (length p <=? k)%nat; intros [= <- <- _]; simpl; [|done].
    rewrite firstn_all. done.
  - intros [= <- <- _]. simpl. rewrite firstn_all. done.
Qed.

(** [Flush] moves bytes from the buffer to the sink and loses none. *)
Lemma bufio_Flush_content b b' e :
  bufio.Flush b = (b', e) →
  accepted (bufio.wr b') ++ bufio.buf b' = accepted (bufio.wr b) ++ bufio.buf b.
Proof.
  unfold bufio.Flush, bufio.Buffered.
  destruct (bufio.err b); [intros [= <- _]; done|].
  destruct (length (bufio.buf b) =? 0)%nat; [intros [= <- _]; done|].
  destruct (Sink_Write (bufio.wr b) (bufio.buf b)) as [[s' n] e0] eqn:Hw.
  pose proof (Sink_Write_taken _ _ _ _ _ Hw) as Hacc.
  destruct e0 as [e0|].
  - intros [= <- _]. simpl. rewrite Hacc, <- app_assoc, take_drop. done.
  - apply Sink_Write_ok in Hw as [Hall ->]. rewrite Nat.ltb_irrefl.
    intros [= <- _]. simpl. rewrite Hall, app_nil_r. done.
Qed.

Lemma bufio_Write_turn_taken b p nn b' p' nn' :
  bufio.Write_turn (b, p, nn) = (b', p', nn') →
  ∃ k, accepted (bufio.wr b') ++ bufio.buf b' =
         accepted (bufio.wr b) ++ bufio.buf b ++ take k p ∧
       p' = drop k p.
Proof.
  unfold bufio.Write_turn, bufio.Buffered.
  destruct (length (bufio.buf b) =? 0)%nat eqn:Hlen.
  - apply Nat.eqb_eq in Hlen. destruct (bufio.buf b) eqn:Hbuf; [|discriminate].
    destruct (Sink_Write (bufio.wr b) p) as [[s' n] e] eqn:Hw.
    apply Sink_Write_taken in Hw. intros [= <- <- _]. exists n. simpl.
    rewrite Hw, app_nil_r. done.
  - destruct (bufio.Flush _) as [b1 e1] eqn:Hfl. apply bufio_Flush_content in Hfl.
    intros [= <- <- _]. eexists. split; [|done]. rewrite Hfl. simpl. done.
Qed.

Lemma bufio_Write_prefix b p b' n e :
  bufio.Write b p = (b', n, e) →
  ∃ d, d `prefix_of` p ∧
       accepted (bufio.wr b') ++ bufio.buf b' = accepted (bufio.wr b) ++ bufio.buf b ++ d.
Proof.
  unfold bufio.Write.
  set (st0 := (b, p, 0%nat)).
  set (st1 := if bufio.Write_cond st0 then bufio.Write_turn st0 else st0).
  set (st2 := if bufio.Write_cond st1 then bufio.Write_turn st1 else st1).
  assert (∃ k1, accepted (bufio.wr st1.1.1) ++ bufio.buf st1.1.1 =
                  accepted (bufio.wr b) ++ bufio.buf b ++ take k1 p ∧
                st1.1.2 = drop k1 p) as (k1 & H1 & P1).
  { unfold st1. destruct (bufio.Write_cond st0).
    - destruct (bufio.Write_turn st0) as [[b1 p1] n1] eqn:Ht.
      apply bufio_Write_turn_taken in Ht. done.
    - exists 0%nat. simpl. rewrite take_0, drop_0, app_nil_r. done. }
  assert (∃ k2, accepted (bufio.wr st2.1.1) ++ bufio.buf st2.1.1 =
                  accepted (bufio.wr b) ++ bufio.buf b ++ take k2 p ∧
                st2.1.2 = drop k2 p) as (k2 & H2 & P2).
  { unfold st2. destruct (bufio.Write_cond st1).
    - destruct st1 as [[b1 p1] n1]. cbn [fst snd] in H1, P1.
      destruct (bufio.Write_turn (b1, p1, n1)) as [[b2 p2] n2] eqn:Ht.
      apply bufio_Write_turn_taken in Ht as (k & Hk & ->). cbn [fst snd]. subst p1.
      exists (k1 + k)%nat. split; [|apply drop_drop].
      rewrite Hk, app_assoc, H1, <- !app_assoc, take_take_drop. done.
    - eauto. }
  destruct st2 as [[b2 p2] nn]. cbn [fst snd] in H2, P2.
  destruct (bufio.err b2).
  - intros [= <- _ _]. exists (take k2 p). split; [apply prefix_take|done].
  - intros [= <- _ _]. exists p. split; [done|]. simpl.
    rewrite app_assoc, H2, P2, <- !app_assoc, take_drop. done.
Qed.

Lemma buffer_Write_prefix w p w' n e :
  buffer.Write w p = (w', n, e) →
  ∃ d, d `prefix_of` p ∧ buffer.content w' = buffer.content w ++ d.
Proof.
  unfold buffer.Write, buffer.content, buffer.delivered, buffer.pending.
  destruct (buffer.dev w) as [b|b] eqn:Hdev.
  - destruct (_ <=? _)%nat; intros [= <- _ _]; simpl.
    + exists p. rewrite !app_nil_r. done.
    + exists []. rewrite Hdev, !app_nil_r. split; [apply prefix_nil|done].
  - destruct (bufio.Write b p) as [[b' n'] e'] eqn:Hw. intros [= <- _ _]. simpl.
    apply bufio_Write_prefix in Hw as (d & Hd & Hc). exists d. rewrite Hc, app_assoc. done.
Qed.

Lemma buffer_Flush_content w w' e :
  buffer.Flush w = (w', e) → buffer.content w' = buffer.content w.
Proof.
  unfold buffer.Flush, buffer.content, buffer.delivered, buffer.pending.
  destruct (buffer.dev w) as [b|b] eqn:Hdev.
  - intros [= <- _]. rewrite Hdev. done.
  - destruct (bufio.Flush b) as [b' e'] eqn:Hf. intros [= <- _]. simpl.
    apply bufio_Flush_content in Hf. done.
Qed.

Lemma emit_prefix w out w' n e :
  buffer.emit w out = (w', n, e) →
  ∃ d, d `prefix_of` out.1 ∧ buffer.content w' = buffer.content w ++ d.
Proof.
  unfold buffer.emit. destruct (buffer.Write w out.1) as [[w1 n1] e1] eqn:Hw.
  apply buffer_Write_prefix in Hw. destruct e1; intros [= <- _ _]; done.
Qed.

Lemma WriteAsUint64_prefix w c w' n e :
  buffer.WriteAsUint64 w c = (w', n, e) →
  ∃ d, d `prefix_of` le_split 8 c ∧ buffer.content w' = buffer.content w ++ d.
Proof.
  unfold buffer.WriteAsUint64.
  destruct (buffer.Write w _) as [[w1 n1] e1] eqn:Hw.
  apply buffer_Write_prefix in Hw. rewrite le_split_uint64 in Hw. intros [= <- _ _]. done.
Qed.

End PrefixDevices.

Section PrefixContainers.
Context {T : Type} `{Element T} (enc : T → list byte) {L : Lawful enc}.

#[local] Arguments wire_Vector : simpl never.
#[local] Arguments wire_Matrix : simpl never.

Lemma write_elements_prefix (put : T → list byte * option error) l w n w' n' e :
  (∀ t, (put t).1 = enc t) →
  Vector.write_elements put l w n = (w', n', e) →
  ∃ d, d `prefix_of` concat (map enc l) ∧ buffer.content w' = buffer.content w ++ d.
Proof.
  intros Hput. revert w n. induction l as [|t l IH]; simpl; intros w n.
  - intros [= <- _ _]. exists []. rewrite app_nil_r. done.
  - destruct (buffer.emit w (put t)) as [[w1 inc] e1] eqn:Hemit.
    destruct e1 as [e1|].
    + intros [= <- _ _]. apply emit_prefix in Hemit as (d & Hd & Hc).
      rewrite Hput in Hd. exists d. split; [apply prefix_app_r; done|done].
    + intros Hrest. apply emit_ok in Hemit as (Hc & _ & _). rewrite Hput in Hc.
      apply IH in Hrest as (d & Hd & Hc').
      exists (enc t ++ d). split; [apply prefix_app; done|].
      rewrite Hc', Hc, <- app_assoc. done.
Qed.

Lemma Vector_WriteTo_prefix v w w' n e :
  Vector.WriteTo v w = Ret (w', n, e) →
  ∃ d, d `prefix_of` wire_Vector enc v ∧ buffer.content w' = buffer.content w ++ d.
Proof.
  destruct lawful_encoder as (put & Hp & Hput).
  unfold Vector.WriteTo. rewrite Hp, bind_Ret.
  destruct (buffer.WriteAsUint64 w (len v)) as [[w1 inc] e1] eqn:Hhdr.
  destruct e1 as [e1|].
  - intros [= <- _ _]. apply WriteAsUint64_prefix in Hhdr as (d & Hd & Hc).
    exists d. split; [apply prefix_app_r; done|done].
  - intros [= Hw]. apply WriteAsUint64_ok in Hhdr as [Hc _].
    rewrite le_split_uint64 in Hc.
    apply write_elements_prefix in Hw as (d & Hd & Hc'); [|intros t; rewrite Hput; done].
    exists (le_split 8 (len v) ++ d). split; [apply prefix_app; done|].
    rewrite Hc', Hc, <- app_assoc. done.
Qed.

Lemma WriteTo_rows_prefix rows w n w' n' e :
  Matrix.WriteTo_rows rows w n = Ret (w', n', e) →
  ∃ d, d `prefix_of` concat (map (wire_Vector enc) rows) ∧
       buffer.content w' = buffer.content w ++ d.
Proof.
  revert w n. induction rows as [|v rows IH]; intros w n; cbn [Matrix.WriteTo_rows];
    rewrite ?map_cons, ?concat_cons.
  - destruct (buffer.Flush w) as [w1 e1] eqn:Hf. intros [= <- _ _].
    apply buffer_Flush_content in Hf. exists []. rewrite app_nil_r. split; [apply prefix_nil|done].
  - destruct (Vector_WriteTo_returns enc v w) as (w1 & inc & e1 & Hv & _).
    rewrite Hv, bind_Ret. destruct e1 as [e1|].
    + intros [= <- _ _]. apply Vector_WriteTo_prefix in Hv as (d & Hd & Hc).
      exists d. split; [apply prefix_app_r; done|done].
    + intros Hrest. apply (Vector_WriteTo_ok enc) in Hv as [Hc _].
      apply IH in Hrest as (d & Hd & Hc').
      exists (wire_Vector enc v ++ d). split; [apply prefix_app; done|].
      rewrite Hc', Hc, <- app_assoc. done.
Qed.

Lemma WriteTo_buffer_prefix (m : Matrix.Matrix (T := T)) w w' n e :
  Matrix.WriteTo_buffer m w = Ret (w', n, e) →
  ∃ d, d `prefix_of` wire_Matrix enc m ∧ buffer.content w' = buffer.content w ++ d.
Proof.
  unfold Matrix.WriteTo_buffer.
  destruct (buffer.WriteAsUint64 w (len m)) as [[w1 inc] e1] eqn:Hhdr.
  destruct e1 as [e1|].
  - intros [= <- _ _]. apply WriteAsUint64_prefix in Hhdr as (d & Hd & Hc).
    exists d. split; [apply prefix_app_r; done|done].
  - intros Hw. apply WriteAsUint64_ok in Hhdr as [Hc _].
    rewrite (le_split_uint64 (len m)) in Hc.
    apply WriteTo_rows_prefix in Hw as (d & Hd & Hc').
    exists (le_split 8 (len m) ++ d). split; [apply prefix_app; done|].
    rewrite Hc', Hc, <- app_assoc. done.
Qed.

Lemma Matrix_WriteTo_prefix (m : Matrix.Matrix (T := T)) (w : io_Writer) :
  ∃ w' n e d,
    Matrix.WriteTo m w = Ret (w', n, e) ∧
    d `prefix_of` wire_Matrix enc m ∧
    buffer.content w' = io_content w ++ d ∧
    (e = None → d = wire_Matrix enc m ∧ buffer.pending w' = []).
Proof.
  destruct (Matrix_WriteTo_returns enc m w) as (w' & n & e & Hw & _).
  assert (∃ w0, Matrix.WriteTo m w = Matrix.WriteTo_buffer m w0 ∧
                buffer.content w0 = io_content w) as (w0 & Hw0 & Hc0).
  { destruct w as [w|s]; [exists w|exists (bufio_NewWriter s)]; split; try done.
    apply bufio_NewWriter_content. }
  pose proof Hw as Hw'. rewrite Hw0 in Hw'.
  apply WriteTo_buffer_prefix in Hw' as (d & Hd & Hc).
  exists w', n, e, d. split; [done|]. split; [done|]. rewrite <- Hc0. split; [done|].
  intros ->. apply (Matrix_WriteTo_ok enc) in Hw as (Hdel & Hp & _). split; [|done].
  unfold buffer.content in Hc. rewrite Hp, app_nil_r, Hdel, <- Hc0 in Hc.
  apply app_inv_head in Hc. done.
Qed.

Lemma rgsw_WriteTo_prefix (ct : rgsw.Ciphertext (E := T)) (w : io_Writer) :
  ∃ w' n e d,
    rgsw.WriteTo ct w = Ret (w', n, e) ∧
    d `prefix_of` wire_Ciphertext enc ct ∧
    buffer.content w' = io_content w ++ d ∧
    (e = None → d = wire_Ciphertext enc ct ∧ buffer.pending w' = []).
Proof.
  assert (∃ w0, rgsw.WriteTo ct w = rgsw.WriteTo_buffer ct w0 ∧
                buffer.content w0 = io_content w) as (w0 & -> & <-).
  { destruct w as [w|s]; [exists w|exists (bufio_NewWriter s)]; split; try done.
    apply bufio_NewWriter_content. }
  unfold rgsw.WriteTo_buffer, GadgetCiphertext.WriteTo, Matrix.WriteTo, wire_Ciphertext.
  destruct (WriteTo_buffer_returns enc (GadgetCiphertext.Value (rgsw.Value ct).1) w0)
    as (w1 & n1 & e1 & Hw1 & _).
  rewrite Hw1, bind_Ret. destruct e1 as [e1|].
  - apply WriteTo_buffer_prefix in Hw1 as (d & Hd & Hc).
    exists w1, n1, (Some e1), d. split; [done|]. split; [apply prefix_app_r; done|].
    split; [done|]. intros [=].
  - destruct (WriteTo_buffer_returns enc (GadgetCiphertext.Value (rgsw.Value ct).2) w1)
      as (w2 & n2 & e2 & Hw2 & _).
    rewrite Hw2, bind_Ret.
    pose proof (WriteTo_buffer_ok enc _ _ _ _ Hw1) as (Hd1 & Hp1 & _).
    assert (buffer.content w1 = buffer.content w0 ++
              wire_Matrix enc (GadgetCiphertext.Value (rgsw.Value ct).1)) as Hc1.
    { unfold buffer.content at 1. rewrite Hp1, app_nil_r. done. }
    pose proof (WriteTo_buffer_prefix _ _ _ _ _ Hw2) as (d & Hd & Hc).
    exists w2, (add64 n1 n2), e2,
      (wire_Matrix enc (GadgetCiphertext.Value (rgsw.Value ct).1) ++ d).
    split; [done|]. split; [apply prefix_app; done|].
    split; [rewrite Hc, Hc1, <- app_assoc; done|].
    intros ->. apply (WriteTo_buffer_ok enc) in Hw2 as (Hd2 & Hp2 & _). split; [|done].
    unfold buffer.content in Hc at 1. rewrite Hp2, app_nil_r, Hd2 in Hc.
    apply app_inv_head in Hc. rewrite Hc. done.
Qed.

End PrefixContainers.

(** * [MarshalBinary] and [UnmarshalBinary] together *)
Section MarshalFacts.
Context {T : Type} `{Element T} (enc : T → list byte) {L : Lawful enc}.

Lemma NewBuffer_remaining (p : list byte) :
  buffer.remaining (buffer.rd_Buffer (buffer.NewBuffer p)) = p.
Proof. done. Qed.

Lemma Matrix_UnmarshalBinary_ok (m0 m : Matrix.Matrix (T := T)) junk :
  valid_Matrix m →
  ∃ m', Matrix.UnmarshalBinary m0 (wire_Matrix enc m ++ junk) = Ret (m', None) ∧
        Matrix.Equal m' m = Ret true ∧ Matrix.Equal m m' = Ret true.
Proof.
  intros Hvalid. unfold Matrix.UnmarshalBinary, Matrix.ReadFrom.
  destruct (ReadFrom_buffer_ok enc m0 m
              (buffer.rd_Buffer (buffer.NewBuffer (wire_Matrix enc m ++ junk))) junk Hvalid)
    as (m' & r' & -> & _ & Hrows); [apply NewBuffer_remaining|].
  rewrite bind_Ret. exists m'. split; [done|]. apply (Matrix_Equal_rows enc). done.
Qed.

Lemma Matrix_UnmarshalBinary_short (m0 m : Matrix.Matrix (T := T)) k :
  valid_Matrix m →
  (k < length (wire_Matrix enc m))%nat →
  ∃ m' e, Matrix.UnmarshalBinary m0 (take k (wire_Matrix enc m)) = Ret (m', Some e).
Proof.
  intros Hvalid Hk. unfold Matrix.UnmarshalBinary, Matrix.ReadFrom.
  destruct (ReadFrom_buffer_short enc m0 m
              (buffer.rd_Buffer (buffer.NewBuffer (take k (wire_Matrix enc m)))) k Hvalid)
    as (m' & r' & n & e & -> & _); [apply NewBuffer_remaining|done|].
  rewrite bind_Ret. eauto.
Qed.

Lemma Matrix_marshal_roundtrip_holds (m m0 : Matrix.Matrix (T := T)) junk :
  valid_Matrix m →
  Z.of_nat (length (wire_Matrix enc m)) < 2 ^ 63 →
  ∃ bs, Matrix.MarshalBinary m = Ret (bs, None) ∧
    (∃ m', Matrix.UnmarshalBinary m0 (bs ++ junk) = Ret (m', None) ∧
           Matrix.Equal m' m = Ret true ∧ Matrix.Equal m m' = Ret true) ∧
    (∀ k, (k < length bs)%nat →
          ∃ m' e, Matrix.UnmarshalBinary m0 (take k bs) = Ret (m', Some e)).
Proof.
  intros Hvalid Hsize. exists (wire_Matrix enc m).
  split; [apply (Matrix_MarshalBinary_ok enc); done|]. split.
  - apply Matrix_UnmarshalBinary_ok. done.
  - intros k Hk. apply Matrix_UnmarshalBinary_short; done.
Qed.

(** ** Ciphertexts *)
Implicit Types ct : rgsw.Ciphertext (E := T).

Lemma rgsw_MarshalBinary_ok ct :
  Z.of_nat (length (wire_Ciphertext enc ct)) < 2 ^ 63 →
  rgsw.MarshalBinary ct = Ret (wire_Ciphertext enc ct, None).
Proof.
  intros Hsize. unfold rgsw.MarshalBinary. rewrite (rgsw_BinarySize_wire enc), bind_Ret.
  rewrite wrap64_small by lia. unfold buffer.NewBufferSize.
  destruct (_ <? 0) eqn:Hneg; [apply Z.ltb_lt in Hneg; lia|].
  rewrite bind_Ret, Nat2Z.id. unfold rgsw.WriteTo.
  destruct (rgsw_WriteTo_buffer_room enc ct
    (buffer.mkW (buffer.dev_Buffer (buffer.mkBuffer [] (length (wire_Ciphertext enc ct)) 0)) 0))
    as (w' & -> & Hd).
  { unfold has_room. simpl. lia. }
  rewrite bind_Ret, Hd. done.
Qed.

Lemma rgsw_MarshalBinary_concat ct :
  Z.of_nat (length (wire_Ciphertext enc ct)) < 2 ^ 63 →
  ∃ bs0 bs1,
    Matrix.MarshalBinary (GadgetCiphertext.Value (rgsw.Value ct).1) = Ret (bs0, None) ∧
    Matrix.MarshalBinary (GadgetCiphertext.Value (rgsw.Value ct).2) = Ret (bs1, None) ∧
    rgsw.MarshalBinary ct = Ret (bs0 ++ bs1, None) ∧
    rgsw.BinarySize ct = Ret (Z.of_nat (length bs0) + Z.of_nat (length bs1)).
Proof.
  intros Hsize. pose proof Hsize as Hsize'.
  rewrite (wire_Ciphertext_length enc), Nat2Z.inj_add in Hsize'.
  eexists _, _. split; [apply (Matrix_MarshalBinary_ok enc); lia|].
  split; [apply (Matrix_MarshalBinary_ok enc); lia|].
  split; [apply rgsw_MarshalBinary_ok; done|].
  rewrite (rgsw_BinarySize_wire enc), (wire_Ciphertext_length enc), Nat2Z.inj_add.
  rewrite wrap64_small by lia. done.
Qed.

Lemma rgsw_ReadFrom_buffer_exact ct0 ct r rest :
  valid_Ciphertext ct →
  buffer.remaining r = wire_Ciphertext enc ct ++ rest →
  ∃ ct' r', rgsw.ReadFrom_buffer ct0 r =
              Ret (ct', r', wrap64 (Z.of_nat (length (wire_Ciphertext enc ct))), None) ∧
            buffer.remaining r' = rest ∧
            GadgetCiphertext.Equal (rgsw.Value ct').1 (rgsw.Value ct).1 = Ret true ∧
            GadgetCiphertext.Equal (rgsw.Value ct').2 (rgsw.Value ct).2 = Ret true.
Proof.
  intros [Hv0 Hv1] Hrem. unfold wire_Ciphertext in Hrem. rewrite <- app_assoc in Hrem.
  rewrite (wire_Ciphertext_length enc).
  unfold rgsw.ReadFrom_buffer, GadgetCiphertext.ReadFrom, Matrix.ReadFrom.
  destruct (ReadFrom_buffer_ok enc (GadgetCiphertext.Value (rgsw.Value ct0).1)
              (GadgetCiphertext.Value (rgsw.Value ct).1) r _ Hv0 Hrem)
    as (m0' & r1 & -> & Hr1 & Hrows0).
  rewrite !bind_Ret.
  destruct (ReadFrom_buffer_ok enc (GadgetCiphertext.Value (rgsw.Value ct0).2)
              (GadgetCiphertext.Value (rgsw.Value ct).2) r1 _ Hv1 Hr1)
    as (m1' & r2 & -> & Hr2 & Hrows1).
  rewrite !bind_Ret. eexists _, r2. split; [|split; [done|]].
  - rewrite add64_wrap_l, wrap64_add_r. do 4 f_equal. lia.
  - unfold GadgetCiphertext.Equal. cbn [rgsw.Value fst snd GadgetCiphertext.Value]. split.
    + exact (proj1 (Matrix_Equal_rows enc _ _ Hrows0)).
    + exact (proj1 (Matrix_Equal_rows enc _ _ Hrows1)).
Qed.

Lemma rgsw_io_Reader (r : io_Reader) ct0 :
  ∃ r0, buffer.remaining r0 = io_remaining r ∧
        rgsw.ReadFrom ct0 r = rgsw.ReadFrom_buffer ct0 r0.
Proof. destruct r as [r|s]; [exists r|exists (bufio_NewReader s)]; done. Qed.

Lemma rgsw_size_exact_holds ct :
  valid_Ciphertext ct →
  (∃ a b, Matrix.BinarySize (GadgetCiphertext.Value (rgsw.Value ct).1) = Ret a ∧
          Matrix.BinarySize (GadgetCiphertext.Value (rgsw.Value ct).2) = Ret b ∧
          rgsw.BinarySize ct = Ret (add64 a b)) ∧
  (∀ (w : io_Writer) w' n,
      rgsw.WriteTo ct w = Ret (w', n, None) →
      rgsw.BinarySize ct = Ret n ∧
      ∃ bs, buffer.delivered w' = io_content w ++ bs ∧ buffer.pending w' = [] ∧
            n = wrap64 (Z.of_nat (length bs))) ∧
  (∀ (r : io_Reader) (ct0 : rgsw.Ciphertext (E := T)) rest,
      io_remaining r = wire_Ciphertext enc ct ++ rest →
      ∃ ct' r' n,
        rgsw.ReadFrom ct0 r = Ret (ct', r', n, None) ∧
        rgsw.BinarySize ct = Ret n ∧
        buffer.remaining r' = rest).
Proof.
  intros Hvalid. split; [|split].
  - eexists _, _. split; [apply (Matrix_BinarySize_wire enc)|].
    split; [apply (Matrix_BinarySize_wire enc)|].
    unfold rgsw.BinarySize, GadgetCiphertext.BinarySize.
    rewrite !(Matrix_BinarySize_wire enc), !bind_Ret. done.
  - intros w w' n Hw.
    assert (∃ w0, rgsw.WriteTo ct w = rgsw.WriteTo_buffer ct w0 ∧
                  buffer.content w0 = io_content w) as (w0 & Hw0 & Hc0).
    { destruct w as [w|s]; [exists w|exists (bufio_NewWriter s)]; split; try done.
      apply bufio_NewWriter_content. }
    rewrite Hw0 in Hw. apply (rgsw_WriteTo_buffer_ok enc) in Hw as (Hd & Hp & ->).
    split; [apply (rgsw_BinarySize_wire enc)|].
    exists (wire_Ciphertext enc ct). rewrite <- Hc0. done.
  - intros r ct0 rest Hrem. destruct (rgsw_io_Reader r ct0) as (r0 & Hr0 & ->).
    rewrite <- Hr0 in Hrem.
    destruct (rgsw_ReadFrom_buffer_exact ct0 ct r0 rest Hvalid Hrem) as (ct' & r' & Hr & Hrest & _).
    eexists ct', r', _. split; [exact Hr|]. split; [apply (rgsw_BinarySize_wire enc)|done].
Qed.

Lemma rgsw_ReadFrom_buffer_short ct0 ct r k :
  valid_Ciphertext ct →
  buffer.remaining r = take k (wire_Ciphertext enc ct) →
  (k < length (wire_Ciphertext enc ct))%nat →
  ∃ ct' r' n e,
    rgsw.ReadFrom_buffer ct0 r = Ret (ct', r', n, Some e) ∧
    ((k < length (wire_Matrix enc (GadgetCiphertext.Value (rgsw.Value ct).1)))%nat →
     (rgsw.Value ct').2 = (rgsw.Value ct0).2).
Proof.
  intros [Hv0 Hv1] Hrem Hk. rewrite (wire_Ciphertext_length enc) in Hk.
  unfold wire_Ciphertext in Hrem.
  unfold rgsw.ReadFrom_buffer, GadgetCiphertext.ReadFrom, Matrix.ReadFrom.
  destruct (decide (k < length (wire_Matrix enc (GadgetCiphertext.Value (rgsw.Value ct).1)))%nat)
    as [Hlt|Hge].
  - rewrite take_app_le in Hrem by lia.
    destruct (ReadFrom_buffer_short enc (GadgetCiphertext.Value (rgsw.Value ct0).1) _ r k Hv0 Hrem Hlt)
      as (m' & r' & n & e & -> & _).
    rewrite !bind_Ret. eexists _, r', n, e. split; [done|]. done.
  - rewrite take_app_ge in Hrem by lia.
    destruct (ReadFrom_buffer_ok enc (GadgetCiphertext.Value (rgsw.Value ct0).1) _ r _ Hv0 Hrem)
      as (m0' & r1 & -> & Hr1 & _).
    rewrite !bind_Ret.
    destruct (ReadFrom_buffer_short enc (GadgetCiphertext.Value (rgsw.Value ct0).2) _ r1 _ Hv1 Hr1)
      as (m' & r' & n & e & -> & _); [lia|].
    rewrite !bind_Ret. eexists _, r', _, e. split; [done|]. lia.
Qed.

Lemma rgsw_marshal_roundtrip_holds ct ct0 junk :
  valid_Ciphertext ct →
  Z.of_nat (length (wire_Ciphertext enc ct)) < 2 ^ 63 →
  ∃ bs, rgsw.MarshalBinary ct = Ret (bs, None) ∧
    (∃ ct', rgsw.UnmarshalBinary ct0 (bs ++ junk) = Ret (ct', None) ∧
            GadgetCiphertext.Equal (rgsw.Value ct').1 (rgsw.Value ct).1 = Ret true ∧
            GadgetCiphertext.Equal (rgsw.Value ct').2 (rgsw.Value ct).2 = Ret true) ∧
    (∀ k, (k < length bs)%nat →
          ∃ ct' e, rgsw.UnmarshalBinary ct0 (take k bs) = Ret (ct', Some e)).
Proof.
  intros Hvalid Hsize. exists (wire_Ciphertext enc ct).
  split; [apply rgsw_MarshalBinary_ok; done|]. split.
  - unfold rgsw.UnmarshalBinary, rgsw.ReadFrom.
    destruct (rgsw_ReadFrom_buffer_exact ct0 ct
                (buffer.rd_Buffer (buffer.NewBuffer (wire_Ciphertext enc ct ++ junk))) junk Hvalid)
      as (ct' & r' & -> & _ & He0 & He1); [apply NewBuffer_remaining|].
    rewrite bind_Ret. eauto.
  - intros k Hk. unfold rgsw.UnmarshalBinary, rgsw.ReadFrom.
    destruct (rgsw_ReadFrom_buffer_short ct0 ct
                (buffer.rd_Buffer (buffer.NewBuffer (take k (wire_Ciphertext enc ct)))) k Hvalid)
      as (ct' & r' & n & e & -> & _); [apply NewBuffer_remaining|done|].
    rewrite bind_Ret. eauto.
Qed.

Lemma rgsw_errors_propagate_holds ct :
  valid_Ciphertext ct →
  (∀ (r : io_Reader) (ct0 : rgsw.Ciphertext (E := T)) k,
      io_remaining r = take k (wire_Ciphertext enc ct) →
      (k < length (wire_Ciphertext enc ct))%nat →
      ∃ ct' r' n e,
        rgsw.ReadFrom ct0 r = Ret (ct', r', n, Some e) ∧
        ((k < length (wire_Matrix enc (GadgetCiphertext.Value (rgsw.Value ct).1)))%nat →
         (rgsw.Value ct').2 = (rgsw.Value ct0).2)) ∧
  (∀ acc k,
      (k < length (wire_Ciphertext enc ct))%nat →
      ∃ w' n e d,
        rgsw.WriteTo ct (other_Writer (mkSink acc (Some k))) = Ret (w', n, Some e) ∧
        d `prefix_of` wire_Ciphertext enc ct ∧
        buffer.content w' = acc ++ d).
Proof.
  intros Hvalid. split.
  - intros r ct0 k Hrem Hk. destruct (rgsw_io_Reader r ct0) as (r0 & Hr0 & ->).
    rewrite <- Hr0 in Hrem. apply rgsw_ReadFrom_buffer_short; done.
  - intros acc k Hk.
    destruct (rgsw_WriteTo_prefix enc ct (other_Writer (mkSink acc (Some k))))
      as (w' & n & e & d & Hw & Hd & Hc & Hok).
    exists w', n. destruct e as [e|]; [eauto 10|]. exfalso.
    destruct (Hok eq_refl) as [-> Hp].
    assert (budget w' = Some (length acc + k)%nat) as Hb.
    { assert (budget (bufio_NewWriter (mkSink acc (Some k))) = Some (length acc + k)%nat)
        as Hb0 by done.
      revert Hw Hb0. unfold rgsw.WriteTo, rgsw.WriteTo_buffer, GadgetCiphertext.WriteTo,
        Matrix.WriteTo. generalize (bufio_NewWriter (mkSink acc (Some k))). intros w0.
      destruct (WriteTo_buffer_returns enc (GadgetCiphertext.Value (rgsw.Value ct).1) w0)
        as (w1 & n1 & e1 & Hw1 & _).
      rewrite Hw1, bind_Ret. destruct e1; [intros [=]|].
      destruct (WriteTo_buffer_returns enc (GadgetCiphertext.Value (rgsw.Value ct).2) w1)
        as (w2 & n2 & e2 & Hw2 & _).
      rewrite Hw2, bind_Ret. intros [= <- _ _] Hb0.
      apply WriteTo_buffer_budget in Hw1, Hw2. congruence. }
    pose proof (delivered_budget w' _ Hb) as Hle.
    unfold buffer.content in Hc. rewrite Hp, app_nil_r in Hc. simpl in Hc.
    rewrite Hc, length_app in Hle. lia.
Qed.

End MarshalFacts.

(** * Secret keys: allocation, the binary wrappers, the nil pointer *)
Section SecretKeyMore.
Context {Poly : Type} `{RingQP Poly}.
Implicit Types h : gmap addr (SecretKey.SecretKey (Poly := Poly)).

Lemma SecretKey_MarshalBinary_ok (penc : Poly → list byte) {L : LawfulRing penc} h sk v :
  h !! sk = Some v →
  SecretKey.MarshalBinary h (Some sk) = Ret (penc (SecretKey.Value v), None).
Proof.
  intros Hsk. unfold SecretKey.MarshalBinary, SecretKey.BinarySize, SecretKey.deref.
  rewrite Hsk, !bind_Ret, (ring_size (penc := penc)).
  destruct (_ <? 0) eqn:Hneg; [apply Z.ltb_lt in Hneg; lia|].
  unfold SecretKey.Read, SecretKey.deref. rewrite Hsk, !bind_Ret.
  rewrite (ring_Read (penc := penc)); [done|].
  rewrite length_replicate, Nat2Z.id. done.
Qed.

Lemma SecretKey_UnmarshalBinary_ok (penc : Poly → list byte) {L : LawfulRing penc}
    h a old (p : Poly) :
  h !! a = Some old →
  ∃ p', SecretKey.UnmarshalBinary h (Some a) (penc p) =
          Ret (<[a := SecretKey.mkSecretKey p']> h, None) ∧
        Poly_Equal p' p = true ∧ Poly_Equal p p' = true.
Proof.
  intros Ha. destruct (ring_decode (penc := penc) (SecretKey.Value old) p [])
    as (p' & Hdec & He1 & He2).
  rewrite app_nil_r in Hdec.
  unfold SecretKey.UnmarshalBinary, SecretKey.Write, SecretKey.deref.
  rewrite Ha, !bind_Ret, (ring_Write (penc := penc)), Hdec. exists p'. done.
Qed.

Lemma NewSecretKey_roundtrip_holds (penc : Poly → list byte) {L : LawfulRing penc}
    {Parameters : Type} (NewPoly : Parameters → Poly) h sk params :
  is_Some (h !! sk) →
  ∃ h1 a bs h2,
    NewSecretKey NewPoly h params = (h1, Some a) ∧
    h !! a = None ∧
    SecretKey.MarshalBinary h1 (Some sk) = Ret (bs, None) ∧
    SecretKey.UnmarshalBinary h1 (Some a) bs = Ret (h2, None) ∧
    SecretKey.Equal h2 (Some a) (Some sk) = Ret true ∧
    SecretKey.Equal h2 (Some sk) (Some a) = Ret true ∧
    h2 !! sk = h !! sk.
Proof.
  intros [v Hsk]. pose proof (fresh_not_in_heap h) as Hfresh.
  set (a := fresh (dom h)) in *.
  assert (a ≠ sk) as Hne by (intros ->; congruence).
  set (h1 := <[a := SecretKey.mkSecretKey (NewPoly params)]> h).
  assert (h1 !! sk = Some v) as Hsk1 by (unfold h1; rewrite lookup_insert_ne; done).
  assert (h1 !! a = Some (SecretKey.mkSecretKey (NewPoly params))) as Ha1
    by (unfold h1; apply lookup_insert_eq).
  destruct (SecretKey_UnmarshalBinary_ok penc h1 a _ (SecretKey.Value v) Ha1)
    as (p' & Hu & He1 & He2).
  exists h1, a, (penc (SecretKey.Value v)), (<[a := SecretKey.mkSecretKey p']> h1).
  split; [done|]. split; [done|].
  split; [apply (SecretKey_MarshalBinary_ok penc); done|]. split; [done|].
  unfold SecretKey.Equal, SecretKey.deref.
  rewrite lookup_insert_eq, lookup_insert_ne, Hsk1 by done. rewrite !bind_Ret. simpl.
  rewrite He1, He2, Hsk. done.
Qed.

Lemma SecretKey_nil_receiver h (other : option addr) (w : io_Writer) (r : io_Reader)
    (data : list byte) :
  SecretKey.Equal h None other = Panic panic_nil_dereference ∧
  SecretKey.LevelQ h None = Panic panic_nil_dereference ∧
  SecretKey.LevelP h None = Panic panic_nil_dereference ∧
  SecretKey.BinarySize h None = Panic panic_nil_dereference ∧
  SecretKey.MarshalBinary h None = Panic panic_nil_dereference ∧
  SecretKey.WriteTo h None w = Panic panic_nil_dereference ∧
  SecretKey.Read h None data = Panic panic_nil_dereference ∧
  SecretKey.UnmarshalBinary h None data = Panic panic_nil_dereference ∧
  SecretKey.ReadFrom h None r = Panic panic_nil_dereference ∧
  SecretKey.Write h None data = Panic panic_nil_dereference ∧
  SecretKey.CopyNew h None = Ret (h, None).
Proof. repeat split. Qed.

End SecretKeyMore.

(** * [CopyNew], exactly *)
Section CopyNewExact.
Context {T : Type} `{Element T}.

Lemma CopyNew_header mm x mm' y :
  Matrix.CopyNew mm x = Ret (mm', y) →
  y = mkHeader (Some (fresh (mem_dom mm))) 0 (hlen x) (hlen x).
Proof.
  unfold Matrix.CopyNew, make_outer.
  destruct (is_primitive type_of).
  - destruct (for_range _ _ _); [|discriminate]. rewrite bind_Ret. intros [= _ <-]. done.
  - destruct (CopyNewer method_set); [|discriminate].
    destruct (for_range _ _ _); [|discriminate]. rewrite bind_Ret. intros [= _ <-]. done.
Qed.

Lemma CopyNew_exact_holds (cp : T → T) mm x xs :
  element_copier = Some cp →
  load mm x = Some xs →
  ∃ mm' y,
    Matrix.CopyNew mm x = Ret (mm', y) ∧
    load mm' y = Some (map (map cp) xs) ∧
    load mm' x = Some xs ∧
    base y = Some (fresh (mem_dom mm)) ∧ hlen y = hlen x ∧ hcap y = hlen x ∧
    (is_primitive type_of = true → load mm' y = Some xs).
Proof.
  intros Hcp Hload.
  destruct (CopyNew_spec cp mm x xs Hcp Hload) as (mm' & y & Hc & Hl & Hag & _).
  exists mm', y. split; [done|]. split; [done|].
  split; [eapply load_agree; done|].
  rewrite (CopyNew_header _ _ _ _ Hc). cbn [base hlen hcap].
  split; [done|]. split; [done|]. split; [done|].
  intros Hprim. rewrite (CopyNew_header _ _ _ _ Hc) in Hl. rewrite Hl.
  unfold element_copier in Hcp. rewrite Hprim in Hcp. injection Hcp as <-.
  f_equal. rewrite <- (map_id xs) at 2. apply map_ext. intros l. apply map_id.
Qed.

End CopyNewExact.

(** * What a reader draws from the source underneath *)
Section SourceLeft.

Lemma bufio_ReadFull_source b k b' bs e :
  bufio.ReadFull b k = (b', bs, e) → ∃ i, bufio.rd b' = drop i (bufio.rd b).
Proof.
  unfold bufio.ReadFull.
  set (b1 := if (length (bufio.rbuf b) <? k)%nat then bufio.fill b else b).
  assert (∃ i, bufio.rd b1 = drop i (bufio.rd b)) as (i & Hi).
  { unfold b1. destruct (_ <? _)%nat; [eexists; done|exists 0%nat; done]. }
  destruct (k <=? length (bufio.rbuf b1))%nat eqn:Hk.
  - intros [= <- _ _]. eauto.
  - apply Nat.leb_gt in Hk. destruct (k <=? _)%nat.
    + intros [= <- _ _]. simpl. rewrite drop_app_ge, Hi, drop_drop by lia. eauto.
    + intros [= <- _ _]. simpl. exists (length (bufio.rd b)). rewrite drop_all. done.
Qed.

Lemma ReadFull_source r k r' bs e :
  buffer.ReadFull r k = (r', bs, e) →
  ∃ i, buffer.source_left r' = drop i (buffer.source_left r).
Proof.
  destruct r as [b|b]; simpl.
  - destruct (k <=? _)%nat; intros [= <- _ _]; simpl; rewrite <- drop_drop; eauto.
  - destruct (bufio.ReadFull b k) as [[b' bs'] e'] eqn:Hr. intros [= <- _ _]. simpl.
    apply bufio_ReadFull_source in Hr. done.
Qed.

Lemma parse_source {A} r (f : list byte → A * nat * option error) a r' n e :
  buffer.parse r f = (a, r', n, e) →
  ∃ i, buffer.source_left r' = drop i (buffer.source_left r).
Proof.
  unfold buffer.parse. destruct (f (buffer.remaining r)) as [[a0 n0] e0].
  destruct (buffer.ReadFull r n0) as [[r1 bs] e1] eqn:Hr. simpl.
  intros [= _ <- _ _]. apply ReadFull_source in Hr. done.
Qed.

Lemma ReadAsUint64_source r c r' v n e :
  buffer.ReadAsUint64 r c = (r', v, n, e) →
  ∃ i, buffer.source_left r' = drop i (buffer.source_left r).
Proof.
  unfold buffer.ReadAsUint64. destruct (buffer.ReadFull r 8) as [[r1 bs] e1] eqn:Hr.
  apply ReadFull_source in Hr. destruct e1; intros [= <- _ _ _]; done.
Qed.

(** The first read through a new [bufio.Reader] fills its buffer: it
    draws up to 4096 bytes from the source. *)
Lemma first_read_fills (s : Source) c r' v n e :
  buffer.ReadAsUint64 (bufio_NewReader s) c = (r', v, n, e) →
  buffer.source_left r' = drop bufio.defaultBufSize s.
Proof.
  unfold buffer.ReadAsUint64, bufio_NewReader, buffer.ReadFull, bufio.ReadFull, bufio.NewReader.
  cbn [bufio.rbuf length]. change (0 <? 8)%nat with true. cbv iota.
  unfold bufio.fill. cbn [bufio.rbuf bufio.rd length app]. rewrite Nat.sub_0_r.
  destruct (8 <=? length (take bufio.defaultBufSize s))%nat eqn:Hk.
  - destruct (le_combine _); intros [= <- _ _ _]; done.
  - apply Nat.leb_gt in Hk. rewrite take_drop.
    assert (length s < 8)%nat as Hs.
    { rewrite length_take in Hk. unfold bufio.defaultBufSize in Hk. lia. }
    destruct (8 <=? length s)%nat eqn:Hk2; [apply Nat.leb_le in Hk2; lia|].
    intros [= <- _ _ _]. simpl. rewrite drop_ge; [done|]. unfold bufio.defaultBufSize. lia.
Qed.

Context {T : Type} `{Element T}.

Lemma read_elements_source (get : T → list byte → T * nat * option error) l r n l' r' n' e :
  Vector.read_elements get l r n = (l', r', n', e) →
  ∃ i, buffer.source_left r' = drop i (buffer.source_left r).
Proof.
  revert r n l' r' n' e. induction l as [|t l IH]; simpl; intros r n l' r' n' e.
  - intros [= _ <- _ _]. exists 0%nat. done.
  - destruct (buffer.parse r (get t)) as [[[t' r1] inc] e1] eqn:Hp.
    apply parse_source in Hp as (i & Hi). destruct e1.
    + intros [= _ <- _ _]. eauto.
    + destruct (Vector.read_elements get l r1 _) as [[[l2 r2] n2] e2] eqn:Hrest.
      apply IH in Hrest as (j & Hj). intros [= _ <- _ _].
      rewrite Hj, Hi, drop_drop. eauto.
Qed.

Lemma Vector_ReadFrom_source (v : slice T) r v' r' n e :
  Vector.ReadFrom v r = Ret (v', r', n, e) →
  ∃ i, buffer.source_left r' = drop i (buffer.source_left r).
Proof.
  unfold Vector.ReadFrom. destruct Vector.decoder as [get|]; [|discriminate].
  rewrite bind_Ret.
  destruct (buffer.ReadAsUint64 r 0) as [[[r1 size] n1] e1] eqn:Hh.
  apply ReadAsUint64_source in Hh as (i & Hi).
  destruct e1; [intros [= _ <- _ _]; eauto|].
  destruct (size <? 0); [intros [= _ <- _ _]; eauto|].
  destruct (Vector.read_elements _ _ _ _) as [[[l r2] n2] e2] eqn:Hr.
  apply read_elements_source in Hr as (j & Hj). intros [= _ <- _ _].
  rewrite Hj, Hi, drop_drop. eauto.
Qed.

Lemma ReadFrom_rows_source (rows : list (slice T)) r n rows' r' n' e :
  Matrix.ReadFrom_rows rows r n = Ret (rows', r', n', e) →
  ∃ i, buffer.source_left r' = drop i (buffer.source_left r).
Proof.
  revert r n rows' r' n' e. induction rows as [|v rows IH]; simpl; intros r n rows' r' n' e.
  - intros [= _ <- _ _]. exists 0%nat. done.
  - destruct (Vector.ReadFrom v r) as [[[[v' r1] inc] e1]|] eqn:Hv; [|discriminate].
    rewrite bind_Ret. apply Vector_ReadFrom_source in Hv as (i & Hi). destruct e1.
    + intros [= _ <- _ _]. eauto.
    + destruct (Matrix.ReadFrom_rows rows r1 _) as [[[[rs r2] n2] e2]|] eqn:Hrest; [|discriminate].
      rewrite bind_Ret. apply IH in Hrest as (j & Hj). intros [= _ <- _ _].
      rewrite Hj, Hi, drop_drop. eauto.
Qed.

Lemma ReadFrom_raw_source_holds (m0 : Matrix.Matrix (T := T)) (s : Source) m' r' n e :
  Matrix.ReadFrom m0 (other_Reader s) = Ret (m', r', n, e) →
  ∃ j, (bufio.defaultBufSize ≤ j)%nat ∧ buffer.source_left r' = drop j s.
Proof.
  unfold Matrix.ReadFrom, Matrix.ReadFrom_buffer.
  destruct (buffer.ReadAsUint64 (bufio_NewReader s) 0) as [[[r1 size] n1] e1] eqn:Hh.
  apply first_read_fills in Hh. destruct e1.
  - intros [= _ <- _ _]. eauto.
  - destruct (size <? 0); [discriminate|].
    destruct (Matrix.ReadFrom_rows _ r1 n1) as [[[[rs r2] n2] e2]|] eqn:Hrows; [|discriminate].
    rewrite bind_Ret. apply ReadFrom_rows_source in Hrows as (i & Hi).
    intros [= _ <- _ _]. rewrite Hi, Hh, drop_drop. eexists. split; [|done]. lia.
Qed.

End SourceLeft.

(** * Further properties of the code *)

(** X2: for an element type that [Equal] accepts, [m.Equal(other)] compares
    the rows of [m] with the rows of [other] at the same indices, in order.
    It answers [false] as soon as two rows differ; when no compared row
    differs it answers [true] if [other] has at least as many rows as [m],
    and panics with an index out of range at [len(other)] if [other] has
    fewer. So it never panics when [len(m) <= len(other)]. *)
Theorem Equal_closed_form {T : Type} `{Element T} (eq : T → T → bool)
    (m other : Matrix.Matrix (T := T)) :
  Vector.element_equal = Ret eq →
  Matrix.Equal m other =
    if forallb (fun p => rows_equal eq p.1 p.2) (zip (elems m) (elems other))
    then if (length (elems m) <=? length (elems other))%nat
         then Ret true
         else Panic (panic_index_out_of_range (length (elems other)) (length (elems other)))
    else Ret false.
Proof. apply Matrix_Equal_spec. Qed.

Lemma Equal_closed_form_witness :
  Matrix.Equal (Matrix.of_rows [[x01]; [x02]]) (Matrix.of_rows [[x03]]) = Ret false ∧
  Matrix.Equal (Matrix.of_rows [[x01]; [x02]]) (Matrix.of_rows [[x01]]) =
    Panic (panic_index_out_of_range 1 1).
Proof.
  split.
  - exact (Equal_closed_form Byte.eqb (Matrix.of_rows [[x01]; [x02]])
             (Matrix.of_rows [[x03]]) eq_refl).
  - exact (Equal_closed_form Byte.eqb (Matrix.of_rows [[x01]; [x02]])
             (Matrix.of_rows [[x01]]) eq_refl).
Defined.

(** X3: when the equality of the elements is reflexive, symmetric and
    transitive, [Equal] is reflexive and transitive on all matrices, and
    [m1.Equal(m2)] and [m2.Equal(m1)] agree (same answer, no panic on either
    side) whenever the two matrices have the same number of rows. *)
Theorem Equal_is_a_preorder {T : Type} `{Element T} (eq : T → T → bool)
    (m1 m2 m3 : Matrix.Matrix (T := T)) :
  Vector.element_equal = Ret eq →
  (∀ a, eq a a = true) →
  (∀ a b, eq a b = eq b a) →
  (∀ a b c, eq a b = true → eq b c = true → eq a c = true) →
  Matrix.Equal m1 m1 = Ret true ∧
  (Matrix.Equal m1 m2 = Ret true → Matrix.Equal m2 m3 = Ret true →
   Matrix.Equal m1 m3 = Ret true) ∧
  (length (elems m1) = length (elems m2) →
   Matrix.Equal m1 m2 = Matrix.Equal m2 m1 ∧ ∃ b, Matrix.Equal m1 m2 = Ret b).
Proof.
  intros Heq Hrefl Hsym Htrans. split; [apply (Matrix_Equal_refl eq); done|].
  split; [apply (Matrix_Equal_trans eq); done|].
  intros Hlen. split; [apply (Matrix_Equal_sym eq); done|].
  rewrite (Matrix_Equal_spec eq) by done. rewrite Hlen, Nat.leb_refl.
  destruct (forallb _ _); eauto.
Qed.

Lemma Equal_is_a_preorder_witness :
  Matrix.Equal (Matrix.of_rows [[x01]]) (Matrix.of_rows [[x01]]) = Ret true ∧
  (Matrix.Equal (Matrix.of_rows [[x01]]) (Matrix.of_rows [[x01]; [x02]]) = Ret true →
   Matrix.Equal (Matrix.of_rows [[x01]; [x02]]) example_matrix = Ret true →
   Matrix.Equal (Matrix.of_rows [[x01]]) example_matrix = Ret true) ∧
  (length (elems (Matrix.of_rows [[x01]])) = length (elems (Matrix.of_rows [[x01]; [x02]])) →
   Matrix.Equal (Matrix.of_rows [[x01]]) (Matrix.of_rows [[x01]; [x02]]) =
     Matrix.Equal (Matrix.of_rows [[x01]; [x02]]) (Matrix.of_rows [[x01]]) ∧
   ∃ b, Matrix.Equal (Matrix.of_rows [[x01]]) (Matrix.of_rows [[x01]; [x02]]) = Ret b).
Proof.
  apply (Equal_is_a_preorder Byte.eqb (Matrix.of_rows [[x01]]) (Matrix.of_rows [[x01]; [x02]])
           example_matrix).
  - reflexivity.
  - exact Byte_eqb_refl.
  - exact Byte_eqb_sym.
  - exact Byte_eqb_trans.
Defined.

(** X4: a stream whose first eight bytes, read as a little-endian
    [uint64], are [2^63] or more makes [ReadFrom] panic: the row count is
    negative as an [int], the capacity test [cap( *m ) < size] does not
    fire, and the reslice to [[:size]] is out of bounds. No error is
    returned. *)
Theorem ReadFrom_negative_header_panics {T : Type} `{Element T}
    (m0 : Matrix.Matrix (T := T)) (r : io_Reader) (u : Z) (rest : list byte) :
  2 ^ 63 ≤ u < 2 ^ 64 →
  io_remaining r = le_split 8 u ++ rest →
  Matrix.ReadFrom m0 r = Panic (panic_slice_bounds (u - 2 ^ 64)) ∧
  Matrix.UnmarshalBinary m0 (le_split 8 u ++ rest) = Panic (panic_slice_bounds (u - 2 ^ 64)).
Proof.
  intros Hu Hrem. split; [apply (ReadFrom_negative_size m0 r u rest); done|].
  unfold Matrix.UnmarshalBinary.
  rewrite (ReadFrom_negative_size m0
             (is_buffer_Reader (buffer.rd_Buffer (buffer.NewBuffer (le_split 8 u ++ rest))))
             u rest Hu eq_refl).
  done.
Qed.

Lemma ReadFrom_negative_header_panics_witness :
  Matrix.ReadFrom example_matrix (other_Reader (le_split 8 (2 ^ 64 - 1) ++ [x01])) =
    Panic (panic_slice_bounds (-1)) ∧
  Matrix.UnmarshalBinary example_matrix (le_split 8 (2 ^ 64 - 1) ++ [x01]) =
    Panic (panic_slice_bounds (-1)).
Proof.
  apply (ReadFrom_negative_header_panics example_matrix
           (other_Reader (le_split 8 (2 ^ 64 - 1) ++ [x01])) (2 ^ 64 - 1) [x01]).
  - lia.
  - reflexivity.
Defined.



(** X6: the codec of a matrix looks at the element type only through its
    rows. For a matrix with no row and any element type, supported or not,
    [BinarySize] is 8, [MarshalBinary] returns the eight bytes of the header,
    [WriteTo] returns without a panic, and [ReadFrom] of a header that
    announces no row succeeds with an empty matrix. *)
Theorem no_rows_no_type_check {T : Type} `{Element T}
    (m m0 : Matrix.Matrix (T := T)) (w : io_Writer) (r : io_Reader) (rest : list byte) :
  elems m = [] →
  io_remaining r = le_split 8 0 ++ rest →
  Matrix.BinarySize m = Ret 8 ∧
  Matrix.MarshalBinary m = Ret (le_split 8 0, None) ∧
  (∃ w' n e, Matrix.WriteTo m w = Ret (w', n, e)) ∧
  (∃ m' r', Matrix.ReadFrom m0 r = Ret (m', r', 8, None) ∧ elems m' = [] ∧
            buffer.remaining r' = rest).
Proof. apply no_rows_codec. Qed.

Lemma no_rows_no_type_check_witness :
  Matrix.BinarySize (T := Opaque) (Matrix.of_rows []) = Ret 8 ∧
  Matrix.MarshalBinary (T := Opaque) (Matrix.of_rows []) = Ret (le_split 8 0, None) ∧
  (∃ w' n e, Matrix.WriteTo (T := Opaque) (Matrix.of_rows [])
               (other_Writer (mkSink [] None)) = Ret (w', n, e)) ∧
  (∃ m' r', Matrix.ReadFrom (T := Opaque) (Matrix.of_rows [])
              (other_Reader (le_split 8 0 ++ [])) = Ret (m', r', 8, None) ∧
            elems m' = [] ∧ buffer.remaining r' = []).
Proof.
  apply (no_rows_no_type_check (T := Opaque) (Matrix.of_rows []) (Matrix.of_rows [])
           (other_Writer (mkSink [] None)) (other_Reader (le_split 8 0 ++ [])) []).
  - reflexivity.
  - reflexivity.
Defined.

(** X7: whether [Matrix.WriteTo] succeeds or fails, what the sink and the
    buffer hold after the call is what they held before followed by a prefix
    of the encoding of the matrix: nothing else is ever written, and no byte
    that was written is dropped. When it succeeds the prefix is the whole
    encoding and the buffer is empty. *)
Theorem WriteTo_writes_a_prefix {T : Type} `{Element T} (enc : T → list byte)
    (m : Matrix.Matrix (T := T)) (w : io_Writer) :
  Lawful enc →
  ∃ w' n e d,
    Matrix.WriteTo m w = Ret (w', n, e) ∧
    d `prefix_of` wire_Matrix enc m ∧
    buffer.content w' = io_content w ++ d ∧
    (e = None → d = wire_Matrix enc m ∧ buffer.pending w' = []).
Proof. intros L. apply (Matrix_WriteTo_prefix enc). Qed.

Lemma WriteTo_writes_a_prefix_witness :
  ∃ w' n e d,
    Matrix.WriteTo example_matrix (other_Writer (mkSink [x2a] (Some 3%nat))) = Ret (w', n, e) ∧
    d `prefix_of` wire_Matrix uint8_enc example_matrix ∧
    buffer.content w' = io_content (other_Writer (mkSink [x2a] (Some 3%nat))) ++ d ∧
    (e = None → d = wire_Matrix uint8_enc example_matrix ∧ buffer.pending w' = []).
Proof.
  apply (WriteTo_writes_a_prefix uint8_enc example_matrix
           (other_Writer (mkSink [x2a] (Some 3%nat)))).
  exact uint8_Lawful.
Defined.

(** X8: the same for [rgsw.Ciphertext.WriteTo]: success or failure, only
    a prefix of the encoding of the first half followed by the encoding of
    the second half is written; when the first half fails nothing of the
    second is written. *)
Theorem Ciphertext_WriteTo_writes_a_prefix {E : Type} `{Element E} (enc : E → list byte)
    (ct : rgsw.Ciphertext (E := E)) (w : io_Writer) :
  Lawful enc →
  ∃ w' n e d,
    rgsw.WriteTo ct w = Ret (w', n, e) ∧
    d `prefix_of` wire_Ciphertext enc ct ∧
    buffer.content w' = io_content w ++ d ∧
    (e = None → d = wire_Ciphertext enc ct ∧ buffer.pending w' = []).
Proof. intros L. apply (rgsw_WriteTo_prefix enc). Qed.

Lemma Ciphertext_WriteTo_writes_a_prefix_witness :
  ∃ w' n e d,
    rgsw.WriteTo example_ciphertext (other_Writer (mkSink [] (Some 20%nat))) = Ret (w', n, e) ∧
    d `prefix_of` wire_Ciphertext Coeff_enc example_ciphertext ∧
    buffer.content w' = io_content (other_Writer (mkSink [] (Some 20%nat))) ++ d ∧
    (e = None → d = wire_Ciphertext Coeff_enc example_ciphertext ∧ buffer.pending w' = []).
Proof.
  apply (Ciphertext_WriteTo_writes_a_prefix Coeff_enc example_ciphertext
           (other_Writer (mkSink [] (Some 20%nat)))).
  exact Coeff_Lawful.
Defined.



(** X10: the encoding of an RGSW ciphertext is the encoding of its first
    half followed by the encoding of its second half, with nothing before,
    between or after; its [BinarySize] is the sum of the two lengths. *)
Theorem Ciphertext_marshal_is_concatenation {E : Type} `{Element E} (enc : E → list byte)
    (ct : rgsw.Ciphertext (E := E)) :
  Lawful enc →
  Z.of_nat (length (wire_Ciphertext enc ct)) < 2 ^ 63 →
  ∃ bs0 bs1,
    Matrix.MarshalBinary (GadgetCiphertext.Value (rgsw.Value ct).1) = Ret (bs0, None) ∧
    Matrix.MarshalBinary (GadgetCiphertext.Value (rgsw.Value ct).2) = Ret (bs1, None) ∧
    rgsw.MarshalBinary ct = Ret (bs0 ++ bs1, None) ∧
    rgsw.BinarySize ct = Ret (Z.of_nat (length bs0) + Z.of_nat (length bs1)).
Proof. intros L. apply (rgsw_MarshalBinary_concat enc). Qed.

Lemma Ciphertext_marshal_is_concatenation_witness :
  ∃ bs0 bs1,
    Matrix.MarshalBinary (GadgetCiphertext.Value (rgsw.Value example_ciphertext).1) =
      Ret (bs0, None) ∧
    Matrix.MarshalBinary (GadgetCiphertext.Value (rgsw.Value example_ciphertext).2) =
      Ret (bs1, None) ∧
    rgsw.MarshalBinary example_ciphertext = Ret (bs0 ++ bs1, None) ∧
    rgsw.BinarySize example_ciphertext = Ret (Z.of_nat (length bs0) + Z.of_nat (length bs1)).
Proof.
  apply (Ciphertext_marshal_is_concatenation Coeff_enc example_ciphertext).
  - exact Coeff_Lawful.
  - reflexivity.
Defined.



(** X12: size exactness of an RGSW ciphertext: [BinarySize] is the sum of
    the sizes of the two halves; a successful [WriteTo] reports
    [BinarySize] and has delivered that many bytes, none left in the
    buffer; [ReadFrom] on a well-formed stream reports [BinarySize] and
    leaves in the reader it read through exactly what followed. *)
Theorem Ciphertext_size_exact {E : Type} `{Element E} (enc : E → list byte)
    (ct : rgsw.Ciphertext (E := E)) :
  Lawful enc →
  valid_Ciphertext ct →
  (∃ a b, Matrix.BinarySize (GadgetCiphertext.Value (rgsw.Value ct).1) = Ret a ∧
          Matrix.BinarySize (GadgetCiphertext.Value (rgsw.Value ct).2) = Ret b ∧
          rgsw.BinarySize ct = Ret (add64 a b)) ∧
  (∀ (w : io_Writer) w' n,
      rgsw.WriteTo ct w = Ret (w', n, None) →
      rgsw.BinarySize ct = Ret n ∧
      ∃ bs, buffer.delivered w' = io_content w ++ bs ∧ buffer.pending w' = [] ∧
            n = wrap64 (Z.of_nat (length bs))) ∧
  (∀ (r : io_Reader) (ct0 : rgsw.Ciphertext (E := E)) rest,
      io_remaining r = wire_Ciphertext enc ct ++ rest →
      ∃ ct' r' n,
        rgsw.ReadFrom ct0 r = Ret (ct', r', n, None) ∧
        rgsw.BinarySize ct = Ret n ∧
        buffer.remaining r' = rest).
Proof. intros L. apply (rgsw_size_exact_holds enc). Qed.

Lemma Ciphertext_size_exact_witness :
  (∃ a b, Matrix.BinarySize (GadgetCiphertext.Value (rgsw.Value example_ciphertext).1) = Ret a ∧
          Matrix.BinarySize (GadgetCiphertext.Value (rgsw.Value example_ciphertext).2) = Ret b ∧
          rgsw.BinarySize example_ciphertext = Ret (add64 a b)) ∧
  (∀ (w : io_Writer) w' n,
      rgsw.WriteTo example_ciphertext w = Ret (w', n, None) →
      rgsw.BinarySize example_ciphertext = Ret n ∧
      ∃ bs, buffer.delivered w' = io_content w ++ bs ∧ buffer.pending w' = [] ∧
            n = wrap64 (Z.of_nat (length bs))) ∧
  (∀ (r : io_Reader) (ct0 : rgsw.Ciphertext (E := Coeff)) rest,
      io_remaining r = wire_Ciphertext Coeff_enc example_ciphertext ++ rest →
      ∃ ct' r' n,
        rgsw.ReadFrom ct0 r = Ret (ct', r', n, None) ∧
        rgsw.BinarySize example_ciphertext = Ret n ∧
        buffer.remaining r' = rest).
Proof.
  apply (Ciphertext_size_exact Coeff_enc example_ciphertext).
  - exact Coeff_Lawful.
  - split; (split; [reflexivity|repeat constructor]).
Defined.

(** X13: failures of [rgsw.Ciphertext.ReadFrom] and [WriteTo] reach the
    caller. A truncated encoding makes [ReadFrom] return an error; when
    the stream ends inside the first half, the second half of the receiver
    is left as it was. A sink with less room than the encoding makes
    [WriteTo] return an error, and what was written is a prefix of the
    encoding. *)
Theorem Ciphertext_errors_propagate {E : Type} `{Element E} (enc : E → list byte)
    (ct : rgsw.Ciphertext (E := E)) :
  Lawful enc →
  valid_Ciphertext ct →
  (∀ (r : io_Reader) (ct0 : rgsw.Ciphertext (E := E)) k,
      io_remaining r = take k (wire_Ciphertext enc ct) →
      (k < length (wire_Ciphertext enc ct))%nat →
      ∃ ct' r' n e,
        rgsw.ReadFrom ct0 r = Ret (ct', r', n, Some e) ∧
        ((k < length (wire_Matrix enc (GadgetCiphertext.Value (rgsw.Value ct).1)))%nat →
         (rgsw.Value ct').2 = (rgsw.Value ct0).2)) ∧
  (∀ acc k,
      (k < length (wire_Ciphertext enc ct))%nat →
      ∃ w' n e d,
        rgsw.WriteTo ct (other_Writer (mkSink acc (Some k))) = Ret (w', n, Some e) ∧
        d `prefix_of` wire_Ciphertext enc ct ∧
        buffer.content w' = acc ++ d).
Proof. intros L. apply (rgsw_errors_propagate_holds enc). Qed.

Lemma Ciphertext_errors_propagate_witness :
  (∀ (r : io_Reader) (ct0 : rgsw.Ciphertext (E := Coeff)) k,
      io_remaining r = take k (wire_Ciphertext Coeff_enc example_ciphertext) →
      (k < length (wire_Ciphertext Coeff_enc example_ciphertext))%nat →
      ∃ ct' r' n e,
        rgsw.ReadFrom ct0 r = Ret (ct', r', n, Some e) ∧
        ((k < length (wire_Matrix Coeff_enc
                        (GadgetCiphertext.Value (rgsw.Value example_ciphertext).1)))%nat →
         (rgsw.Value ct').2 = (rgsw.Value ct0).2)) ∧
  (∀ acc k,
      (k < length (wire_Ciphertext Coeff_enc example_ciphertext))%nat →
      ∃ w' n e d,
        rgsw.WriteTo example_ciphertext (other_Writer (mkSink acc (Some k))) =
          Ret (w', n, Some e) ∧
        d `prefix_of` wire_Ciphertext Coeff_enc example_ciphertext ∧
        buffer.content w' = acc ++ d).
Proof.
  apply (Ciphertext_errors_propagate Coeff_enc example_ciphertext).
  - exact Coeff_Lawful.
  - split; (split; [reflexivity|repeat constructor]).
Defined.

(** X14: a key made by [NewSecretKey] lives at an address of its own, and
    receives the key of another address through the binary wrappers:
    [MarshalBinary] of the source succeeds, [UnmarshalBinary] of these
    bytes into the new key succeeds, the two keys are then [Equal], and the
    source is unchanged. *)
Theorem NewSecretKey_marshal_roundtrip {Poly : Type} `{RingQP Poly} (penc : Poly → list byte)
    {Parameters : Type} (NewPoly : Parameters → Poly)
    (h : gmap addr SecretKey.SecretKey) (sk : addr) (params : Parameters) :
  LawfulRing penc →
  is_Some (h !! sk) →
  ∃ h1 a bs h2,
    NewSecretKey NewPoly h params = (h1, Some a) ∧
    h !! a = None ∧
    SecretKey.MarshalBinary h1 (Some sk) = Ret (bs, None) ∧
    SecretKey.UnmarshalBinary h1 (Some a) bs = Ret (h2, None) ∧
    SecretKey.Equal h2 (Some a) (Some sk) = Ret true ∧
    SecretKey.Equal h2 (Some sk) (Some a) = Ret true ∧
    h2 !! sk = h !! sk.
Proof. intros L. apply (NewSecretKey_roundtrip_holds penc). Qed.

Lemma NewSecretKey_marshal_roundtrip_witness :
  ∃ h1 a bs h2,
    NewSecretKey (fun _ : unit => x00) example_heap tt = (h1, Some a) ∧
    example_heap !! a = None ∧
    SecretKey.MarshalBinary h1 (Some 1%positive) = Ret (bs, None) ∧
    SecretKey.UnmarshalBinary h1 (Some a) bs = Ret (h2, None) ∧
    SecretKey.Equal h2 (Some a) (Some 1%positive) = Ret true ∧
    SecretKey.Equal h2 (Some 1%positive) (Some a) = Ret true ∧
    h2 !! 1%positive = example_heap !! 1%positive.
Proof.
  apply (NewSecretKey_marshal_roundtrip byte_penc (fun _ : unit => x00) example_heap
           1%positive tt).
  - exact byte_LawfulRing.
  - exists (SecretKey.mkSecretKey x2a). reflexivity.
Defined.

(** X15: of the methods of [SecretKey], only [CopyNew] tests its receiver
    for nil: every other method reads [sk.Value] first and panics with a
    nil pointer dereference on a nil receiver. *)
Theorem SecretKey_nil_receiver_panics {Poly : Type} `{RingQP Poly}
    (h : gmap addr SecretKey.SecretKey) (other : option addr)
    (w : io_Writer) (r : io_Reader) (data : list byte) :
  SecretKey.Equal h None other = Panic panic_nil_dereference ∧
  SecretKey.LevelQ h None = Panic panic_nil_dereference ∧
  SecretKey.LevelP h None = Panic panic_nil_dereference ∧
  SecretKey.BinarySize h None = Panic panic_nil_dereference ∧
  SecretKey.MarshalBinary h None = Panic panic_nil_dereference ∧
  SecretKey.WriteTo h None w = Panic panic_nil_dereference ∧
  SecretKey.Read h None data = Panic panic_nil_dereference ∧
  SecretKey.UnmarshalBinary h None data = Panic panic_nil_dereference ∧
  SecretKey.ReadFrom h None r = Panic panic_nil_dereference ∧
  SecretKey.Write h None data = Panic panic_nil_dereference ∧
  SecretKey.CopyNew h None = Ret (h, None).
Proof. apply SecretKey_nil_receiver. Qed.

(** X16: [CopyNew] copies exactly. For a header that denotes the matrix
    [xs], the copy denotes the matrix of the copies of the elements, row by
    row; for a built-in numeric kind it denotes [xs] itself, with the same
    encoding. The copy is never nil, its array of rows is new and has no
    spare capacity, and the source still denotes [xs]. *)
Theorem CopyNew_exact {T : Type} `{Element T} (cp : T → T)
    (mm : mem T) (x : header) (xs : list (list T)) :
  element_copier = Some cp →
  load mm x = Some xs →
  ∃ mm' y,
    Matrix.CopyNew mm x = Ret (mm', y) ∧
    load mm' y = Some (map (map cp) xs) ∧
    load mm' x = Some xs ∧
    base y = Some (fresh (mem_dom mm)) ∧ hlen y = hlen x ∧ hcap y = hlen x ∧
    (is_primitive type_of = true →
     load mm' y = Some xs ∧ encoding mm' y = encoding mm x).
Proof.
  intros Hcp Hload.
  destruct (CopyNew_exact_holds cp mm x xs Hcp Hload)
    as (mm' & y & Hc & Hl & Hx & Hb & Hlen & Hcap & Hprim).
  exists mm', y. repeat (split; [done|]). intros Hp. specialize (Hprim Hp).
  split; [done|]. unfold encoding. rewrite Hprim, Hload. done.
Qed.

Lemma CopyNew_exact_witness :
  ∃ mm' y,
    Matrix.CopyNew example_mem example_header = Ret (mm', y) ∧
    load mm' y = Some (map (map (fun t => t)) [[x01; x02]; [x03]]) ∧
    load mm' example_header = Some [[x01; x02]; [x03]] ∧
    base y = Some (fresh (mem_dom example_mem)) ∧
    hlen y = hlen example_header ∧ hcap y = hlen example_header ∧
    (is_primitive (type_of (T := byte)) = true →
     load mm' y = Some [[x01; x02]; [x03]] ∧ encoding mm' y = encoding example_mem example_header).
Proof.
  apply (CopyNew_exact (fun t => t) example_mem example_header [[x01; x02]; [x03]]).
  - reflexivity.
  - vm_compute. reflexivity.
Defined.

(** X17: [ReadFrom] on a source that is not a [buffer.Reader] reads ahead.
    Whenever it returns, with or without an error and whatever the size of
    the matrix, the [bufio.Reader] it made has drawn at least the first 4096
    bytes of the source, or all of them when the source is shorter. *)
Theorem ReadFrom_raw_source_read_ahead {T : Type} `{Element T}
    (m0 : Matrix.Matrix (T := T)) (s : Source) :
  match Matrix.ReadFrom m0 (other_Reader s) with
  | Ret (_, r', _, _) =>
    ∃ j, (bufio.defaultBufSize ≤ j)%nat ∧ buffer.source_left r' = drop j s
  | Panic _ => True
  end.
Proof.
  destruct (Matrix.ReadFrom m0 (other_Reader s)) as [[[[m' r'] n] e]|p] eqn:Hr; [|done].
  apply ReadFrom_raw_source_holds in Hr. done.
Qed.
